(** * Cause-list case segmenter

    A shallow embedding of [backend/segmentation.py]: the three pipelines
    (Tesseract, Azure, Paddle) that turn the text of a cause list into a
    mapping from case serial to case text, and the dispatcher over them.

    Texts are Python [str] values over the code points 0..255, one [ascii]
    per code point; the character classes are those Python's [re] and [str]
    use on that range.  A mapping is a list of key-value pairs in insertion
    order.  Each regular expression is a matcher written out next to the
    pattern it stands for; where backtracking can change the result the
    matcher follows Python's order of alternatives.  Loops that jump ahead
    ([i = nxt]) recurse on the remaining lines with a count of lines to pass
    over.  Functions that can raise return a [result].  Numbers are exact:
    [int] has CPython's limit of 4300 digits on the literals it converts, and
    [float] is the nearest double, kept as the integer it equals. *)

From Stdlib Require Import List Ascii String NArith Arith Bool Lia.
From Stdlib Require Import Permutation Sorted.
From Stdlib Require DecimalString DecimalN DecimalFacts.
Import ListNotations.

(** ** Python strings *)

Module Py.

Definition str := list ascii.

Definition lit (s : string) : str := list_ascii_of_string s.

Definition nl : ascii := "010"%char.

Definition code (c : ascii) : N := N_of_ascii c.

Definition between (lo hi : N) (c : ascii) : bool :=
  (lo <=? code c)%N && (code c <=? hi)%N.

(** [str.isspace] and the class [\s]. *)
Definition is_space (c : ascii) : bool :=
  between 9 13 c || between 28 32 c || (code c =? 133)%N || (code c =? 160)%N.

(** The class [\d]. *)
Definition is_digit (c : ascii) : bool := between 48 57 c.

(** The class [[A-Z]]. *)
Definition is_AZ (c : ascii) : bool := between 65 90 c.

Definition is_az (c : ascii) : bool := between 97 122 c.

(** [str.isupper] on one character. *)
Definition is_upper (c : ascii) : bool :=
  is_AZ c || between 192 214 c || between 216 222 c.

(** The class [\w]. *)
Definition is_word (c : ascii) : bool :=
  is_digit c || is_AZ c || is_az c || (code c =? 95)%N
  || (code c =? 170)%N || between 178 179 c || (code c =? 181)%N
  || between 185 186 c || between 188 190 c
  || between 192 214 c || between 216 246 c || between 248 255 c.

Definition ch_eqb (a b : ascii) : bool := Ascii.eqb a b.

Fixpoint str_eqb (a b : str) : bool :=
  match a, b with
  | [], [] => true
  | x :: a', y :: b' => ch_eqb x y && str_eqb a' b'
  | _, _ => false
  end.

(** Longest prefix whose characters all satisfy [p], and the rest. *)
Fixpoint span (p : ascii -> bool) (s : str) : str * str :=
  match s with
  | [] => ([], [])
  | c :: s' =>
      if p c then let (a, b) := span p s' in (c :: a, b) else ([], s)
  end.

Definition lstrip (s : str) : str := snd (span is_space s).

Definition rstrip (s : str) : str := rev (lstrip (rev s)).

Definition strip (s : str) : str := rstrip (lstrip s).

(** [s.startswith(p)]; when it holds, the text after the prefix. *)
Fixpoint strip_prefix (p s : str) : option str :=
  match p, s with
  | [], _ => Some s
  | x :: p', y :: s' => if ch_eqb x y then strip_prefix p' s' else None
  | _ :: _, [] => None
  end.

Definition startswith (s p : str) : bool :=
  match strip_prefix p s with Some _ => true | None => false end.

(** [s.find(p)]: lowest index of an occurrence, [None] for Python's -1. *)
Fixpoint find (p s : str) : option nat :=
  if startswith s p then Some 0
  else match s with
       | [] => None
       | _ :: s' => option_map S (find p s')
       end.

(** [s.split('\n')]. *)
Fixpoint split_nl (s : str) : list str :=
  match s with
  | [] => [[]]
  | c :: s' =>
      if ch_eqb c nl then [] :: split_nl s'
      else match split_nl s' with
           | l :: ls => (c :: l) :: ls
           | [] => [[c]]
           end
  end.

(** [sep.join(parts)]. *)
Fixpoint join (sep : str) (parts : list str) : str :=
  match parts with
  | [] => []
  | [p] => p
  | p :: ps => p ++ sep ++ join sep ps
  end.

(** [s[i:j]], [s[i:]] and [s[:j]] for indices within range. *)
Definition slice (s : str) (i j : nat) : str := firstn (j - i) (skipn i s).

(** [str(n)] for a natural number. *)
Definition str_of_N (n : N) : str :=
  list_ascii_of_string (DecimalString.NilEmpty.string_of_uint (N.to_uint n)).

Definition digit_val (c : ascii) : N := (code c - 48)%N.

(** [int(s)] on a string of decimal digits. *)
Definition int_of_digits (s : str) : N :=
  fold_left (fun acc c => (10 * acc + digit_val c)%N) s 0%N.

(** [sys.get_int_max_str_digits()]: CPython raises [ValueError] when asked
    to convert a decimal literal of more digits than this. *)
Definition int_max_str_digits : nat := 4300.

(** [int(s)] for a plain run of digits, of at most 4300 digits.  [None]
    covers every other string: Python raises [ValueError] on a longer run
    and on most other strings, and accepts a sign, blanks around the digits
    or underscores between them, none of which reaches [int] in this
    program. *)
Definition py_int (s : str) : option N :=
  match s with
  | [] => None
  | _ =>
      if forallb is_digit s && (List.length s <=? int_max_str_digits)
      then Some (int_of_digits s)
      else None
  end.

(** [float(n)] for a natural number, as the integer the double equals: the
    number itself below 2^53, otherwise the nearest number with 53
    significant bits, a tie going to the even one; [2^1024] stands for
    [inf], which every number of 2^1024 - 2^970 or more is turned into. *)
Definition float_inf : N := N.shiftl 1 1024.

Definition float_of_N (n : N) : N :=
  if (n <? N.shiftl 1 53)%N then n
  else
    let e := (N.log2 n - 52)%N in
    let q := N.shiftr n e in
    let r := (n - N.shiftl q e)%N in
    let half := N.shiftl 1 (e - 1) in
    let q' := if (half <? r)%N || ((half =? r)%N && N.odd q)
              then (q + 1)%N else q in
    let v := N.shiftl q' e in
    if (float_inf <=? v)%N then float_inf else v.

(** [float(s)] for a plain run of digits, of any length.  [None] covers
    every other string: Python raises [ValueError] on most of them and
    accepts a sign, a fraction, an exponent, blanks around the number and
    the words [inf] and [nan], none of which is a key of a mapping this
    program builds. *)
Definition py_float (s : str) : option N :=
  match s with
  | [] => None
  | _ => if forallb is_digit s then Some (float_of_N (int_of_digits s)) else None
  end.

(** Whether [p] occurs in [s] ([p in s]). *)
Definition contains (p s : str) : bool :=
  match find p s with Some _ => true | None => false end.

End Py.

Import Py.

Arguments lit s%_string.
Arguments ch_eqb : simpl never.
Open Scope list_scope.

(** ** Python dictionaries

    A [dict] keeps its keys in insertion order; assigning to a key that is
    present replaces the value in place, assigning to a new key appends. *)

Module Dict.

Definition dict := list (str * str).

Fixpoint get (d : dict) (k : str) : option str :=
  match d with
  | [] => None
  | (k', v) :: d' => if str_eqb k k' then Some v else get d' k
  end.

Definition mem (d : dict) (k : str) : bool :=
  match get d k with Some _ => true | None => false end.

Fixpoint set (d : dict) (k v : str) : dict :=
  match d with
  | [] => [(k, v)]
  | (k', v') :: d' =>
      if str_eqb k k' then (k', v) :: d' else (k', v') :: set d' k v
  end.

Definition keys (d : dict) : list str := map fst d.

(** [d.get(k, '')]. *)
Definition get_default (d : dict) (k : str) : str :=
  match get d k with Some v => v | None => [] end.

End Dict.

Import Dict.

(** ** Tesseract: the noise normaliser *)

(** [\d{1,3}(?:\.\d+)?] in front of something that cannot start with a digit:
    the run of digits must be one to three long, and a dot followed by digits
    is taken whole.  Returns the token and the rest. *)
Definition serial_token (s : str) : option (str * str * option str) :=
  let (d, r) := span is_digit s in
  if (1 <=? List.length d) && (List.length d <=? 3) then
    match r with
    | c :: r' =>
        if ch_eqb c "."%char then
          let (ds, r'') := span is_digit r' in
          match ds with
          | [] => Some (d, r, None)
          | _ => Some (d, r'', Some ds)
          end
        else Some (d, r, None)
    | [] => Some (d, r, None)
    end
  else None.

Definition token_text (d : str) (sub : option str) : str :=
  match sub with
  | Some ds => d ++ "."%char :: ds
  | None => d
  end.

Definition not_nl (c : ascii) : bool := negb (ch_eqb c nl).

(** An optional single character [c?]: the text after it when it is there. *)
Definition opt_char (c : ascii) (s : str) : str :=
  match s with
  | x :: r => if ch_eqb x c then r else s
  | [] => s
  end.

(** [re.match(P, line)] for the pattern P, written here with a blank between
    its parts, [^ (\s* ) (\d{1,3}(?:\.\d+)?) (\.)? \s+ ([=]?\s* ) (.* )]:
    groups 1, 2 and 5.
    Every quantifier takes its longest run: a shorter run of blanks or digits
    leaves a blank or a digit where the pattern needs something else, and the
    final group accepts whatever is left of the line. *)
Definition noise_match (line : str) : option (str * str * str) :=
  let (g1, r1) := span is_space line in
  match serial_token r1 with
  | None => None
  | Some (d, r2, sub) =>
      let r3 := opt_char "."%char r2 in
      let (ws, r4) := span is_space r3 in
      match ws with
      | [] => None
      | _ =>
          let r5 := opt_char "="%char r4 in
          let r6 := lstrip r5 in
          Some (g1, token_text d sub, fst (span not_nl r6))
      end
  end.

Definition _normalize_ocr_noise (line : str) : str :=
  match noise_match line with
  | Some (g1, g2, g5) => g1 ++ g2 ++ " "%char :: g5
  | None => line
  end.

(** ** Tesseract: inferring the serials of a column dump *)

(** [\Z] after a pattern run on a stripped string, and Python's [$], which
    also holds just before a final newline. *)
Definition at_dollar (r : str) : bool :=
  match r with
  | [] => true
  | [c] => ch_eqb c nl
  | _ => false
  end.

(** [re.match("^\d{1,3}(?:\.\d+)?$", s) and s]: a bare serial on its own. *)
Definition is_standalone (s : str) : bool :=
  match serial_token s with
  | Some (_, r, _) => at_dollar r
  | None => false
  end.

(** A bare serial with nothing after it, which is what a stripped line that
    passes [is_standalone] is. *)
Definition is_serial_text (s : str) : bool :=
  match serial_token s with
  | Some (_, [], _) => true
  | _ => false
  end.

Definition not_dot (c : ascii) : bool := negb (ch_eqb c "."%char).

(** [s.split('.')[0]]. *)
Definition before_dot (s : str) : str := fst (span not_dot s).

(** [int(s.split('.')[0])]. *)
Definition main_of (s : str) : option N := py_int (before_dot s).

(** [[str(i) for i in range(start, stop)]]. *)
Definition str_range (start stop : N) : list str :=
  map (fun i => str_of_N (start + N.of_nat i)) (seq 0 (N.to_nat (stop - start))).

(** [prev_inline or 0]. *)
Definition or_zero (prev : option N) : N :=
  match prev with Some n => n | None => 0%N end.

(** All of [int(s.split('.')[0]) for s in found], or [None] when one raises. *)
Fixpoint mains_of (found : list str) : option (list N) :=
  match found with
  | [] => Some []
  | s :: rest =>
      match main_of s, mains_of rest with
      | Some m, Some ms => Some (m :: ms)
      | _, _ => None
      end
  end.

Definition min_list (m : N) (ms : list N) : N := fold_left N.min ms m.

(** The loop [while len(complete) < n_blocks: last_main += 1; append].  Each
    turn makes [complete] one longer, so [n_blocks] turns are always enough. *)
Fixpoint extend_loop (fuel n_blocks : nat) (last_main : N) (complete : list str)
  : list str :=
  match fuel with
  | 0 => complete
  | S fuel' =>
      if List.length complete <? n_blocks then
        extend_loop fuel' n_blocks (last_main + 1)
                    (complete ++ [str_of_N (last_main + 1)])
      else complete
  end.

Definition _infer_serials (prev_inline : option N) (found_standalones : list str)
                          (n_blocks : nat) : option (list str) :=
  match found_standalones with
  | [] =>
      let start := (or_zero prev_inline + 1)%N in
      Some (str_range start (start + N.of_nat n_blocks))
  | _ =>
      match mains_of found_standalones with
      | Some (m :: ms) =>
          let first_main := min_list m ms in
          let start := (or_zero prev_inline + 1)%N in
          let gap := str_range start first_main in
          let complete := gap ++ found_standalones in
          match
            match complete with
            | [] => Some (or_zero prev_inline)
            | _ => main_of (last complete [])
            end
          with
          | None => None
          | Some last_main =>
              Some (firstn n_blocks
                      (extend_loop n_blocks n_blocks last_main complete))
          end
      | _ => None
      end
  end.

(** [int(s.split('.')[0])] for a serial, on which [int] cannot fail. *)
Definition main_number (s : str) : N := int_of_digits (before_dot s).

(** ** Matching and scanning *)

Definition nonempty (s : str) : bool :=
  match s with [] => false | _ :: _ => true end.

(** Prepend a character to the first piece of a split. *)
Definition cons_first (c : ascii) (ps : list str) : list str :=
  match ps with
  | p :: ps' => (c :: p) :: ps'
  | [] => [[c]]
  end.

(** [re.split] for a pattern that cannot match the empty string and does not
    look behind: [m s] is the length of the match at the head of [s]. *)
Fixpoint re_split_go (m : str -> option nat) (skip : nat) (s : str) : list str :=
  match s with
  | [] => [[]]
  | c :: s' =>
      match skip with
      | S k => re_split_go m k s'
      | 0 =>
          match m s with
          | Some (S k) => [] :: re_split_go m k s'
          | _ => cons_first c (re_split_go m 0 s')
          end
      end
  end.

Definition re_split (m : str -> option nat) (s : str) : list str :=
  re_split_go m 0 s.

(** [re.finditer] for a pattern that cannot match the empty string.  [m] is
    given the character before the position ([None] at the start of the text)
    and the text from the position on, and returns the length of the match
    with whatever the caller wants to keep of it.  The result lists each
    match's start, length and kept value. *)
Fixpoint scan {A : Type} (m : option ascii -> str -> option (nat * A))
         (skip : nat) (prev : option ascii) (pos : nat) (s : str)
  : list (nat * nat * A) :=
  match s with
  | [] => []
  | c :: s' =>
      match skip with
      | S k => scan m k (Some c) (S pos) s'
      | 0 =>
          match m prev s with
          | Some (S k, a) => (pos, S k, a) :: scan m k (Some c) (S pos) s'
          | _ => scan m 0 (Some c) (S pos) s'
          end
      end
  end.

Definition finditer {A : Type} (m : option ascii -> str -> option (nat * A))
                    (s : str) : list (nat * nat * A) :=
  scan m 0 None 0 s.

(** [^] under [re.MULTILINE]: at the start of the text or after a newline. *)
Definition at_bol (prev : option ascii) : bool :=
  match prev with
  | None => true
  | Some c => ch_eqb c nl
  end.

(** Whether a character is there and is a word character, as the two sides
    of [\b] ask. *)
Definition is_word_opt (c : option ascii) : bool :=
  match c with Some x => is_word x | None => false end.

(** ** Tesseract: helpers of the column-dump reassembler *)

(** [re.match("^\d{1,3}(?:\.\d+)?\s+\S", stripped)]. *)
Definition inline_serial_re (s : str) : bool :=
  match serial_token s with
  | Some (_, r, _) =>
      let (ws, r') := span is_space r in nonempty ws && nonempty r'
  | None => false
  end.

(** [re.match("^(?:IA|No\.)\s", stripped)]. *)
Definition ia_no_re (s : str) : bool :=
  match strip_prefix (lit "IA") s, strip_prefix (lit "No.") s with
  | Some (c :: _), _ => is_space c
  | _, Some (c :: _) => is_space c
  | _, _ => false
  end.

Definition _is_genuine_inline_serial (stripped : str) : bool :=
  if negb (inline_serial_re stripped) then false
  else negb (ia_no_re stripped).

(** A literal followed by [\s+] and then [next]: the length matched. *)
Definition lit_ws_then (l : str) (next : str -> option nat) (s : str) : option nat :=
  match strip_prefix l s with
  | Some r =>
      let (ws, r') := span is_space r in
      match ws, next r' with
      | _ :: _, Some k => Some (List.length l + List.length ws + k)
      | _, _ => None
      end
  | None => None
  end.

Definition one_digit (s : str) : option nat :=
  match s with
  | c :: _ => if is_digit c then Some 1 else None
  | [] => None
  end.

Definition literal (l : str) (s : str) : option nat :=
  if startswith s l then Some (List.length l) else None.

Fixpoint first_some {A : Type} (alts : list (option A)) : option A :=
  match alts with
  | [] => None
  | Some a :: _ => Some a
  | None :: rest => first_some rest
  end.

(** The alternation [(?:C\.A\.|SLP\(|W\.P\.\(|Crl\.A\.|MA\s+\d|Diary\s+No\.)]
    at the head of [s]: the length matched. *)
Definition case_type_opener (s : str) : option nat :=
  first_some
    [ literal (lit "C.A.") s;
      literal (lit "SLP(") s;
      literal (lit "W.P.(") s;
      literal (lit "Crl.A.") s;
      lit_ws_then (lit "MA") one_digit s;
      lit_ws_then (lit "Diary") (literal (lit "No.")) s ].

(** [_CASE_TYPE_OPENER_RE], the alternation above after [(?m)^]. *)
Definition _CASE_TYPE_OPENER_RE (prev : option ascii) (s : str) : option (nat * unit) :=
  if at_bol prev then option_map (fun k => (k, tt)) (case_type_opener s)
  else None.

(** [[m.start() for m in _CASE_TYPE_OPENER_RE.finditer(text)]]. *)
Definition opener_starts (text : str) : list nat :=
  map (fun m => fst (fst m)) (finditer _CASE_TYPE_OPENER_RE text).

(** The blocks between consecutive starts, the last one running to the end
    of the text: [text[s:next]] for each start [s]. *)
Fixpoint blocks_between (text : str) (starts : list nat) : list str :=
  match starts with
  | [] => []
  | s :: rest =>
      let stop := match rest with
                  | next :: _ => next
                  | [] => List.length text
                  end in
      slice text s stop :: blocks_between text rest
  end.

Definition _split_case_type_blocks (text : str) : list str :=
  filter nonempty (map strip (blocks_between text (opener_starts text))).

Definition is_IVX (c : ascii) : bool :=
  ch_eqb c "I"%char || ch_eqb c "V"%char || ch_eqb c "X"%char.

(** [_BENCH_CODE_RE.match(s)] for the pattern
    [^(?:[IVX]+-?[A-Z]?|[A-Z]{1,3}|Il|PIL-\w+)$]; only whether it matches is
    used, so each alternative is tested on its own. *)
Definition _BENCH_CODE_RE (s : str) : bool :=
  (let (a, r) := span is_IVX s in
   nonempty a &&
   at_dollar (let r1 := opt_char "-"%char r in
              match r1 with
              | c :: r2 => if is_AZ c then r2 else r1
              | [] => r1
              end))
  || (let (a, r) := span is_AZ s in
      (1 <=? List.length a) && (List.length a <=? 3) && at_dollar r)
  || match strip_prefix (lit "Il") s with
     | Some r => at_dollar r
     | None => false
     end
  || match strip_prefix (lit "PIL-") s with
     | Some r => let (w, r') := span is_word r in nonempty w && at_dollar r'
     | None => false
     end.

Definition is_docket_char (c : ascii) : bool :=
  is_digit c || ch_eqb c "-"%char || ch_eqb c "/"%char || ch_eqb c ","%char.

(** [re.match("^[\d\-/,]+$", s)]. *)
Definition docket_re (s : str) : bool :=
  let (a, r) := span is_docket_char s in nonempty a && at_dollar r.

Definition is_some {A : Type} (o : option A) : bool :=
  match o with Some _ => true | None => false end.

(** The loop of [_find_party_start_in_block] over the lines of the block. *)
Fixpoint party_start_loop (lines : list str) (pos : nat) (seen : bool)
  : option nat :=
  match lines with
  | [] => None
  | line :: rest =>
      let s := strip line in
      if negb (nonempty s) then
        party_start_loop rest (pos + List.length line + 1) seen
      else if is_some (case_type_opener s) then
        party_start_loop rest (pos + List.length line + 1) true
      else if seen && (_BENCH_CODE_RE s || docket_re s) then
        party_start_loop rest (pos + List.length line + 1) seen
      else if seen then Some pos
      else party_start_loop rest (pos + List.length line + 1) seen
  end.

Definition _find_party_start_in_block (block : str) : nat :=
  match party_start_loop (split_nl block) 0 false with
  | Some pos => pos
  | None => List.length block
  end.

(** [_PARTY_SKIP]. *)
Definition _PARTY_SKIP : list str :=
  map lit
    [ "IA "; "FOR "; "IN "; "I.R."; "SLP"; "C.A."; "Diary"; "W.P."; "Crl.";
      "FILING"; "C/C"; "AFFIDAVIT"; "CONDONATION"; "EXEMPTION"; "PERMISSION";
      "CLARIFICATION"; "STAY"; "RELIEF"; "APPLICATION"; "MODIFICATION";
      "No."; "ADDL"; "LENGTHY"; "ADDITIONAL" ]%string.

(** The character class of the party-name pattern: capitals, digits, blanks,
    and the characters . , & / @ - ( ) ' and the double quote (the M, / and
    S written in the class are already among these). *)
Definition is_party_char (c : ascii) : bool :=
  is_AZ c || is_digit c || is_space c
  || existsb (ch_eqb c)
       [ "."; ","; "&"; "/"; "@"; "-"; "("; ")"; "'"; "034"; "M"; "S" ]%char.

(** The party-name pattern on [fl]: [^], one character of [[A-Z]], one or
    more characters of the party class, [$]. *)
Definition party_name_re (fl : str) : bool :=
  match fl with
  | c :: r =>
      is_AZ c && (let (a, r') := span is_party_char r in
                  nonempty a && at_dollar r')
  | [] => false
  end.

Definition first_line (s : str) : str := hd [] (split_nl s).

Definition _looks_like_party (text : str) : bool :=
  let fl := strip (first_line (strip text)) in
  match fl with
  | [] => false
  | c :: _ =>
      if negb (is_upper c) then false
      else if existsb (startswith fl) _PARTY_SKIP then false
      else if negb (party_name_re fl) then false
      else 4 <=? List.length fl
  end.

(** The pattern [\n\n+] at the head of [s]. *)
Definition blank_line_sep (s : str) : option nat :=
  let (a, _) := span (fun c => ch_eqb c nl) s in
  if 2 <=? List.length a then Some (List.length a) else None.

(** [re.split("\n\n+", s)]. *)
Definition split_paragraphs (s : str) : list str := re_split blank_line_sep s.

(** [next((i for i in range(len(l)-1, -1, -1) if p(l[i])), None)]. *)
Fixpoint last_index {A : Type} (p : A -> bool) (l : list A) : option nat :=
  match l with
  | [] => None
  | x :: l' =>
      match last_index p l' with
      | Some i => Some (S i)
      | None => if p x then Some 0 else None
      end
  end.

Definition para_join (ps : list str) : str := join [nl; nl] ps.

Definition _split_resp_frag (text : str) : str * str :=
  let paras := split_paragraphs (strip text) in
  match last_index _looks_like_party paras with
  | None => (strip text, [])
  | Some (S l) =>
      (strip (para_join (firstn (S l) paras)),
       strip (para_join (skipn (S l) paras)))
  | Some 0 => (strip text, [])
  end.

Definition _split_frag0 (text : str) : str * str :=
  let paras := split_paragraphs (strip text) in
  match last_index _looks_like_party paras with
  | None | Some 0 => ([], strip text)
  | Some l =>
      (strip (para_join (firstn l paras)), strip (para_join (skipn l paras)))
  end.

(** ** Raised exceptions *)

Inductive exn : Type :=
| IndexError
| IntError     (* the [ValueError] of [int] or [str]: a malformed literal,
                  or a number of more than 4300 digits *)
| FloatError   (* the [ValueError] of [float] on a malformed literal *)
| ValueError (msg : str).

Inductive result (A : Type) : Type :=
| Ok (a : A)
| Raise (e : exn).

Arguments Ok {A} a.
Arguments Raise {A} e.

Definition bind {A B : Type} (r : result A) (f : A -> result B) : result B :=
  match r with
  | Ok a => f a
  | Raise e => Raise e
  end.

Notation "x <- r ;; k" := (bind r (fun x => k))
  (at level 61, r at next level, right associativity).

(** [int(s)], raising where [py_int] has no value. *)
Definition int (s : str) : result N :=
  match py_int s with
  | Some n => Ok n
  | None => Raise IntError
  end.

(** [l[i]], raising [IndexError] past the end. *)
Definition index {A : Type} (l : list A) (i : nat) : result A :=
  match nth_error l i with
  | Some a => Ok a
  | None => Raise IndexError
  end.

(** The pattern [\n[ \t]*Versus[ \t]*\n] at the head of [s]. *)
Definition is_blank (c : ascii) : bool := ch_eqb c " "%char || ch_eqb c "009"%char.

Definition versus_line_sep (s : str) : option nat :=
  match s with
  | c :: r =>
      if ch_eqb c nl then
        let (b1, r1) := span is_blank r in
        match strip_prefix (lit "Versus") r1 with
        | Some r2 =>
            let (b2, r3) := span is_blank r2 in
            match r3 with
            | c3 :: _ =>
                if ch_eqb c3 nl
                then Some (1 + List.length b1 + 6 + List.length b2 + 1)
                else None
            | [] => None
            end
        | None => None
        end
      else None
  | [] => None
  end.

(** One turn of the loop of [_distribute_parties], for case [i]. *)
Definition party_block (frags : list str) (case0_pet : str) (i : nat)
  : result str :=
  pet <- (match i with
          | 0 => Ok case0_pet
          | _ => f <- index frags i ;; Ok (snd (_split_resp_frag f))
          end) ;;
  resp <- (if S i <? List.length frags
           then f <- index frags (S i) ;; Ok (fst (_split_resp_frag f))
           else Ok []) ;;
  Ok (match nonempty pet, nonempty resp with
      | true, true => pet ++ nl :: lit "Versus" ++ nl :: resp
      | true, false => pet
      | false, true => lit "Versus" ++ nl :: resp
      | false, false => []
      end).

Fixpoint map_result {A B : Type} (f : A -> result B) (l : list A)
  : result (list B) :=
  match l with
  | [] => Ok []
  | x :: l' => y <- f x ;; ys <- map_result f l' ;; Ok (y :: ys)
  end.

Definition _distribute_parties (case_blocks : list str) (serials : list str)
                               (party_content : str)
  : result (str * list str) :=
  let frags := re_split versus_line_sep party_content in
  let n := List.length case_blocks in
  if List.length frags <? 2 then
    Ok ([], party_content :: repeat [] (n - 1))
  else
    let (frag0_resp, case0_pet) := _split_frag0 (hd [] frags) in
    blocks <- map_result (party_block frags case0_pet) (seq 0 n) ;;
    Ok (frag0_resp, blocks).

(** ** Tesseract: the column-dump reassembler *)

(** The inner [while j < len(lines)] loop: the bare serials found from line
    [i] on, blank lines skipped, and how many lines were passed ([j - i]). *)
Fixpoint collect_standalones (lines : list str) : list str * nat :=
  match lines with
  | [] => ([], 0)
  | l :: rest =>
      let s := strip l in
      if is_standalone s && nonempty s then
        let (found, k) := collect_standalones rest in (s :: found, S k)
      else if negb (nonempty s) then
        let (found, k) := collect_standalones rest in (found, S k)
      else ([], 0)
  end.

(** [next((k for k in range(j, len(lines)) if genuine(lines[k].strip())),
    len(lines))], counted from [j]. *)
Fixpoint next_inline (lines : list str) : nat :=
  match lines with
  | [] => 0
  | l :: rest =>
      if _is_genuine_inline_serial (strip l) then 0 else S (next_inline rest)
  end.

(** One turn of the emitting loop: the reconstructed entry of a case. *)
Definition emit_case (t : str * (str * str)) : str :=
  let '(serial, (cblock, pb)) := t in
  let combined := if nonempty pb then cblock ++ nl :: pb else cblock in
  match find [nl] combined with
  | None => serial ++ " "%char :: combined
  | Some k =>
      serial ++ " "%char :: firstn k combined ++ nl :: skipn (S k) combined
  end.

(** [last_inline] after the emitting loop: the main number of the last
    serial emitted.  [int] cannot fail on it: every inferred serial is a run
    of digits, possibly followed by a dot and more digits. *)
Definition last_emitted (last_inline : option N) (ts : list (str * (str * str)))
  : option N :=
  match ts with
  | [] => last_inline
  | t :: _ => Some (main_number (fst (last ts t)))
  end.

(** What a dump zone starting at the head of [lines] is rewritten to: the
    lines to emit, the new [last_inline], and the number of lines consumed
    ([nxt - i]); [None] when the zone is not a dump after all and the line is
    copied through. *)
Definition dump_zone (last_inline : option N) (lines : list str)
  : result (option (list str * option N * nat)) :=
  let (standalones, j) := collect_standalones lines in
  if List.length standalones <? 2 then Ok None
  else
    let after := skipn j lines in
    let nxt := next_inline after in
    let content := join [nl] (firstn nxt after) in
    let case_blocks := _split_case_type_blocks content in
    match case_blocks with
    | [] => Ok None
    | _ :: _ =>
        full_serials <-
          match _infer_serials last_inline standalones (List.length case_blocks) with
          | Some l => Ok l
          | None => Raise IntError
          end ;;
        let type_starts := opener_starts content in
        let split :=
          match type_starts with
          | [] => (case_blocks, [])
          | _ :: _ =>
              let last_type_start := last type_starts 0 in
              let last_block_text := skipn last_type_start content in
              let psi := _find_party_start_in_block last_block_text in
              if psi <? List.length last_block_text then
                let party_content := strip (skipn (last_type_start + psi) content) in
                let clean_last := strip (firstn psi last_block_text) in
                (removelast case_blocks
                   ++ (if nonempty clean_last then [clean_last] else []),
                 party_content)
              else (case_blocks, [])
          end in
        let (case_blocks', party_content) := split in
        distributed <-
          (if nonempty party_content then
             r <- _distribute_parties case_blocks' full_serials party_content ;;
             let (inline_resp, party_blocks) := r in
             Ok (if nonempty inline_resp
                 then [lit "Versus" ++ nl :: inline_resp]
                 else [],
                 party_blocks)
           else Ok ([], repeat [] (List.length case_blocks'))) ;;
        let (versus_line, party_blocks) := distributed in
        let triples := combine full_serials (combine case_blocks' party_blocks) in
        Ok (Some (versus_line ++ map emit_case triples,
                  last_emitted last_inline triples,
                  j + nxt))
    end.

(** [re.match("^(\d{1,3})", stripped)]: group 1, empty when there is no match. *)
Definition leading_digits (s : str) : str := firstn 3 (fst (span is_digit s)).

(** The main [while i < len(lines)] loop, run over the lines from [i] on;
    [skip] lines are passed over after a dump zone set [i = nxt].  Returns
    the items appended to [output]. *)
Fixpoint reassemble_loop (skip : nat) (last_inline : option N) (lines : list str)
  : result (list str) :=
  match lines with
  | [] => Ok []
  | line :: rest =>
      match skip with
      | S k => reassemble_loop k last_inline rest
      | 0 =>
          let stripped := strip line in
          if _is_genuine_inline_serial stripped then
            let last_inline' :=
              match leading_digits stripped with
              | [] => last_inline
              | ds => Some (int_of_digits ds)
              end in
            out <- reassemble_loop 0 last_inline' rest ;;
            Ok (line :: out)
          else if is_standalone stripped && nonempty stripped then
            zone <- dump_zone last_inline lines ;;
            match zone with
            | Some (emitted, last_inline', consumed) =>
                out <- reassemble_loop (consumed - 1) last_inline' rest ;;
                Ok (emitted ++ out)
            | None =>
                out <- reassemble_loop 0 last_inline rest ;;
                Ok (line :: out)
            end
          else
            out <- reassemble_loop 0 last_inline rest ;;
            Ok (line :: out)
      end
  end.

Definition _reassemble_column_dumps (text : str) : result str :=
  let text := join [nl] (map _normalize_ocr_noise (split_nl text)) in
  let lines := split_nl text in
  output <- reassemble_loop 0 None lines ;;
  Ok (join [nl] output).

(** ** Tesseract: the core segmenter *)

(** One of [No.], [no.], [NO.] at the head of [s]. *)
Definition starts_no (s : str) : bool :=
  startswith s (lit "No.") || startswith s (lit "no.") || startswith s (lit "NO.").

(** The class [[A-Z({\[]]. *)
Definition is_boundary_open (c : ascii) : bool :=
  is_AZ c || ch_eqb c "("%char || ch_eqb c "{"%char || ch_eqb c "["%char.

(** [_TESSERACT_LEADING_RE.match(s)]: the groups [main] and [sub].  The
    blanks after the serial give one back when [No.] follows them, so only a
    single blank before [No.] makes the match fail. *)
Definition _TESSERACT_LEADING_RE (s : str) : option (str * option str) :=
  match serial_token s with
  | Some (d, r, sub) =>
      let (ws, r') := span is_space r in
      if nonempty ws && (negb (starts_no r') || (2 <=? List.length ws))
      then Some (d, sub)
      else None
  | None => None
  end.

(** [int(m.group("sub")) if m.group("sub") else None]. *)
Definition int_opt (sub : option str) : result (option N) :=
  match sub with
  | Some ds => n <- int ds ;; Ok (Some n)
  | None => Ok None
  end.

Definition _tesseract_parse_serial (block : str)
  : result (option (N * option N)) :=
  match _TESSERACT_LEADING_RE (lstrip block) with
  | None => Ok None
  | Some (main, sub) =>
      m <- int main ;;
      s <- int_opt sub ;;
      Ok (Some (m, s))
  end.

(** What [_TESSERACT_SPLIT_RE] looks ahead for after [(?:^|\n)]: blanks, a
    serial, blanks, and a capital or opening bracket that does not start
    [No.] or [NO.]. *)
Definition serial_boundary (s : str) : bool :=
  match serial_token (lstrip s) with
  | Some (_, r, _) =>
      let (ws, r') := span is_space r in
      nonempty ws && negb (starts_no r')
      && match r' with c :: _ => is_boundary_open c | [] => false end
  | None => false
  end.

(** [_TESSERACT_SPLIT_RE.split(text)]: the pattern is a lookahead, so the
    text is cut, with nothing removed, at every position that is a line
    start or a newline and from which [serial_boundary] holds. *)
Fixpoint split_serials_go (bol : bool) (s : str) : list str :=
  match s with
  | [] => [[]]
  | c :: s' =>
      let rest := cons_first c (split_serials_go (ch_eqb c nl) s') in
      if (bol || ch_eqb c nl) && serial_boundary s then [] :: rest else rest
  end.

Definition _TESSERACT_SPLIT_RE_split (text : str) : list str :=
  split_serials_go true text.

(** The candidate blocks a pipeline classifies: the pieces of the split,
    stripped, without the empty ones. *)
Definition candidate_blocks (text : str) : list str :=
  filter nonempty (map strip (_TESSERACT_SPLIT_RE_split text)).

(** [f"--- Connected {main}.{sub} ---"]. *)
Definition connected_marker (main sub : N) : str :=
  lit "--- Connected " ++ str_of_N main ++ "."%char :: str_of_N sub ++ lit " ---".

(** [cases[k] += suffix]; [k] is a key of [cases] wherever this is used. *)
Definition append_value (cases : dict) (k suffix : str) : dict :=
  match get cases k with
  | Some v => set cases k (v ++ suffix)
  | None => cases
  end.

(** One turn of the loop of [segment_cases_tesseract] on a non-empty,
    stripped block, from where [parsed] is known. *)
Definition tesseract_update (st : dict * option str)
                            (parsed : option (N * option N)) (block : str)
  : dict * option str :=
  let (cases, last_key) := st in
  match parsed with
  | None =>
      match last_key with
      | Some k =>
          if nonempty k then (append_value cases k (nl :: nl :: block), last_key)
          else st
      | None => st
      end
  | Some (main, sub) =>
      let key := str_of_N main in
      match sub with
      | Some sub =>
          (set cases key
               (get_default cases key
                ++ nl :: nl :: connected_marker main sub ++ nl :: block),
           Some key)
      | None =>
          (set cases key
               (get_default cases key
                ++ (if mem cases key then [nl; nl] else []) ++ block),
           Some key)
      end
  end.

Definition tesseract_step (st : dict * option str) (block : str)
  : result (dict * option str) :=
  parsed <- _tesseract_parse_serial block ;;
  Ok (tesseract_update st parsed block).

(** A loop whose body can raise: the state after the last turn, or the
    first exception. *)
Fixpoint fold_result {S A : Type} (f : S -> A -> result S) (l : list A) (st : S)
  : result S :=
  match l with
  | [] => Ok st
  | x :: l' => st' <- f st x ;; fold_result f l' st'
  end.

Definition tesseract_merge (blocks : list str) : result dict :=
  st <- fold_result tesseract_step blocks ([], None) ;;
  Ok (fst st).

(** The candidate blocks of the Tesseract pipeline: those of the
    reassembled text, when the reassembler returns one. *)
Definition tesseract_blocks (text : str) : result (list str) :=
  text' <- _reassemble_column_dumps text ;;
  Ok (candidate_blocks text').

Definition segment_cases_tesseract (text : str) : result dict :=
  blocks <- tesseract_blocks text ;;
  tesseract_merge blocks.

(** ** Azure: line tags *)

Inductive tag : Type := EMPTY | VERSUS | IA | ADVOCATE | STRUCTURAL | PARTY.

Definition tag_eqb (a b : tag) : bool :=
  match a, b with
  | EMPTY, EMPTY | VERSUS, VERSUS | IA, IA | ADVOCATE, ADVOCATE
  | STRUCTURAL, STRUCTURAL | PARTY, PARTY => true
  | _, _ => false
  end.

(** [re.match("^Versus\b", s)]. *)
Definition versus_re (s : str) : bool :=
  match strip_prefix (lit "Versus") s with
  | Some r => negb (is_word_opt (hd_error r))
  | None => false
  end.

(** The three patterns of the application lines: [^IA (?:No\.|FOR )], [^FOR ]
    followed by one of the listed words, and [^I\.R\.]. *)
Definition ia_re (s : str) : bool :=
  existsb (startswith s) (map lit [ "IA No."; "IA FOR " ]%string)
  || existsb (startswith s)
       (map lit
          [ "FOR EXEMPTION"; "FOR ADMISSION"; "FOR CONDONATION";
            "FOR PERMISSION"; "FOR GRANT"; "FOR APPLICATION";
            "FOR MODIFICATION"; "FOR STAY"; "FOR CLARIFICATION";
            "FOR APPROPRIATE"; "FOR I.R." ]%string)
  || startswith s (lit "I.R.").

(** [re.search("\[(?:R|P|CAVEAT)-", s)]. *)
Definition advocate_re (s : str) : bool :=
  contains (lit "[R-") s || contains (lit "[P-") s || contains (lit "[CAVEAT-") s.

Definition _azure_tag_line (line : str) : tag :=
  let s := strip line in
  if negb (nonempty s) then EMPTY
  else if versus_re s then VERSUS
  else if ia_re s then IA
  else if advocate_re s then ADVOCATE
  else PARTY.

(** [_STRUCTURAL_LINE_RE.match(s)]: [---\s*Connected], or a serial followed
    by blanks, or a case-type opener, at the head of [s]. *)
Definition _STRUCTURAL_LINE_RE (s : str) : bool :=
  match strip_prefix (lit "---") s with
  | Some r => startswith (lstrip r) (lit "Connected")
  | None => false
  end
  || match serial_token s with
     | Some (_, c :: _, _) => is_space c
     | _ => false
     end
  || is_some (case_type_opener s).

Definition _azure_tag_for_struct (line : str) : tag :=
  let s := strip line in
  if negb (nonempty s) then EMPTY
  else if versus_re s then VERSUS
  else if ia_re s then IA
  else if advocate_re s then ADVOCATE
  else if _STRUCTURAL_LINE_RE s || startswith s (lit "---") then STRUCTURAL
  else PARTY.

(** ** Azure: splitting a blob *)

(** [versus_is_inline]: [re.match("^Versus\s+(.+)", s)] with a non-blank
    group 1.  When the blanks run to the end of the line, the group can only
    capture blanks given back by [\s+], and the test fails. *)
Definition versus_is_inline (line : str) : bool :=
  match strip_prefix (lit "Versus") (strip line) with
  | Some r =>
      let (ws, r') := span is_space r in
      nonempty ws && nonempty (strip (fst (span not_nl r')))
  | None => false
  end.

(** [l[i:j]] for a list. *)
Definition sublist {A : Type} (l : list A) (i j : nat) : list A :=
  firstn (j - i) (skipn i l).

(** [[i for i, t in enumerate(tags) if t == wanted]], counted from [i]. *)
Fixpoint positions_of (wanted : tag) (i : nat) (tags : list tag) : list nat :=
  match tags with
  | [] => []
  | t :: ts =>
      if tag_eqb t wanted then i :: positions_of wanted (S i) ts
      else positions_of wanted (S i) ts
  end.

(** The loop [while j < vi] of [_azure_split_blob] over the tags of the
    lines [j .. vi-1]: the final [last_section_end]. *)
Fixpoint respondent_scan (ts : list tag) (j last_section_end : nat)
         (respondent_found : bool) : nat :=
  match ts with
  | [] => last_section_end
  | t :: ts' =>
      match t with
      | EMPTY => respondent_scan ts' (S j) last_section_end respondent_found
      | PARTY =>
          if respondent_found then last_section_end
          else respondent_scan ts' (S j) j true
      | IA | ADVOCATE => respondent_scan ts' (S j) j true
      | _ => respondent_scan ts' (S j) last_section_end respondent_found
      end
  end.

(** The number of [EMPTY] tags at the head of [ts]. *)
Fixpoint leading_empty (ts : list tag) : nat :=
  match ts with
  | EMPTY :: ts' => S (leading_empty ts')
  | _ => 0
  end.

(** [pet_starts] for the Versus lines after the first: one turn of the loop
    for the pair [prev_vi], [vi]. *)
Definition pet_start (lines : list str) (tags : list tag) (prev_vi vi : nat)
  : nat :=
  let inline := versus_is_inline (nth prev_vi lines []) in
  let last_section_end :=
    respondent_scan (sublist tags (S prev_vi) vi) (S prev_vi) prev_vi inline in
  let ps := S last_section_end in
  ps + leading_empty (sublist tags ps vi).

(** [pet_starts]: 0 for the first Versus line, [pet_start] for each later
    one and its predecessor. *)
Fixpoint pet_starts_from (lines : list str) (tags : list tag)
         (prev_vi : nat) (rest : list nat) : list nat :=
  match rest with
  | [] => []
  | vi :: rest' =>
      pet_start lines tags prev_vi vi :: pet_starts_from lines tags vi rest'
  end.

(** The final loop of [_azure_split_blob]: the lines from each start to the
    next, the last block running to line [n]. *)
Fixpoint blob_blocks_between (lines : list str) (starts : list nat) : list str :=
  match starts with
  | [] => []
  | s :: rest =>
      let stop := match rest with
                  | next :: _ => next
                  | [] => List.length lines
                  end in
      strip (join [nl] (sublist lines s stop)) :: blob_blocks_between lines rest
  end.

Definition _azure_split_blob (blob : str) : list str :=
  let lines := split_nl blob in
  let tags := map _azure_tag_line lines in
  match positions_of VERSUS 0 tags with
  | [] => if nonempty (strip blob) then [strip blob] else []
  | v0 :: vs =>
      let pet_starts := 0 :: pet_starts_from lines tags v0 vs in
      filter nonempty (blob_blocks_between lines pet_starts)
  end.

(** ** Azure: where a blob starts *)

Definition is_walk_stop (t : tag) : bool :=
  match t with
  | STRUCTURAL | IA | ADVOCATE | VERSUS => true
  | _ => false
  end.

(** [sum(len(l) + 1 for l in lines[:k])]. *)
Definition offset_of_line (lines : list str) (k : nat) : nat :=
  fold_right (fun l acc => List.length l + 1 + acc) 0 (firstn k lines).

(** The number of [STRUCTURAL] and [EMPTY] tags at the head of [ts]. *)
Fixpoint leading_structural (ts : list tag) : nat :=
  match ts with
  | STRUCTURAL :: ts' | EMPTY :: ts' => S (leading_structural ts')
  | _ => 0
  end.

(** The second forward loop of [_azure_find_blob_start], over the tags from
    line [j] on: the final [preamble_end]. *)
Fixpoint preamble_scan (ts : list tag) (j preamble_end : nat) : nat :=
  match ts with
  | [] => preamble_end
  | t :: ts' =>
      match t with
      | ADVOCATE | IA => preamble_scan ts' (S j) j
      | EMPTY => preamble_scan ts' (S j) preamble_end
      | _ => preamble_end
      end
  end.

Definition _azure_find_blob_start (text : str) : nat :=
  let lines := split_nl text in
  let tags := map _azure_tag_for_struct lines in
  match positions_of VERSUS 0 tags with
  | [] => List.length text
  | first_versus :: _ =>
      let pet_a :=
        match last_index is_walk_stop (firstn first_versus tags) with
        | Some i => S i + leading_empty (sublist tags (S i) first_versus)
        | None => 0
        end in
      let pos_a := offset_of_line lines pet_a in
      let struct_end := pred (leading_structural tags) in
      let preamble_end :=
        preamble_scan (skipn (S struct_end) tags) (S struct_end) struct_end in
      let pos_b :=
        if struct_end <? preamble_end
        then offset_of_line lines (S preamble_end)
        else 0 in
      Nat.max pos_a pos_b
  end.

(** ** Azure: redistributing blobs *)

(** [\bVersus\b] at a position. *)
Definition versus_word (prev : option ascii) (s : str) : option (nat * unit) :=
  match strip_prefix (lit "Versus") s with
  | Some r =>
      if negb (is_word_opt prev) && negb (is_word_opt (hd_error r))
      then Some (6, tt)
      else None
  | None => None
  end.

(** [len(re.findall("\bVersus\b", text))]. *)
Definition count_versus (text : str) : nat :=
  List.length (finditer versus_word text).

Definition is_stub (result : dict) (key : str) : bool :=
  count_versus (get_default result key) =? 0.

(** [sorted(keys, key=lambda k: float(k))]: [float] is applied to every key
    first and raises on one it cannot read; the keys are then put in the
    order of their floats, keys with equal floats staying in the order they
    came in.  The keys read are runs of digits, as every pipeline builds
    them ([py_float]); the statements about a sort that returns are about
    mappings with such keys. *)
Definition float_key (k : str) : N :=
  match py_float k with Some f => f | None => 0%N end.

Fixpoint insert_key (k : str) (sorted : list str) : list str :=
  match sorted with
  | [] => [k]
  | x :: rest =>
      if (float_key x <=? float_key k)%N then x :: insert_key k rest
      else k :: sorted
  end.

Definition sorted_by_float (ks : list str) : list str :=
  fold_left (fun acc k => insert_key k acc) ks [].

Definition sort_keys (ks : list str) : result (list str) :=
  if forallb (fun k => is_some (py_float k)) ks then Ok (sorted_by_float ks)
  else Raise FloatError.

(** [re.compile("(?=\n--- Connected )").split(text)] and the like: the text
    cut, with nothing removed, before every occurrence of [p]. *)
Fixpoint split_before (p : str) (s : str) : list str :=
  match s with
  | [] => [[]]
  | c :: s' =>
      let rest := cons_first c (split_before p s') in
      if startswith s p then [] :: rest else rest
  end.

(** [next(si for si in range(len(sections)-1, -1, -1)
          if count_versus(sections[si]) >= 2)]. *)
Definition blob_section_index (sections : list str) : option nat :=
  last_index (fun s => 2 <=? count_versus s) sections.

(** The new text of a stub: the block goes before the first connected
    marker of the stub's text, or at its end when it has none. *)
Definition insert_block (stub_text block : str) : str :=
  match find (nl :: lit "--- Connected") stub_text with
  | Some insert_at =>
      rstrip (firstn insert_at stub_text) ++ nl :: block
      ++ skipn insert_at stub_text
  | None => rstrip stub_text ++ nl :: block
  end.

(** The loop handing [blob_blocks[idx]] to the stub of the same index. *)
Fixpoint give_to_stubs (result : dict) (stub_run blob_blocks : list str) : dict :=
  match stub_run, blob_blocks with
  | stub_key :: stubs, block :: blocks =>
      let stub_text := get_default result stub_key in
      give_to_stubs (set result stub_key (insert_block stub_text block))
                    stubs blocks
  | _, _ => result
  end.

(** [l[i] = x] for [i] within the list. *)
Fixpoint replace_nth {A : Type} (l : list A) (i : nat) (x : A) : list A :=
  match l, i with
  | [], _ => []
  | _ :: l', 0 => x :: l'
  | y :: l', S i' => y :: replace_nth l' i' x
  end.

(** What one stub run followed by a blob owner does to [result]; [None] when
    the run is skipped (no section with two Versus, or an empty blob). *)
Definition redistribute_run (result : dict) (stub_run : list str)
                            (blob_owner_key : str) : option dict :=
  let blob_owner_text := get_default result blob_owner_key in
  let sections := split_before (nl :: lit "--- Connected ") blob_owner_text in
  match blob_section_index sections with
  | None => None
  | Some blob_section_idx =>
      let blob_section_text := nth blob_section_idx sections [] in
      let blob_start := _azure_find_blob_start blob_section_text in
      let structural_header := rstrip (firstn blob_start blob_section_text) in
      let blob := skipn blob_start blob_section_text in
      let blob_blocks := _azure_split_blob blob in
      match blob_blocks with
      | [] => None
      | _ :: _ =>
          let n_stubs := List.length stub_run in
          let result1 := give_to_stubs result stub_run blob_blocks in
          let owner_extra := skipn n_stubs blob_blocks in
          let new_section :=
            match owner_extra with
            | _ :: _ => strip (structural_header ++ nl :: join [nl] owner_extra)
            | [] => strip structural_header
            end in
          let sections' := replace_nth sections blob_section_idx new_section in
          Some (set result1 blob_owner_key
                    (join [nl]
                          (filter (fun s => nonempty (strip s)) sections')))
      end
  end.

(** The inner loop collecting a run of stubs from the head of [keys]. *)
Fixpoint take_stubs (result : dict) (keys : list str) : list str :=
  match keys with
  | k :: rest => if is_stub result k then k :: take_stubs result rest else []
  | [] => []
  end.

(** The main [while i < len(all_keys)] loop, run over the keys from [i] on;
    [skip] keys are passed over after a run set [i = j + 1]. *)
Fixpoint redistribute_loop (skip : nat) (keys : list str) (result : dict) : dict :=
  match keys with
  | [] => result
  | key :: rest =>
      match skip with
      | S k => redistribute_loop k rest result
      | 0 =>
          if negb (is_stub result key) then redistribute_loop 0 rest result
          else
            let stub_run := take_stubs result keys in
            match skipn (List.length stub_run) keys with
            | [] => result
            | blob_owner_key :: _ =>
                match redistribute_run result stub_run blob_owner_key with
                | Some result' =>
                    redistribute_loop (List.length stub_run) rest result'
                | None =>
                    redistribute_loop (List.length stub_run) rest result
                end
            end
      end
  end.

Definition _azure_redistribute_blobs (cases : dict) : result dict :=
  all_keys <- sort_keys (keys cases) ;;
  Ok (redistribute_loop 0 all_keys cases).

(** ** Azure: the segmenter *)

(** The pattern [\n*=== PAGE \d+ ===\n*] at the head of [s]. *)
Definition is_nl (c : ascii) : bool := ch_eqb c nl.

Definition page_marker (s : str) : option nat :=
  let (n1, r1) := span is_nl s in
  match strip_prefix (lit "=== PAGE ") r1 with
  | Some r2 =>
      let (ds, r3) := span is_digit r2 in
      match ds, strip_prefix (lit " ===") r3 with
      | _ :: _, Some r4 =>
          let (n2, _) := span is_nl r4 in
          Some (List.length n1 + 9 + List.length ds + 4 + List.length n2)
      | _, _ => None
      end
  | None => None
  end.

(** [re.sub(pattern, "\n", text)] for the page markers: the pieces between
    the matches joined by a newline. *)
Definition strip_page_markers (text : str) : str :=
  join [nl] (re_split page_marker text).

(** The classification of a block: its serial, if any, with the block. *)
Definition classify (block : str) : result (option (N * option N) * str) :=
  parsed <- _tesseract_parse_serial block ;;
  Ok (parsed, block).

Definition azure_blocks (text : str) : list str :=
  candidate_blocks (strip_page_markers text).

(** One turn of the stitching loop of [segment_cases_azure]. *)
Definition azure_step (st : dict * option str)
                      (c : option (N * option N) * str) : dict * option str :=
  let (cases, last_key) := st in
  let (serial, blk) := c in
  match serial with
  | None =>
      match last_key with
      | Some k =>
          if nonempty k then (append_value cases k (nl :: nl :: blk), last_key)
          else st
      | None => st
      end
  | Some (main, sub) =>
      let key := str_of_N main in
      match sub with
      | Some sub =>
          if mem cases key then
            (append_value cases key
                          (nl :: nl :: connected_marker main sub ++ nl :: blk),
             Some key)
          else
            (set cases key (connected_marker main sub ++ nl :: blk), Some key)
      | None =>
          if mem cases key then
            if startswith (get_default cases key) (lit "--- Connected") then
              (set cases key (blk ++ nl :: nl :: get_default cases key), Some key)
            else (append_value cases key (nl :: nl :: blk), Some key)
          else (set cases key blk, Some key)
      end
  end.

(** The mapping handed to the blob redistributor: every block is classified
    first, then the stitching loop runs over the classified blocks. *)
Definition azure_stitch (blocks : list str) : result dict :=
  classified <- map_result classify blocks ;;
  Ok (fst (fold_left azure_step classified ([], None))).

Definition segment_cases_azure (text : str) : result dict :=
  cases <- azure_stitch (azure_blocks text) ;;
  _azure_redistribute_blobs cases.

(** ** Paddle *)

(** The number [\d+(?:\.\d+)?] at the head of [s], with the rest. *)
Definition serial_number (s : str) : option (str * str) :=
  let (d, r) := span is_digit s in
  match d with
  | [] => None
  | _ :: _ =>
      match r with
      | c :: r' =>
          if ch_eqb c "."%char then
            let (ds, r'') := span is_digit r' in
            match ds with
            | [] => Some (d, r)
            | _ :: _ => Some (d ++ "."%char :: ds, r'')
            end
          else Some (d, r)
      | [] => Some (d, r)
      end
  end.

(** The index of the last newline of [ws], if it has one. *)
Fixpoint after_last_nl (ws : str) : option nat :=
  match ws with
  | [] => None
  | c :: ws' =>
      match after_last_nl ws' with
      | Some k => Some (S k)
      | None => if ch_eqb c nl then Some 0 else None
      end
  end.

(** The tail [(?:\s*$|\s*Connected\b)] of the serial pattern: the length
    matched.  In the first alternative the blanks are given back one by one
    until the position is the end of the text or stands before a newline. *)
Definition serial_tail (s : str) : option nat :=
  let (ws, r) := span is_space s in
  match r with
  | [] => Some (List.length ws)
  | _ :: _ =>
      match after_last_nl ws with
      | Some k => Some k
      | None =>
          match strip_prefix (lit "Connected") r with
          | Some r' =>
              if negb (is_word_opt (hd_error r'))
              then Some (List.length ws + 9)
              else None
          | None => None
          end
      end
  end.

(** [SERIAL_PATTERN] at a position: the length matched and group 1. *)
Definition SERIAL_PATTERN (prev : option ascii) (s : str) : option (nat * str) :=
  if at_bol prev then
    let (ws, r) := span is_space s in
    match serial_number r with
    | Some (serial, r') =>
        match serial_tail r' with
        | Some k => Some (List.length ws + List.length serial + k, serial)
        | None => None
        end
    | None => None
    end
  else None.

(** [CASE_TYPE_PATTERN] at a position: the length matched. *)
Definition digits_then (next : str -> option nat) (s : str) : option nat :=
  let (d, r) := span is_digit s in
  match d, next r with
  | _ :: _, Some k => Some (List.length d + k)
  | _, _ => None
  end.

Definition some_zero (s : str) : option nat := Some 0.

Definition slash_digits (s : str) : option nat :=
  match s with
  | c :: r =>
      if ch_eqb c "/"%char then option_map S (digits_then some_zero r) else None
  | [] => None
  end.

Definition CASE_TYPE_PATTERN (prev : option ascii) (s : str) : option (nat * unit) :=
  if at_bol prev then
    option_map (fun k => (k, tt))
      (first_some
         [ literal (lit "C.A. No.") s;
           literal (lit "SLP(C) No.") s;
           lit_ws_then (lit "MA") (digits_then slash_digits) s;
           literal (lit "Diary No.") s ])
  else None.

(** [f"--- Connected Case {serial} ---"]. *)
Definition connected_case_marker (serial : str) : str :=
  lit "--- Connected Case " ++ serial ++ lit " ---".

(** The serial and block of each match: [text[start:end].strip()] with [end]
    the start of the next match or the end of the text. *)
Fixpoint paddle_blocks (text : str) (matches : list (nat * nat * str))
  : list (str * str) :=
  match matches with
  | [] => []
  | (start, _, serial) :: rest =>
      let stop := match rest with
                  | (next, _, _) :: _ => next
                  | [] => List.length text
                  end in
      (serial, strip (slice text start stop)) :: paddle_blocks text rest
  end.

(** One turn of the loop of [segment_cases_paddle]. *)
Definition paddle_step (cases : dict) (sb : str * str) : dict :=
  let (serial, block) := sb in
  if contains (lit ".") serial then
    let parent_serial := before_dot serial in
    if mem cases parent_serial then
      append_value cases parent_serial
                   (nl :: nl :: connected_case_marker serial ++ nl :: block)
    else set cases parent_serial (connected_case_marker serial ++ nl :: block)
  else set cases serial block.

(** The mapping handed to the drift repair. *)
Definition paddle_initial (text : str) : dict :=
  fold_left paddle_step (paddle_blocks text (finditer SERIAL_PATTERN text)) [].

(** [start > len(parent_text) * 0.6].  The product is a float; for every
    length below 2^50 the comparison agrees with the one on integers. *)
Definition past_60_percent (start length : nat) : bool :=
  3 * length <? 5 * start.

(** The parent portion of a case text and the rest ([current_text[parent_end:]],
    empty when there is no connected-case marker). *)
Definition parent_portion (current_text : str) : str * str :=
  match find (nl :: nl :: lit "--- Connected Case") current_text with
  | Some parent_end => (firstn parent_end current_text, skipn parent_end current_text)
  | None => (current_text, [])
  end.

(** The start of the last case-type opener of the parent text. *)
Definition last_opener (parent_text : str) : option nat :=
  match finditer CASE_TYPE_PATTERN parent_text with
  | [] => None
  | m :: ms => Some (fst (fst (last ms m)))
  end.

(** One turn of the loop of [_repair_layout_drift]. *)
Definition drift_step (cases : dict) (current_serial next_serial : str) : dict :=
  let current_text := get_default cases current_serial in
  let (parent_text, connected) := parent_portion current_text in
  match last_opener parent_text with
  | None => cases
  | Some start =>
      if past_60_percent start (List.length parent_text) then
        let trailing := strip (skipn start parent_text) in
        let cases1 :=
          set cases current_serial (strip (firstn start parent_text) ++ connected) in
        set cases1 next_serial (trailing ++ nl :: get_default cases1 next_serial)
      else cases
  end.

(** The loop over the consecutive pairs of [serials]. *)
Fixpoint drift_loop (serials : list str) (cases : dict) : dict :=
  match serials with
  | current :: ((next :: _) as rest) =>
      drift_loop rest (drift_step cases current next)
  | _ => cases
  end.

Definition _repair_layout_drift (cases : dict) : result dict :=
  serials <- sort_keys (keys cases) ;;
  Ok (drift_loop serials cases).

Definition segment_cases_paddle (text : str) : result dict :=
  match finditer SERIAL_PATTERN text with
  | [] => Ok []
  | _ :: _ => _repair_layout_drift (paddle_initial text)
  end.

(** ** The dispatcher *)

Definition segment_cases (text selected_engine : str) : result dict :=
  if str_eqb selected_engine (lit "tesseract") then segment_cases_tesseract text
  else if str_eqb selected_engine (lit "azure") then segment_cases_azure text
  else if str_eqb selected_engine (lit "paddle") then segment_cases_paddle text
  else Raise (ValueError (lit "Unsupported OCR engine: " ++ selected_engine)).

(** ** Notions used in the statements *)

(** [s] is empty or starts with a character outside the class [p]. *)
Definition stops (p : ascii -> bool) (s : str) : Prop :=
  match s with
  | [] => True
  | c :: _ => p c = false
  end.

(** The shape of what [serial_token] returns. *)
Record token_ok (d : str) (sub : option str) : Prop := {
  tok_digits : forallb is_digit d = true;
  tok_len : 1 <= List.length d <= 3;
  tok_sub : forall ds, sub = Some ds -> ds <> [] /\ forallb is_digit ds = true
}.

(** Whether the text kept after the serial (group 5 of the match) still
    starts with an equals sign. *)
Definition eq_sign_left (line : str) : bool :=
  match noise_match line with
  | Some (_, _, g5) => startswith g5 (lit "=")
  | None => false
  end.

(** The gap-fill rule in the words of the specification: the serials strictly
    between the last inline serial and the smallest found main number, then
    the found numbers, then as many further serials counted up from the last
    one as the blocks still need, cut to the number of blocks. *)
Definition gap_fill (last_inline : N) (found : list str) (n_blocks : nat)
  : list str :=
  match found with
  | [] => map (fun i => str_of_N (last_inline + N.of_nat i)) (seq 1 n_blocks)
  | f :: fs =>
      let smallest := fold_right N.min (main_number f) (map main_number fs) in
      let between :=
        map str_of_N
            (filter (fun i => (last_inline <? i)%N && (i <? smallest)%N)
                    (map N.of_nat (seq 0 (N.to_nat smallest)))) in
      let inferred := between ++ found in
      let last_value := main_number (last found f) in
      let missing := n_blocks - List.length inferred in
      firstn n_blocks
        (inferred
         ++ map (fun i => str_of_N (last_value + N.of_nat i)) (seq 1 missing))
  end.

(** [p] occurs in [s] as a contiguous run of characters. *)
Definition infix (p s : str) : Prop := exists a b, s = a ++ p ++ b.

(** Every value of [d] is still there in [d'], possibly with text added in
    front of it or after it. *)
Definition grows (d d' : dict) : Prop :=
  forall k v, get d k = Some v ->
    exists a b, get d' k = Some (a ++ v ++ b).

(** A key in Python's canonical decimal form: [str] of a number, with no dot
    and no leading zero. *)
Definition canonical_key (k : str) : Prop :=
  exists n : N,
    k = str_of_N n /\ forallb is_digit k = true /\ k <> []
    /\ (hd_error k = Some "0"%char -> k = lit "0").

(** The keys of a mapping are distinct canonical decimals. *)
Definition keys_ok (d : dict) : Prop :=
  NoDup (keys d) /\ Forall canonical_key (keys d).

(** The value of [key] in [d] is still there in [d'], possibly with text
    added in front of it or after it. *)
Definition grows_at (key : str) (d d' : dict) : Prop :=
  forall v, get d key = Some v -> exists a b, get d' key = Some (a ++ v ++ b).

(** The value of [key] in [d] starts with [prefix]. *)
Definition value_starts (d : dict) (key prefix : str) : Prop :=
  exists rest, get d key = Some (prefix ++ rest).

(** The serial a block carries, with its numbers read whatever their
    length: what [_tesseract_parse_serial] returns wherever it returns. *)
Definition leading_serial (s : str) : option (N * option N) :=
  match _TESSERACT_LEADING_RE s with
  | Some (d, sub) => Some (int_of_digits d, option_map int_of_digits sub)
  | None => None
  end.

Definition serial_of (block : str) : option (N * option N) :=
  leading_serial (lstrip block).

(** The two loops as they run when no [int] raises: each block goes with
    the serial it carries. *)
Definition tesseract_turn (st : dict * option str) (block : str)
  : dict * option str :=
  tesseract_update st (serial_of block) block.

Definition tesseract_merged (blocks : list str) : dict :=
  fst (fold_left tesseract_turn blocks ([], None)).

Definition classified (block : str) : option (N * option N) * str :=
  (serial_of block, block).

Definition azure_stitched (blocks : list str) : dict :=
  fst (fold_left azure_step (map classified blocks) ([], None)).

(** The stitching loop of [segment_cases_azure] run on from a state. *)
Definition azure_run (blocks : list str) (st : dict * option str)
  : dict * option str :=
  fold_left azure_step (map classified blocks) st.

(** A block whose sub-serial has more digits than [int] converts. *)
Definition long_sub (block : str) : bool :=
  match _TESSERACT_LEADING_RE (lstrip block) with
  | Some (_, Some ds) => int_max_str_digits <? List.length ds
  | _ => false
  end.

(** A match reported [d] characters further on. *)
Definition shift_match {A : Type} (d : nat) (m : nat * nat * A) : nat * nat * A :=
  let '(p, l, a) := m in (d + p, l, a).


From Stdlib Require Import ZArith.

(** ** Notions used in the further properties *)

(** The first piece of the serial-boundary split: the text up to the first
    position the split cuts at. *)
Fixpoint head_piece (bol : bool) (s : str) : str :=
  match s with
  | [] => []
  | c :: s' =>
      if (bol || ch_eqb c nl) && serial_boundary s then []
      else c :: head_piece (ch_eqb c nl) s'
  end.

(** Whether a block starts with a serial: whether [_TESSERACT_LEADING_RE]
    matches it, blanks at its start apart. *)
Definition parses (block : str) : bool :=
  is_some (_TESSERACT_LEADING_RE (lstrip block)).

(** A key the Tesseract and Azure pipelines can write: the decimal form of a
    number below 1000. *)
Definition serial_key (k : str) : Prop :=
  exists n : N, (n < 1000)%N /\ k = str_of_N n.

(** A non-empty run of decimal digits. *)
Definition digit_key (k : str) : Prop :=
  k <> [] /\ forallb is_digit k = true.

(** The characters of a decimal numeral, and one step of reading a number
    from its digits. *)
Definition digits_of (u : Decimal.uint) : str :=
  list_ascii_of_string (DecimalString.NilEmpty.string_of_uint u).

Definition int_step (acc : N) (c : ascii) : N := (10 * acc + digit_val c)%N.

(** Whether drift repair moves text out of a case: the last case-type
    opener of its parent portion starts past 60% of that portion. *)
Definition drifted (current_text : str) : bool :=
  let parent_text := fst (parent_portion current_text) in
  match last_opener parent_text with
  | Some start => past_60_percent start (List.length parent_text)
  | None => false
  end.

(** Matches listed in order, each at least one character long and within a
    text of length [len], none starting before the one before it ends. *)
Fixpoint spaced {A : Type} (len lo : nat) (ms : list (nat * nat * A)) : Prop :=
  match ms with
  | [] => True
  | (p, l, _) :: rest =>
      lo <= p /\ 1 <= l /\ p + l <= len /\ spaced len (p + l) rest
  end.

(** Whether a text starts with a case-type opener. *)
Definition opens_case (b : str) : bool := is_some (case_type_opener b).

(** Line numbers listed in increasing order from [lo] on, each the number
    of a line of [lines] that [_azure_tag_line] tags as a Versus line. *)
Fixpoint versus_at (lines : list str) (lo : nat) (vs : list nat) : Prop :=
  match vs with
  | [] => True
  | v :: vs' =>
      lo <= v /\ v < List.length lines
      /\ _azure_tag_line (nth v lines []) = VERSUS
      /\ versus_at lines (S v) vs'
  end.

(** Whether every connected sub-case block of [blocks] comes after a parent
    block of its main serial; [seen] lists the keys parent blocks have
    written so far.  The serial of a block is the one its leading pattern
    matches, whatever the length of its numbers. *)
Fixpoint parents_first (seen : list str) (blocks : list str) : bool :=
  match blocks with
  | [] => true
  | b :: rest =>
      match serial_of b with
      | None => parents_first seen rest
      | Some (main, Some _) =>
          existsb (str_eqb (str_of_N main)) seen && parents_first seen rest
      | Some (main, None) => parents_first (str_of_N main :: seen) rest
      end
  end.

(** A text that starts with a blank or a digit, as every block with a
    serial does. *)
Definition head_ok (v : str) : Prop :=
  exists c r, v = c :: r /\ (is_space c = true \/ is_digit c = true).

(** ** The extractor factory ([backend/ocr/factory.py]) *)

Inductive extractor_class : Type :=
| AzureDocumentIntelligenceExtractor
| PaddleOCRExtractor
| TesseractExtractor.

(** A dictionary with string keys and values of any type. *)
Fixpoint lookup {V : Type} (d : list (str * V)) (k : str) : option V :=
  match d with
  | [] => None
  | (k', v) :: d' => if str_eqb k k' then Some v else lookup d' k
  end.

(** The [engines] dictionary of [get_extractor]. *)
Definition engines : list (str * extractor_class) :=
  [ (lit "azure", AzureDocumentIntelligenceExtractor);
    (lit "paddle", PaddleOCRExtractor);
    (lit "tesseract", TesseractExtractor) ].

(** [get_extractor].  [new] stands for calling the class that was looked
    up, which builds the extractor or raises. *)
Definition get_extractor {E : Type} (new : extractor_class -> result E)
                         (engine_name : str) : result E :=
  match lookup engines engine_name with
  | None =>
      Raise (ValueError (lit "Unknown engine: '" ++ engine_name
                         ++ lit "'. Supported engines: "
                         ++ join (lit ", ") (map fst engines)))
  | Some cls => new cls
  end.

(** ** The case endpoint ([backend/main.py]) *)

(** The decimal form of an integer. *)
Definition str_of_Z (z : Z) : str :=
  match z with
  | Zneg p => "-"%char :: str_of_N (Npos p)
  | _ => str_of_N (Z.to_N z)
  end.

(** [str(n)] for an integer: CPython raises [ValueError] when the number
    has more than 4300 digits. *)
Definition str_int (z : Z) : result str :=
  if int_max_str_digits <? List.length (str_of_N (Z.abs_N z))
  then Raise IntError
  else Ok (str_of_Z z).

(** The blanks [int] skips around a literal. *)
Definition is_int_space (c : ascii) : bool :=
  Py.between 9 13 c || (code c =? 32)%N || (code c =? 133)%N || (code c =? 160)%N.

(** Digits in groups separated by single underscores. *)
Fixpoint int_body (s : str) (after_digit : bool) : bool :=
  match s with
  | [] => after_digit
  | c :: r =>
      if is_digit c then int_body r true
      else if ch_eqb c "_"%char then after_digit && int_body r false
      else false
  end.

(** [int(s)] on any string; [None] when it raises [ValueError]: on a
    malformed literal, and on one with more than 4300 digits (the digits are
    counted, not the blanks, the sign or the underscores). *)
Definition int_of_str (s : str) : option Z :=
  let t := rev (snd (span is_int_space (rev (snd (span is_int_space s))))) in
  let (negative, body) :=
    match t with
    | c :: r =>
        if ch_eqb c "-"%char then (true, r)
        else if ch_eqb c "+"%char then (false, r)
        else (false, t)
    | [] => (false, t)
    end in
  if int_body body false then
    if int_max_str_digits <? List.length (filter is_digit body) then None
    else
      let v := Z.of_N (int_of_digits (filter is_digit body)) in
      Some (if negative then (- v)%Z else v)
  else None.

(** [sorted(keys, key=lambda x: int(x))]: a stable sort by value, raising
    when [int] does on one of the keys. *)
Fixpoint insert_by_int (k : str) (v : Z) (sorted : list (str * Z))
  : list (str * Z) :=
  match sorted with
  | [] => [(k, v)]
  | (k', v') :: rest =>
      if (v' <=? v)%Z then (k', v') :: insert_by_int k v rest
      else (k, v) :: sorted
  end.

Fixpoint sorted_by_int_go (ks : list str) (acc : list (str * Z))
  : result (list str) :=
  match ks with
  | [] => Ok (map fst acc)
  | k :: rest =>
      match int_of_str k with
      | Some v => sorted_by_int_go rest (insert_by_int k v acc)
      | None => Raise IntError
      end
  end.

Definition sorted_by_int (ks : list str) : result (list str) :=
  sorted_by_int_go ks [].

(** An entry of the module's [cache]. *)
Record cache_entry : Type := {
  entry_cases : dict;
  entry_engine : str;
  entry_pages : nat;
  entry_raw_text : str
}.

(** The two globals of the module. *)
Record server : Type := {
  cache : list (str * cache_entry);
  current_file_hash : option str
}.

Record CaseResponse : Type := { sno : Z; content : str }.

(** What a request handler does: return a value, raise [HTTPException], or
    let another exception escape. *)
Inductive response (A : Type) : Type :=
| Respond (a : A)
| HTTPException (status_code : nat) (detail : str)
| Uncaught (e : exn).

Arguments Respond {A} a.
Arguments HTTPException {A} status_code detail.
Arguments Uncaught {A} e.

Definition get_case (s : server) (sno : Z) : response CaseResponse :=
  match current_file_hash s with
  | None => HTTPException 404 (lit "No document has been processed yet.")
  | Some h =>
      match lookup (cache s) h with
      | None => HTTPException 404 (lit "No document has been processed yet.")
      | Some entry =>
          let cases := entry_cases entry in
          match str_int sno with
          | Raise e => Uncaught e
          | Ok key =>
              match get cases key with
              | Some text => Respond {| sno := sno; content := text |}
              | None =>
                  match sorted_by_int (keys cases) with
                  | Ok available =>
                      HTTPException 404
                        (lit "No case found with serial number " ++ key
                         ++ lit ". Available: " ++ join (lit ", ") available)
                  | Raise e => Uncaught e
                  end
              end
          end
      end
  end.

(** Line numbers listed in order from [lo] on, each at most [n]. *)
Fixpoint increasing_to (n lo : nat) (starts : list nat) : Prop :=
  match starts with
  | [] => True
  | s :: rest => lo <= s /\ s <= n /\ increasing_to n s rest
  end.

(** The number of Versus occurrences over all the cases of a mapping. *)
Definition total_versus (d : dict) : nat :=
  list_sum (map (fun kv => count_versus (snd kv)) d).

(** ** The Azure extractor ([backend/ocr/azure_extractor.py]) *)

Definition BATCH_SIZE : nat := 2.

(** [range(start, stop, step)] for a positive [step]. *)
Definition range_step (start stop step : nat) : list nat :=
  map (fun i => start + step * i) (seq 0 ((stop - start + step - 1) / step)).

(** [min(max_pages, total_pages) if max_pages > 0 else total_pages]. *)
Definition last_page (max_pages : Z) (total_pages : nat) : nat :=
  if (0 <? max_pages)%Z then Nat.min (Z.to_nat max_pages) total_pages
  else total_pages.

(** The list [batches] of [extract]: first and last page of each request. *)
Definition batches (last_page : nat) : list (nat * nat) :=
  map (fun start => (start, Nat.min (start + BATCH_SIZE - 1) last_page))
      (range_step 1 (last_page + 1) BATCH_SIZE).

(** The pages a batch asks for. *)
Definition requested_pages (b : nat * nat) : list nat :=
  seq (fst b) (snd b + 1 - fst b).

(** [sorted(page_texts, key=lambda x: x[0])]: a stable sort by page number. *)
Fixpoint insert_page (p : N * str) (sorted : list (N * str)) : list (N * str) :=
  match sorted with
  | [] => [p]
  | q :: rest =>
      if (fst q <=? fst p)%N then q :: insert_page p rest else p :: sorted
  end.

Definition sort_pages (page_texts : list (N * str)) : list (N * str) :=
  fold_left (fun acc p => insert_page p acc) page_texts [].

(** The header [extract] writes before the text of a page. *)
Definition page_header (page_num : N) : str :=
  nl :: nl :: lit "=== PAGE " ++ str_of_N page_num ++ lit " ===" ++ [nl].

(** What [extract] returns for the page texts it collected: headers and
    texts in page order, joined by newlines. *)
Definition parts (sorted_pages : list (N * str)) : list str :=
  List.concat (map (fun p => [page_header (fst p); snd p]) sorted_pages).

Definition extract_result (page_texts : list (N * str)) : str :=
  join [nl] (parts (sort_pages page_texts)).

(** A text without the newlines at its start, at its end, at both ends. *)
Definition lstrip_nl (s : str) : str := snd (span is_nl s).

Definition rstrip_nl (s : str) : str := rev (lstrip_nl (rev s)).

Definition strip_nl (s : str) : str := rstrip_nl (lstrip_nl s).

(** The page texts as they are left when the page markers are taken out of
    what the extractor returned: each without the newlines at its ends, the
    last one keeping those at its end. *)
Fixpoint page_pieces (pages : list (N * str)) : list str :=
  match pages with
  | [] => []
  | [p] => [lstrip_nl (snd p)]
  | p :: rest => strip_nl (snd p) :: page_pieces rest
  end.

(** What follows the header line of the first page in the extractor's
    result, from the end of the marker on. *)
Fixpoint after_header (pages : list (N * str)) : str :=
  match pages with
  | [] => []
  | [p] => nl :: nl :: snd p
  | p :: ((q :: _) as rest) =>
      nl :: nl :: snd p ++ nl :: nl :: nl
      :: lit "=== PAGE " ++ str_of_N (fst q) ++ lit " ===" ++ after_header rest
  end.

(** Prepend a text to the first piece of a split. *)
Definition app_first (w : str) (ps : list str) : list str :=
  match ps with
  | p :: ps' => (w ++ p) :: ps'
  | [] => [w]
  end.


(** ** Fragments of party text *)

(** The characters of a text that are not blank, in order. *)
Definition non_blank (s : str) : str := filter (fun c => negb (is_space c)) s.

(** The line [_looks_like_party] looks at: the first line of the stripped
    text, stripped. *)
Definition party_line (text : str) : str := strip (first_line (strip text)).

(** ** Shapes of a mapping with a blob *)







(** * Properties *)

Example normalize_eq_sign :
  _normalize_ocr_noise (lit "14 =C.A. No. 2560/2020") = (lit "14 C.A. No. 2560/2020").
Proof. reflexivity. Qed.

Example normalize_trailing_dot :
  _normalize_ocr_noise (lit "15. SLP(C) No. 11727/2020") = (lit "15 SLP(C) No. 11727/2020").
Proof. reflexivity. Qed.

(** ** Facts about the string primitives *)

Section SpanFacts.

Variable p : ascii -> bool.

Lemma span_app (s : str) : fst (span p s) ++ snd (span p s) = s.
Proof.
  induction s as [|c s IH]; simpl; [reflexivity|].
  destruct (p c); [|reflexivity].
  destruct (span p s) as [a b]; simpl in *. now rewrite IH.
Qed.

Lemma span_fst_all (s : str) : forallb p (fst (span p s)) = true.
Proof.
  induction s as [|c s IH]; simpl; [reflexivity|].
  destruct (p c) eqn:E; [|reflexivity].
  destruct (span p s) as [a b]; simpl in *. now rewrite E, IH.
Qed.

Lemma span_snd_stops (s : str) : stops p (snd (span p s)).
Proof.
  induction s as [|c s IH]; simpl; [exact I|].
  destruct (p c) eqn:E; [|exact E].
  destruct (span p s) as [a b]; simpl in *. exact IH.
Qed.

Lemma span_exact (a b : str) :
  forallb p a = true -> stops p b -> span p (a ++ b) = (a, b).
Proof.
  induction a as [|c a IH]; simpl; intros Ha Hb.
  - destruct b as [|c b]; [reflexivity|]. simpl in *. now rewrite Hb.
  - apply andb_true_iff in Ha as [Hc Ha]. now rewrite Hc, IH.
Qed.

Lemma span_stops_id (s : str) : stops p s -> span p s = ([], s).
Proof. intros H. exact (span_exact [] s eq_refl H). Qed.

Lemma span_all (s : str) : forallb p s = true -> span p s = (s, []).
Proof.
  intros H. rewrite <- (List.app_nil_r s) at 1. now apply span_exact.
Qed.

Lemma span_length (s : str) :
  List.length (fst (span p s)) + List.length (snd (span p s)) = List.length s.
Proof. rewrite <- length_app, span_app. reflexivity. Qed.

End SpanFacts.

Lemma digit_not_space (c : ascii) : is_digit c = true -> is_space c = false.
Proof.
  destruct c as [[] [] [] [] [] [] [] []]; vm_compute; congruence.
Qed.

Lemma space_not_digit (c : ascii) : is_space c = true -> is_digit c = false.
Proof.
  destruct c as [[] [] [] [] [] [] [] []]; vm_compute; congruence.
Qed.

Lemma nl_is_space (c : ascii) : not_nl c = false -> is_space c = true.
Proof.
  destruct c as [[] [] [] [] [] [] [] []]; vm_compute; congruence.
Qed.

Lemma lstrip_stops (s : str) : stops is_space (lstrip s).
Proof. apply span_snd_stops. Qed.

Lemma lstrip_id (s : str) : stops is_space s -> lstrip s = s.
Proof. intros H. unfold lstrip. now rewrite span_stops_id. Qed.

Lemma lstrip_length (s : str) : List.length (lstrip s) <= List.length s.
Proof. unfold lstrip. pose proof (span_length is_space s). lia. Qed.

Lemma serial_token_ok (s d r : str) (sub : option str) :
  serial_token s = Some (d, r, sub) ->
  token_ok d sub /\ s = token_text d sub ++ r.
Proof.
  unfold serial_token.
  pose proof (span_fst_all is_digit s) as Hd.
  pose proof (span_app is_digit s) as Hs.
  destruct (span is_digit s) as [d0 r0]; cbn [fst snd] in *.
  destruct ((1 <=? List.length d0) && (List.length d0 <=? 3)) eqn:E; [|discriminate].
  apply andb_true_iff in E as [E1 E2].
  apply Nat.leb_le in E1, E2.
  assert (base : token_ok d0 None)
    by (split; [assumption | lia | intros ds H; discriminate H]).
  destruct r0 as [|c r0]; cbv iota.
  { intros [= <- <- <-]. split; [exact base|]. now rewrite <- Hs. }
  destruct (ch_eqb c "."%char) eqn:Ec.
  - apply Ascii.eqb_eq in Ec. subst c.
    pose proof (span_fst_all is_digit r0) as Hd2.
    pose proof (span_app is_digit r0) as Hs2.
    destruct (span is_digit r0) as [ds r1]; cbn [fst snd] in *.
    destruct ds as [|x ds].
    + intros [= <- <- <-]. split; [exact base|]. now rewrite <- Hs.
    + intros [= <- <- <-]. split.
      * split; [assumption | lia |].
        intros ds' [= <-]. split; [discriminate | exact Hd2].
      * simpl. rewrite <- Hs, <- Hs2. simpl.
        now rewrite <- app_assoc.
  - intros [= <- <- <-]. split; [exact base | now rewrite <- Hs].
Qed.

(** Reading a token back when a blank follows it. *)
Lemma serial_token_text (d : str) (sub : option str) (r : str) :
  token_ok d sub ->
  serial_token (token_text d sub ++ " "%char :: r) = Some (d, " "%char :: r, sub).
Proof.
  intros [Hd Hl Hsub].
  assert (Hlen : (1 <=? List.length d) && (List.length d <=? 3) = true)
    by (apply andb_true_iff; split; apply Nat.leb_le; lia).
  unfold serial_token, token_text.
  destruct sub as [ds|].
  - destruct (Hsub ds eq_refl) as [Hne Hds].
    rewrite <- app_assoc, <- app_comm_cons.
    rewrite (span_exact is_digit d ("."%char :: ds ++ " "%char :: r) Hd eq_refl).
    rewrite Hlen.
    change (ch_eqb "." ".") with true. cbv iota.
    rewrite (span_exact is_digit ds (" "%char :: r) Hds eq_refl).
    destruct ds; [contradiction|reflexivity].
  - rewrite (span_exact is_digit d (" "%char :: r) Hd eq_refl).
    rewrite Hlen. reflexivity.
Qed.

(** *** The noise normaliser run twice *)

Lemma noise_match_shape (line g1 g2 g5 : str) :
  noise_match line = Some (g1, g2, g5) ->
  exists d sub,
    g2 = token_text d sub /\ token_ok d sub /\
    forallb is_space g1 = true /\
    forallb not_nl g5 = true /\ stops is_space g5.
Proof.
  unfold noise_match.
  pose proof (span_fst_all is_space line) as Hg1.
  destruct (span is_space line) as [a r1]; cbn [fst snd] in *.
  destruct (serial_token r1) as [[[d r2] sub]|] eqn:Et; [|discriminate].
  destruct (span is_space (opt_char "." r2)) as [ws r4].
  destruct ws as [|w ws]; [discriminate|].
  intros [= <- <- <-].
  apply serial_token_ok in Et as [Hok _].
  exists d, sub.
  split; [reflexivity|]. split; [exact Hok|]. split; [exact Hg1|]. split.
  - apply span_fst_all.
  - pose proof (lstrip_stops (opt_char "=" r4)) as Hst.
    destruct (lstrip (opt_char "=" r4)) as [|c r]; [exact I|].
    simpl in *. destruct (not_nl c) eqn:Ec.
    + destruct (span not_nl r); exact Hst.
    + exact I.
Qed.

(** What a second run does to a line the first run rewrote. *)
Lemma noise_match_again (g1 d g5 : str) (sub : option str) :
  token_ok d sub -> forallb is_space g1 = true -> stops is_space g5 ->
  noise_match (g1 ++ token_text d sub ++ " "%char :: g5)
  = Some (g1, token_text d sub,
          fst (span not_nl (lstrip (opt_char "="%char g5)))).
Proof.
  intros Hok Hg1 Hg5. unfold noise_match.
  assert (Hstop : stops is_space (token_text d sub ++ " "%char :: g5)).
  { destruct Hok as [Hd Hl _]. unfold token_text.
    destruct d as [|c d]; [simpl in Hl; lia|].
    simpl in Hd. apply andb_true_iff in Hd as [Hc _].
    destruct sub; simpl; now apply digit_not_space. }
  rewrite (span_exact is_space g1 _ Hg1 Hstop).
  rewrite (serial_token_text d sub g5 Hok).
  change (opt_char "." (" "%char :: g5)) with (" "%char :: g5).
  change (span is_space (" "%char :: g5))
    with (let (a, b) := span is_space g5 in (" "%char :: a, b)).
  rewrite (span_stops_id is_space g5 Hg5). reflexivity.
Qed.

Lemma span_fst_length (p : ascii -> bool) (s : str) :
  List.length (fst (span p s)) <= List.length s.
Proof. pose proof (span_length p s). lia. Qed.

Lemma ch_eqb_sym (a b : ascii) : ch_eqb a b = ch_eqb b a.
Proof. apply Ascii.eqb_sym. Qed.

Lemma ch_eqb_eq (a b : ascii) : ch_eqb a b = true <-> a = b.
Proof. apply Ascii.eqb_eq. Qed.

Lemma ch_eqb_refl (a : ascii) : ch_eqb a a = true.
Proof. apply Ascii.eqb_refl. Qed.

Lemma startswith_char (c x : ascii) (s : str) :
  startswith (c :: s) [x] = ch_eqb x c.
Proof. unfold startswith. simpl. now destruct (ch_eqb x c). Qed.

(** C8, counterexample: a line with two equals signs after its serial loses
    one of them at each run, so the second run changes the text again. *)
Lemma normalize_twice_differs :
  _normalize_ocr_noise (_normalize_ocr_noise (lit "14 = = foo"))
  <> _normalize_ocr_noise (lit "14 = = foo").
Proof. vm_compute. discriminate. Qed.

(** C8, amended: running the noise normaliser on its own output gives the
    same text exactly when the text the first run kept after the serial does
    not start with an equals sign; lines the pattern does not match are left
    alone by both runs. *)
Theorem normalize_idempotent_iff (line : str) :
  _normalize_ocr_noise (_normalize_ocr_noise line) = _normalize_ocr_noise line
  <-> eq_sign_left line = false.
Proof.
  unfold eq_sign_left, _normalize_ocr_noise at 2 3.
  destruct (noise_match line) as [[[g1 g2] g5]|] eqn:Em.
  2:{ unfold _normalize_ocr_noise. rewrite Em. tauto. }
  destruct (noise_match_shape _ _ _ _ Em) as (d & sub & -> & Hok & Hg1 & Hnl & Hst).
  unfold _normalize_ocr_noise.
  rewrite (noise_match_again g1 d g5 sub Hok Hg1 Hst).
  destruct g5 as [|c g5]; [simpl; tauto|].
  change (lit "=") with ["="%char]. rewrite startswith_char.
  unfold opt_char. rewrite (ch_eqb_sym c).
  destruct (ch_eqb "=" c) eqn:Ec.
  - split; [|discriminate]. intros H. exfalso.
    apply app_inv_head in H. apply app_inv_head in H.
    injection H as H. apply (f_equal (@List.length ascii)) in H.
    pose proof (span_fst_length not_nl (lstrip g5)).
    pose proof (lstrip_length g5). simpl in H. lia.
  - split; [reflexivity|]. intros _.
    rewrite (lstrip_id _ Hst), (span_all not_nl _ Hnl). reflexivity.
Qed.

(** C8, witness: a line with a trailing dot after its serial and no equals
    sign is left alone by the second run. *)
Lemma normalize_idempotent_iff_witness :
  _normalize_ocr_noise (_normalize_ocr_noise (lit "15. SLP(C) No. 11727/2020"))
  = _normalize_ocr_noise (lit "15. SLP(C) No. 11727/2020").
Proof.
  apply (proj2 (normalize_idempotent_iff (lit "15. SLP(C) No. 11727/2020"))).
  reflexivity.
Defined.

(** *** Serial inference *)

Lemma digit_not_dot (c : ascii) : is_digit c = true -> not_dot c = true.
Proof.
  destruct c as [[] [] [] [] [] [] [] []]; vm_compute; congruence.
Qed.

Lemma forallb_impl (p q : ascii -> bool) (s : str) :
  (forall c, p c = true -> q c = true) ->
  forallb p s = true -> forallb q s = true.
Proof.
  intros Hpq. induction s as [|c s IH]; simpl; [reflexivity|].
  intros H. apply andb_true_iff in H as [Hc Hs].
  now rewrite (Hpq c Hc), IH.
Qed.

Lemma before_dot_token (d : str) (sub : option str) :
  forallb is_digit d = true -> before_dot (token_text d sub) = d.
Proof.
  intros Hd. unfold before_dot, token_text.
  assert (Hn : forallb not_dot d = true)
    by (apply (forallb_impl is_digit); [apply digit_not_dot | exact Hd]).
  destruct sub as [ds|].
  - now rewrite (span_exact not_dot d ("."%char :: ds) Hn eq_refl).
  - now rewrite (span_all not_dot d Hn).
Qed.

Lemma main_of_serial_text (s : str) :
  is_serial_text s = true -> main_of s = Some (main_number s).
Proof.
  unfold is_serial_text.
  destruct (serial_token s) as [[[d r] sub]|] eqn:E; [|discriminate].
  destruct r; [|discriminate]. intros _.
  apply serial_token_ok in E as [[Hd Hl _] ->].
  unfold main_of, main_number. rewrite app_nil_r, before_dot_token by exact Hd.
  unfold py_int. rewrite Hd.
  assert (Hlen : (List.length d <=? int_max_str_digits) = true)
    by (apply Nat.leb_le; unfold int_max_str_digits; lia).
  rewrite Hlen. destruct d; [simpl in Hl; lia | reflexivity].
Qed.

Lemma mains_of_serial_texts (found : list str) :
  forallb is_serial_text found = true ->
  mains_of found = Some (map main_number found).
Proof.
  induction found as [|s found IH]; simpl; [reflexivity|].
  intros H. apply andb_true_iff in H as [Hs Hf].
  now rewrite (main_of_serial_text s Hs), (IH Hf).
Qed.

Lemma min_list_fold_right (m : N) (ms : list N) :
  min_list m ms = fold_right N.min m ms.
Proof.
  unfold min_list. apply fold_symmetric.
  - intros x y z. apply N.min_assoc.
  - intros y. apply N.min_comm.
Qed.

(** [range(a + 1, b)] lists the numbers strictly between [a] and [b]. *)
Lemma filter_between_nat (a b k : nat) :
  filter (fun i => (a <? i) && (i <? b)) (seq k (b - k))
  = seq (Nat.max k (S a)) (b - Nat.max k (S a)).
Proof.
  remember (b - k) as n eqn:En. revert k En.
  induction n as [|n IH]; intros k En.
  - simpl. replace (b - Nat.max k (S a)) with 0 by lia. reflexivity.
  - cbn [seq filter]. rewrite (IH (S k)) by lia.
    destruct (a <? k) eqn:E1; cbn [andb].
    + apply Nat.ltb_lt in E1.
      replace (k <? b) with true by (symmetry; apply Nat.ltb_lt; lia).
      replace (Nat.max k (S a)) with k by lia.
      replace (Nat.max (S k) (S a)) with (S k) by lia.
      replace (b - k) with (S (b - S k)) by lia. reflexivity.
    + apply Nat.ltb_ge in E1.
      replace (Nat.max (S k) (S a)) with (Nat.max k (S a)) by lia.
      reflexivity.
Qed.

Lemma str_range_between (a b : N) :
  str_range (a + 1) b
  = map str_of_N
      (filter (fun i => (a <? i)%N && (i <? b)%N)
              (map N.of_nat (seq 0 (N.to_nat b)))).
Proof.
  unfold str_range.
  assert (Hf : forall l,
             filter (fun i => (a <? i)%N && (i <? b)%N) (map N.of_nat l)
             = map N.of_nat
                 (filter (fun j => (N.to_nat a <? j) && (j <? N.to_nat b)) l)).
  { intros l. induction l as [|x l IH]; simpl; [reflexivity|].
    rewrite IH.
    replace ((a <? N.of_nat x)%N) with (N.to_nat a <? x)
      by (destruct (N.ltb_spec a (N.of_nat x)), (Nat.ltb_spec (N.to_nat a) x);
          try reflexivity; lia).
    replace ((N.of_nat x <? b)%N) with (x <? N.to_nat b)
      by (destruct (N.ltb_spec (N.of_nat x) b), (Nat.ltb_spec x (N.to_nat b));
          try reflexivity; lia).
    now destruct ((N.to_nat a <? x) && (x <? N.to_nat b)). }
  rewrite Hf.
  replace (seq 0 (N.to_nat b)) with (seq 0 (N.to_nat b - 0))
    by (f_equal; lia).
  rewrite filter_between_nat, !map_map.
  replace (Nat.max 0 (S (N.to_nat a))) with (S (N.to_nat a) + 0) by lia.
  replace (N.to_nat (b - (a + 1))) with (N.to_nat b - (S (N.to_nat a) + 0)) by lia.
  generalize (N.to_nat b - (S (N.to_nat a) + 0)). intros n.
  assert (Hs : forall k,
             map (fun i => str_of_N (a + 1 + N.of_nat i)) (seq k n)
             = map (fun x => str_of_N (N.of_nat x)) (seq (S (N.to_nat a) + k) n)).
  { induction n as [|n IH]; intros k; cbn [seq map]; [reflexivity|].
    f_equal; [f_equal; lia|].
    rewrite (IH (S k)). do 2 f_equal. lia. }
  apply Hs.
Qed.

Lemma extend_loop_closed (fuel n : nat) (last_main : N) (complete : list str) :
  n - List.length complete <= fuel ->
  extend_loop fuel n last_main complete
  = complete
    ++ map (fun i => str_of_N (last_main + N.of_nat i))
           (seq 1 (n - List.length complete)).
Proof.
  revert last_main complete.
  induction fuel as [|fuel IH]; intros last_main complete Hf; cbn [extend_loop].
  - replace (n - List.length complete) with 0 by lia.
    now rewrite app_nil_r.
  - destruct (Nat.ltb_spec (List.length complete) n) as [Hlt|Hge].
    + rewrite IH by (rewrite length_app; simpl; lia).
      rewrite length_app, <- app_assoc. cbn [List.length app]. f_equal.
      replace (n - List.length complete)
        with (S (n - (List.length complete + 1))) by lia.
      cbn [seq map]. f_equal.
      rewrite <- (seq_shift _ 1), map_map. apply map_ext. intros i. f_equal. lia.
    + replace (n - List.length complete) with 0 by lia.
      now rewrite app_nil_r.
Qed.

Lemma last_default {A : Type} (l : list A) (x y : A) :
  l <> [] -> last l x = last l y.
Proof.
  induction l as [|a l IH]; [congruence|]. intros _.
  destruct l as [|b l]; [reflexivity|].
  change (last (b :: l) x = last (b :: l) y). apply IH. discriminate.
Qed.

Lemma last_In {A : Type} (l : list A) (x : A) : l <> [] -> In (last l x) l.
Proof.
  induction l as [|a l IH]; [congruence|]. intros _.
  destruct l as [|b l]; [now left|].
  right. change (In (last (b :: l) x) (b :: l)). apply IH. discriminate.
Qed.

Lemma last_app_cons (gap : list str) (f : str) (fs : list str) :
  last (gap ++ f :: fs) [] = last (f :: fs) f.
Proof.
  induction gap as [|g gap IH].
  - apply last_default. discriminate.
  - simpl app. rewrite <- IH.
    destruct (gap ++ f :: fs) eqn:E; [|reflexivity].
    destruct gap; discriminate.
Qed.

(** C4: on bare serials, [_infer_serials] returns what the gap-fill rule
    says: without found numbers the serials after the last inline one, one
    per block; otherwise the serials strictly between the last inline serial
    and the smallest found main number, then the found numbers, then serials
    counted up from the last of them until every block has one, cut to the
    number of blocks.  For last inline serial 7, found 10 and 11, and four
    blocks this is 8, 9, 10, 11. *)
Theorem infer_serials_gap_fill :
  (forall (prev_inline : option N) (found : list str) (n_blocks : nat),
      forallb is_serial_text found = true ->
      _infer_serials prev_inline found n_blocks
      = Some (gap_fill (or_zero prev_inline) found n_blocks))
  /\ _infer_serials (Some 7%N) [lit "10"; lit "11"] 4
     = Some [lit "8"; lit "9"; lit "10"; lit "11"].
Proof.
  split; [|reflexivity].
  intros prev found n Hf. unfold _infer_serials, gap_fill.
  destruct found as [|f fs].
  - f_equal. unfold str_range.
    replace (N.to_nat (or_zero prev + 1 + N.of_nat n - (or_zero prev + 1)))
      with n by lia.
    rewrite <- (seq_shift _ 0), map_map. apply map_ext. intros i. f_equal. lia.
  - rewrite (mains_of_serial_texts _ Hf). cbn [map].
    rewrite min_list_fold_right.
    set (smallest := fold_right N.min (main_number f) (map main_number fs)).
    rewrite str_range_between.
    set (between := map str_of_N _).
    assert (Hlast : main_of (last (between ++ f :: fs) [])
                    = Some (main_number (last (f :: fs) f))).
    { rewrite last_app_cons. apply main_of_serial_text.
      rewrite forallb_forall in Hf. apply Hf.
      apply last_In. discriminate. }
    destruct (between ++ f :: fs) as [|c cs] eqn:Ec.
    { destruct between; discriminate. }
    rewrite Hlast. f_equal.
    rewrite extend_loop_closed by lia. reflexivity.
Qed.

(** C4, witness: the rule applied to found serials 10 and 11 after inline
    serial 7 with four blocks. *)
Lemma infer_serials_gap_fill_witness :
  forallb is_serial_text [lit "10"; lit "11"] = true
  /\ _infer_serials (Some 7%N) [lit "10"; lit "11"] 4
     = Some (gap_fill 7 [lit "10"; lit "11"] 4).
Proof.
  split; [reflexivity|].
  apply (proj1 infer_serials_gap_fill (Some 7%N)). reflexivity.
Defined.

(** *** Dictionaries *)

Lemma str_eqb_eq (a b : str) : str_eqb a b = true <-> a = b.
Proof.
  revert b. induction a as [|x a IH]; intros [|y b]; simpl; split;
    try congruence; try reflexivity.
  - intros H. apply andb_true_iff in H as [Hx Ha].
    apply ch_eqb_eq in Hx. apply IH in Ha. congruence.
  - intros [= -> ->]. rewrite ch_eqb_refl. now apply IH.
Qed.

Lemma str_eqb_refl (a : str) : str_eqb a a = true.
Proof. now apply str_eqb_eq. Qed.

Lemma str_eqb_neq (a b : str) : str_eqb a b = false <-> a <> b.
Proof.
  destruct (str_eqb a b) eqn:E.
  - apply str_eqb_eq in E. split; congruence.
  - split; [|reflexivity]. intros _ H. apply str_eqb_eq in H. congruence.
Qed.

Lemma get_set_same (d : dict) (k v : str) : get (set d k v) k = Some v.
Proof.
  induction d as [|[k' v'] d IH]; simpl.
  - now rewrite str_eqb_refl.
  - destruct (str_eqb k k') eqn:E; simpl; rewrite E; [reflexivity|exact IH].
Qed.

Lemma get_set_other (d : dict) (k k' v : str) :
  k' <> k -> get (set d k v) k' = get d k'.
Proof.
  intros Hne. induction d as [|[k0 v0] d IH]; simpl.
  - apply str_eqb_neq in Hne. now rewrite Hne.
  - destruct (str_eqb k k0) eqn:E; simpl.
    + apply str_eqb_eq in E. subst k0.
      apply str_eqb_neq in Hne. now rewrite Hne.
    + now rewrite IH.
Qed.

Lemma get_In (d : dict) (k v : str) : get d k = Some v -> In k (keys d).
Proof.
  induction d as [|[k' v'] d IH]; simpl; [discriminate|].
  destruct (str_eqb k k') eqn:E.
  - apply str_eqb_eq in E. now left.
  - intros H. right. now apply IH.
Qed.

Lemma In_get (d : dict) (k : str) : In k (keys d) -> exists v, get d k = Some v.
Proof.
  induction d as [|[k' v'] d IH]; simpl; [contradiction|].
  destruct (str_eqb k k') eqn:E; [now eexists|].
  intros [H|H]; [|now apply IH].
  subst k'. now rewrite str_eqb_refl in E.
Qed.

Lemma keys_set (d : dict) (k v : str) :
  keys (set d k v) = if mem d k then keys d else keys d ++ [k].
Proof.
  unfold mem. induction d as [|[k' v'] d IH]; simpl; [reflexivity|].
  destruct (str_eqb k k') eqn:E; simpl; [reflexivity|].
  rewrite IH. now destruct (get d k).
Qed.

Lemma In_keys_set (d : dict) (k v k' : str) :
  In k' (keys (set d k v)) -> k' = k \/ In k' (keys d).
Proof.
  rewrite keys_set. destruct (mem d k); [now right|].
  rewrite in_app_iff. simpl. intuition.
Qed.

Lemma NoDup_keys_set (d : dict) (k v : str) :
  NoDup (keys d) -> NoDup (keys (set d k v)).
Proof.
  intros Hd. rewrite keys_set. unfold mem.
  destruct (get d k) eqn:E; [exact Hd|].
  apply NoDup_app; [exact Hd | repeat constructor; intros [] | ].
  intros x Hx [<-|[]].
  apply In_get in Hx as [v' Hv]. congruence.
Qed.

Lemma keys_append_value (d : dict) (k s : str) :
  keys (append_value d k s) = keys d.
Proof.
  unfold append_value. destruct (get d k) eqn:E; [|reflexivity].
  rewrite keys_set. unfold mem. now rewrite E.
Qed.

(** *** Growth of values *)

Lemma grows_refl (d : dict) : grows d d.
Proof.
  intros k v H. exists [], []. now rewrite app_nil_r.
Qed.

Lemma grows_trans (d1 d2 d3 : dict) : grows d1 d2 -> grows d2 d3 -> grows d1 d3.
Proof.
  intros H12 H23 k v H.
  destruct (H12 k v H) as (a & b & H2).
  destruct (H23 k _ H2) as (a' & b' & H3).
  exists (a' ++ a), (b ++ b'). rewrite H3. now rewrite !app_assoc.
Qed.

(** Assigning to a key its old value with text around it. *)
Lemma grows_set (d : dict) (k a b : str) :
  grows d (set d k (a ++ get_default d k ++ b)).
Proof.
  intros k' v H.
  destruct (str_eqb k' k) eqn:E.
  - apply str_eqb_eq in E. subst k'. exists a, b.
    rewrite get_set_same. unfold get_default. now rewrite H.
  - apply str_eqb_neq in E. exists [], [].
    rewrite get_set_other by exact E. now rewrite app_nil_r.
Qed.

Lemma grows_append_value (d : dict) (k s : str) : grows d (append_value d k s).
Proof.
  unfold append_value. destruct (get d k) eqn:E; [|apply grows_refl].
  replace (set d k (s0 ++ s)) with (set d k ([] ++ get_default d k ++ s))
    by (unfold get_default; now rewrite E).
  apply grows_set.
Qed.

Lemma infix_grows (d d' : dict) (k p v : str) :
  grows d d' -> get d k = Some v -> infix p v ->
  exists v', get d' k = Some v' /\ infix p v'.
Proof.
  intros Hg Hv (x & y & ->).
  destruct (Hg k _ Hv) as (a & b & H').
  eexists. split; [exact H'|].
  exists (a ++ x), (y ++ b). now rewrite !app_assoc.
Qed.

(** *** Decimal keys *)

Lemma string_of_uint_digits (d : Decimal.uint) :
  forallb is_digit
    (list_ascii_of_string (DecimalString.NilEmpty.string_of_uint d)) = true.
Proof. induction d; simpl; try reflexivity; exact IHd. Qed.

Lemma to_uint_normal (n : N) : Decimal.unorm (N.to_uint n) = N.to_uint n.
Proof.
  rewrite <- (DecimalN.Unsigned.to_of (N.to_uint n)).
  now rewrite DecimalN.Unsigned.of_to.
Qed.

Lemma str_of_N_digits (n : N) : forallb is_digit (str_of_N n) = true.
Proof. apply string_of_uint_digits. Qed.

Lemma str_of_N_nonempty (n : N) : str_of_N n <> [].
Proof.
  unfold str_of_N. pose proof (to_uint_normal n) as Hn.
  pose proof (DecimalFacts.unorm_nonnil (N.to_uint n)) as Hnn.
  rewrite Hn in Hnn. destruct (N.to_uint n); simpl; congruence.
Qed.

Lemma str_of_N_leading_zero (n : N) :
  hd_error (str_of_N n) = Some "0"%char -> str_of_N n = lit "0".
Proof.
  unfold str_of_N. pose proof (to_uint_normal n) as Hn.
  destruct (N.to_uint n) as [|u|u|u|u|u|u|u|u|u|u]; simpl; try discriminate.
  intros _. rewrite DecimalFacts.unorm_D0 in Hn.
  unfold Decimal.unorm in Hn.
  pose proof (DecimalFacts.nzhead_nonzero u) as Hz.
  destruct (Decimal.nzhead u) eqn:E;
    try (exfalso; injection Hn as Hn; discriminate Hn);
    try (exfalso; discriminate Hn).
  - injection Hn as <-. reflexivity.
  - exfalso. exact (Hz _ eq_refl).
Qed.

Lemma str_of_N_canonical (n : N) : canonical_key (str_of_N n).
Proof.
  exists n. split; [reflexivity|]. split; [apply str_of_N_digits|].
  split; [apply str_of_N_nonempty | apply str_of_N_leading_zero].
Qed.

Lemma str_of_N_nonempty_b (n : N) : nonempty (str_of_N n) = true.
Proof.
  pose proof (str_of_N_nonempty n). now destruct (str_of_N n).
Qed.

(** *** Numbers too long for [int] *)

Lemma leading_serial_eq (s : str) :
  leading_serial s
  = match serial_token s with
    | Some (d, r, sub) =>
        let (ws, r') := span is_space r in
        if nonempty ws && (negb (starts_no r') || (2 <=? List.length ws))
        then Some (int_of_digits d, option_map int_of_digits sub)
        else None
    | None => None
    end.
Proof.
  unfold leading_serial, _TESSERACT_LEADING_RE.
  destruct (serial_token s) as [[[d r] sub]|]; [|reflexivity].
  destruct (span is_space r) as [ws r'].
  now destruct (nonempty ws && _).
Qed.

Lemma py_int_run (s : str) :
  s <> [] -> forallb is_digit s = true ->
  py_int s = if List.length s <=? int_max_str_digits
             then Some (int_of_digits s) else None.
Proof.
  intros Hne Hd. unfold py_int. rewrite Hd.
  destruct s; [contradiction | reflexivity].
Qed.

Lemma int_main (d : str) (sub : option str) :
  token_ok d sub -> int d = Ok (int_of_digits d).
Proof.
  intros [Hd Hl _]. unfold int. rewrite py_int_run.
  - assert (H : (List.length d <=? int_max_str_digits) = true)
      by (apply Nat.leb_le; unfold int_max_str_digits; lia).
    now rewrite H.
  - intros ->. simpl in Hl. lia.
  - exact Hd.
Qed.

Lemma int_sub (d ds : str) :
  token_ok d (Some ds) ->
  int ds = if int_max_str_digits <? List.length ds then Raise IntError
           else Ok (int_of_digits ds).
Proof.
  intros [_ _ Hsub]. destruct (Hsub ds eq_refl) as [Hne Hd].
  unfold int. rewrite py_int_run by assumption.
  destruct (Nat.leb_spec (List.length ds) int_max_str_digits) as [H|H].
  - apply Nat.ltb_ge in H. now rewrite H.
  - apply Nat.ltb_lt in H. now rewrite H.
Qed.

Lemma leading_re_ok (s d : str) (sub : option str) :
  _TESSERACT_LEADING_RE s = Some (d, sub) -> token_ok d sub.
Proof.
  unfold _TESSERACT_LEADING_RE.
  destruct (serial_token s) as [[[d0 r] sub0]|] eqn:E; [|discriminate].
  apply serial_token_ok in E as [Hok _].
  destruct (span is_space r) as [ws r'].
  destruct (nonempty ws && _); [|discriminate]. now intros [= <- <-].
Qed.

(** [_tesseract_parse_serial] raises exactly on a block whose sub-serial has
    more than 4300 digits, and otherwise returns the serial of the block. *)
Lemma parse_serial_cases (block : str) :
  _tesseract_parse_serial block
  = if long_sub block then Raise IntError else Ok (serial_of block).
Proof.
  unfold _tesseract_parse_serial, long_sub, serial_of, leading_serial.
  destruct (_TESSERACT_LEADING_RE (lstrip block)) as [[d sub]|] eqn:E;
    [|reflexivity].
  pose proof (leading_re_ok _ _ _ E) as Hok.
  rewrite (int_main d sub Hok). cbn [bind].
  destruct sub as [ds|]; [|reflexivity].
  unfold int_opt. rewrite (int_sub d ds Hok).
  now destruct (int_max_str_digits <? List.length ds).
Qed.

Lemma parse_serial_Ok (block : str) (v : option (N * option N)) :
  _tesseract_parse_serial block = Ok v -> serial_of block = v.
Proof.
  rewrite parse_serial_cases. destruct (long_sub block); [discriminate|].
  now intros [= <-].
Qed.

Lemma parse_serial_Raise (block : str) (e : exn) :
  _tesseract_parse_serial block = Raise e -> e = IntError /\ long_sub block = true.
Proof.
  rewrite parse_serial_cases. destruct (long_sub block); [|discriminate].
  now intros [= <-].
Qed.

Lemma long_sub_serial (block : str) :
  long_sub block = true -> exists m s, serial_of block = Some (m, Some s).
Proof.
  unfold long_sub, serial_of, leading_serial.
  destruct (_TESSERACT_LEADING_RE (lstrip block)) as [[d [ds|]]|];
    try discriminate.
  intros _. now eexists _, _.
Qed.

Lemma parse_serial_None (block : str) :
  serial_of block = None -> _tesseract_parse_serial block = Ok None.
Proof.
  intros H. rewrite parse_serial_cases.
  destruct (long_sub block) eqn:E; [|now rewrite H].
  destruct (long_sub_serial block E) as (m & s & Hs). congruence.
Qed.

Lemma parse_serial_main (block : str) (m : N) :
  serial_of block = Some (m, None) ->
  _tesseract_parse_serial block = Ok (Some (m, None)).
Proof.
  intros H. rewrite parse_serial_cases.
  destruct (long_sub block) eqn:E; [|now rewrite H].
  destruct (long_sub_serial block E) as (m' & s & Hs). congruence.
Qed.

(** The loops raise exactly when one of the blocks has such a sub-serial,
    and otherwise run as if [int] had no limit. *)
Lemma tesseract_fold_cases (blocks : list str) :
  forall st,
    fold_result tesseract_step blocks st
    = if existsb long_sub blocks then Raise IntError
      else Ok (fold_left tesseract_turn blocks st).
Proof.
  induction blocks as [|b blocks IH]; intros st; [reflexivity|].
  cbn [fold_result existsb fold_left]. unfold tesseract_step at 1.
  rewrite parse_serial_cases.
  destruct (long_sub b); [reflexivity|]. cbn [bind orb]. apply IH.
Qed.

Lemma tesseract_merge_cases (blocks : list str) :
  tesseract_merge blocks
  = if existsb long_sub blocks then Raise IntError
    else Ok (tesseract_merged blocks).
Proof.
  unfold tesseract_merge, tesseract_merged. rewrite tesseract_fold_cases.
  now destruct (existsb long_sub blocks).
Qed.

Lemma classify_all_cases (blocks : list str) :
  map_result classify blocks
  = if existsb long_sub blocks then Raise IntError
    else Ok (map classified blocks).
Proof.
  induction blocks as [|b blocks IH]; [reflexivity|].
  cbn [map_result existsb map]. unfold classify at 1.
  rewrite parse_serial_cases.
  destruct (long_sub b); [reflexivity|]. cbn [bind orb]. rewrite IH.
  now destruct (existsb long_sub blocks).
Qed.

Lemma azure_stitch_cases (blocks : list str) :
  azure_stitch blocks
  = if existsb long_sub blocks then Raise IntError
    else Ok (azure_stitched blocks).
Proof.
  unfold azure_stitch, azure_stitched. rewrite classify_all_cases.
  now destruct (existsb long_sub blocks).
Qed.

Lemma tesseract_merge_Ok (blocks : list str) (cases : dict) :
  tesseract_merge blocks = Ok cases ->
  cases = tesseract_merged blocks /\ existsb long_sub blocks = false.
Proof.
  rewrite tesseract_merge_cases.
  destruct (existsb long_sub blocks); [discriminate|]. now intros [= <-].
Qed.

Lemma azure_stitch_Ok (blocks : list str) (cases : dict) :
  azure_stitch blocks = Ok cases ->
  cases = azure_stitched blocks /\ existsb long_sub blocks = false.
Proof.
  rewrite azure_stitch_cases.
  destruct (existsb long_sub blocks); [discriminate|]. now intros [= <-].
Qed.

Lemma no_long_sub_prefix (a b : list str) :
  existsb long_sub (a ++ b) = false ->
  existsb long_sub a = false /\ existsb long_sub b = false.
Proof. rewrite existsb_app. apply orb_false_iff. Qed.

Lemma all_parse_not_long (blocks : list str) :
  (forall b, In b blocks -> exists p, _tesseract_parse_serial b = Ok p) ->
  existsb long_sub blocks = false.
Proof.
  intros H. destruct (existsb long_sub blocks) eqn:E; [|reflexivity].
  apply existsb_exists in E as (b & Hin & Hl).
  destruct (H b Hin) as (p & Hp).
  rewrite parse_serial_cases, Hl in Hp. discriminate.
Qed.

Lemma orphans_not_long (blocks : list str) :
  (forall b, In b blocks -> serial_of b = None) ->
  existsb long_sub blocks = false.
Proof.
  intros H. destruct (existsb long_sub blocks) eqn:E; [|reflexivity].
  apply existsb_exists in E as (b & Hin & Hl).
  destruct (long_sub_serial b Hl) as (m & s & Hs).
  rewrite (H b Hin) in Hs. discriminate.
Qed.

(** *** The stitching loops of the Tesseract and Azure pipelines *)

Lemma tesseract_step_orphan_start (block : str) :
  serial_of block = None ->
  tesseract_turn ([], None) block = ([], None).
Proof. intros H. unfold tesseract_turn, tesseract_update. now rewrite H. Qed.

Lemma azure_step_orphan_start (block : str) :
  serial_of block = None ->
  azure_step ([], None) (classified block) = ([], None).
Proof. intros H. unfold azure_step, classified. now rewrite H. Qed.

Lemma tesseract_fold_orphans (orphans : list str) :
  (forall b, In b orphans -> serial_of b = None) ->
  fold_left tesseract_turn orphans ([], None) = ([], None).
Proof.
  induction orphans as [|b bs IH]; intros H; [reflexivity|].
  cbn [fold_left]. rewrite tesseract_step_orphan_start by (apply H; now left).
  apply IH. intros b' Hb'. apply H. now right.
Qed.

Lemma azure_fold_orphans (orphans : list str) :
  (forall b, In b orphans -> serial_of b = None) ->
  fold_left azure_step (map classified orphans) ([], None) = ([], None).
Proof.
  induction orphans as [|b bs IH]; intros H; [reflexivity|].
  cbn [fold_left map]. rewrite azure_step_orphan_start by (apply H; now left).
  apply IH. intros b' Hb'. apply H. now right.
Qed.

Lemma tesseract_step_grows (st : dict * option str) (block : str) :
  grows (fst st) (fst (tesseract_turn st block)).
Proof.
  destruct st as [cases last_key]. unfold tesseract_turn, tesseract_update.
  destruct (serial_of block) as [[main [sub|]]|]; cbn [fst].
  - apply (grows_set cases (str_of_N main) []).
  - apply (grows_set cases (str_of_N main) []).
  - destruct last_key as [k|]; [|apply grows_refl].
    destruct (nonempty k); [apply grows_append_value | apply grows_refl].
Qed.

Lemma azure_step_grows (st : dict * option str)
      (c : option (N * option N) * str) :
  grows (fst st) (fst (azure_step st c)).
Proof.
  destruct st as [cases last_key]. destruct c as [serial blk].
  unfold azure_step.
  destruct serial as [[main [sub|]]|]; cbn [fst].
  - unfold mem. destruct (get cases (str_of_N main)) eqn:E; cbn [fst].
    + apply grows_append_value.
    + intros k v H. exists [], []. rewrite app_nil_r. cbn [app].
      rewrite get_set_other; [exact H|]. intros ->. congruence.
  - unfold mem. destruct (get cases (str_of_N main)) eqn:E; cbn [fst].
    + destruct (startswith _ _); cbn [fst].
      * replace (blk ++ nl :: nl :: get_default cases (str_of_N main))
          with ((blk ++ [nl; nl]) ++ get_default cases (str_of_N main) ++ [])
          by (rewrite app_nil_r, <- app_assoc; reflexivity).
        apply grows_set.
      * apply grows_append_value.
    + intros k v H. exists [], []. rewrite app_nil_r. cbn [app].
      rewrite get_set_other; [exact H|]. intros ->. congruence.
  - destruct last_key as [k|]; [|apply grows_refl].
    destruct (nonempty k); [apply grows_append_value | apply grows_refl].
Qed.

Lemma fold_grows {B : Type} (step : dict * option str -> B -> dict * option str)
      (l : list B) (st : dict * option str) :
  (forall st b, grows (fst st) (fst (step st b))) ->
  grows (fst st) (fst (fold_left step l st)).
Proof.
  intros Hstep. revert st. induction l as [|b l IH]; intros st; simpl.
  - apply grows_refl.
  - eapply grows_trans; [apply Hstep | apply IH].
Qed.

(** *** The dispatcher *)

(** C9: [segment_cases] returns the result of the Tesseract, Azure or Paddle
    pipeline for exactly the identifiers "tesseract", "azure" and "paddle";
    for every other identifier it raises [ValueError] and returns no mapping. *)
Theorem segment_cases_dispatch (text engine : str) :
  (engine = lit "tesseract" ->
   segment_cases text engine = segment_cases_tesseract text)
  /\ (engine = lit "azure" ->
      segment_cases text engine = segment_cases_azure text)
  /\ (engine = lit "paddle" ->
      segment_cases text engine = segment_cases_paddle text)
  /\ (engine <> lit "tesseract" -> engine <> lit "azure" ->
      engine <> lit "paddle" ->
      segment_cases text engine
      = Raise (ValueError (lit "Unsupported OCR engine: " ++ engine))
      /\ forall cases, segment_cases text engine <> Ok cases).
Proof.
  unfold segment_cases. split; [|split; [|split]].
  - intros ->. reflexivity.
  - intros ->. reflexivity.
  - intros ->. reflexivity.
  - intros Ht Ha Hp. apply str_eqb_neq in Ht, Ha, Hp.
    rewrite Ht, Ha, Hp. split; [reflexivity | discriminate].
Qed.

(** C9, witness: an identifier that is none of the three. *)
Lemma segment_cases_dispatch_witness :
  segment_cases (lit "1 C.A. No. 5/2020") (lit "easyocr")
  = Raise (ValueError (lit "Unsupported OCR engine: easyocr")).
Proof.
  apply (proj2 (proj2 (proj2
           (segment_cases_dispatch (lit "1 C.A. No. 5/2020") (lit "easyocr")))));
    discriminate.
Defined.

(** *** Scanning a text from its first match *)

Section ScanFacts.

Context {A : Type} (m : option ascii -> str -> option (nat * A)).

Lemma scan_shift (s : str) :
  forall skip prev pos d,
    scan m skip prev (d + pos) s = map (shift_match d) (scan m skip prev pos s).
Proof.
  induction s as [|c s IH]; intros skip prev pos d; [reflexivity|].
  cbn [scan]. destruct skip as [|k].
  - destruct (m prev (c :: s)) as [[[|k] a]|].
    + rewrite <- IH. f_equal. lia.
    + cbn [map shift_match]. f_equal. rewrite <- IH. f_equal. lia.
    + rewrite <- IH. f_equal. lia.
  - rewrite <- IH. f_equal. lia.
Qed.

(** The pattern looks behind only to see a line start, which the start of
    the text is too. *)
Hypothesis at_start : forall prev s x, m prev s = Some x -> m None s = Some x.

Lemma scan_from_first (s : str) :
  forall prev pos start l a ms,
    scan m 0 prev pos s = (start, l, a) :: ms ->
    pos <= start /\ start - pos <= List.length s
    /\ scan m 0 prev pos s
       = map (shift_match start) (scan m 0 None 0 (skipn (start - pos) s)).
Proof.
  induction s as [|c s IH]; intros prev pos start l a ms H; [discriminate|].
  cbn [scan] in H |- *.
  destruct (m prev (c :: s)) as [[[|k] a']|] eqn:Em.
  - apply IH in H as (H1 & H2 & H3).
    split; [lia|]. split; [simpl; lia|].
    rewrite H3. replace (start - pos) with (S (start - S pos)) by lia.
    reflexivity.
  - injection H as <- <- <- <-.
    split; [lia|]. split; [simpl; lia|].
    rewrite Nat.sub_diag. cbn [skipn scan].
    rewrite (at_start _ _ _ Em). cbn [map shift_match].
    rewrite Nat.add_0_r. f_equal.
    rewrite <- scan_shift. f_equal. lia.
  - apply IH in H as (H1 & H2 & H3).
    split; [lia|]. split; [simpl; lia|].
    rewrite H3. replace (start - pos) with (S (start - S pos)) by lia.
    reflexivity.
Qed.

Lemma finditer_from_first (text : str) (start l : nat) (a : A)
      (ms : list (nat * nat * A)) :
  finditer m text = (start, l, a) :: ms ->
  start <= List.length text
  /\ finditer m text
     = map (shift_match start) (finditer m (skipn start text)).
Proof.
  unfold finditer. intros H.
  apply scan_from_first in H as (_ & H2 & H3).
  rewrite Nat.sub_0_r in H2, H3. split; assumption.
Qed.

End ScanFacts.

Lemma SERIAL_PATTERN_at_start (prev : option ascii) (s : str) (x : nat * str) :
  SERIAL_PATTERN prev s = Some x -> SERIAL_PATTERN None s = Some x.
Proof.
  unfold SERIAL_PATTERN. destruct (at_bol prev); [|discriminate].
  intros H. exact H.
Qed.

Lemma slice_skipn (text : str) (start p q : nat) :
  slice text (start + p) (start + q) = slice (skipn start text) p q.
Proof.
  unfold slice. rewrite skipn_skipn.
  replace (start + q - (start + p)) with (q - p) by lia.
  now rewrite (Nat.add_comm p start).
Qed.

Lemma paddle_blocks_shift (text : str) (start : nat)
      (ms : list (nat * nat * str)) :
  start <= List.length text ->
  paddle_blocks text (map (shift_match start) ms)
  = paddle_blocks (skipn start text) ms.
Proof.
  intros Hle. induction ms as [|[[p l] serial] ms IH]; [reflexivity|].
  cbn [map shift_match paddle_blocks]. rewrite IH. f_equal. f_equal. f_equal.
  destruct ms as [|[[p' l'] serial'] ms].
  - cbn [map]. rewrite length_skipn.
    replace (List.length text) with (start + (List.length text - start)) at 1
      by lia.
    apply slice_skipn.
  - cbn [map shift_match]. apply slice_skipn.
Qed.

(** The Paddle pipeline sees nothing of the text before its first match. *)
Lemma paddle_from_first_match (text : str) (start l : nat) (serial : str)
      (ms : list (nat * nat * str)) :
  finditer SERIAL_PATTERN text = (start, l, serial) :: ms ->
  segment_cases_paddle text = segment_cases_paddle (skipn start text).
Proof.
  intros H.
  destruct (finditer_from_first SERIAL_PATTERN SERIAL_PATTERN_at_start
              text start l serial ms H) as [Hle Heq].
  unfold segment_cases_paddle, paddle_initial.
  rewrite Heq.
  destruct (finditer SERIAL_PATTERN (skipn start text)) as [|x xs] eqn:E.
  - rewrite H in Heq. discriminate.
  - rewrite paddle_blocks_shift by exact Hle. reflexivity.
Qed.

(** *** Texts without serials, and content before the first serial *)

Lemma redistribute_empty : _azure_redistribute_blobs [] = Ok [].
Proof. reflexivity. Qed.

Lemma parsed_None (blocks : list str) :
  (forall b, In b blocks -> _tesseract_parse_serial b = Ok None) ->
  forall b, In b blocks -> serial_of b = None.
Proof. intros H b Hb. now apply parse_serial_Ok, H. Qed.

Lemma tesseract_merge_orphans (orphans rest : list str) :
  (forall b, In b orphans -> _tesseract_parse_serial b = Ok None) ->
  tesseract_merge (orphans ++ rest) = tesseract_merge rest.
Proof.
  intros Hnone. pose proof (parsed_None orphans Hnone) as Hp.
  rewrite !tesseract_merge_cases, existsb_app, (orphans_not_long orphans Hp).
  cbn [orb]. unfold tesseract_merged.
  now rewrite fold_left_app, tesseract_fold_orphans.
Qed.

Lemma azure_stitch_orphans (orphans rest : list str) :
  (forall b, In b orphans -> _tesseract_parse_serial b = Ok None) ->
  azure_stitch (orphans ++ rest) = azure_stitch rest.
Proof.
  intros Hnone. pose proof (parsed_None orphans Hnone) as Hp.
  rewrite !azure_stitch_cases, existsb_app, (orphans_not_long orphans Hp).
  cbn [orb]. unfold azure_stitched.
  now rewrite map_app, fold_left_app, azure_fold_orphans.
Qed.

(** C10: what comes before the first serial is dropped.  In the Tesseract
    and Azure pipelines the candidate blocks without a serial that come
    before every block with one leave the result as if they were not there;
    in the Paddle pipeline the result is that of the text from the start of
    the first match of the serial pattern. *)
Theorem leading_content_discarded :
  (forall text orphans rest,
      tesseract_blocks text = Ok (orphans ++ rest) ->
      (forall b, In b orphans -> _tesseract_parse_serial b = Ok None) ->
      segment_cases_tesseract text = tesseract_merge rest)
  /\ (forall text orphans rest,
         azure_blocks text = orphans ++ rest ->
         (forall b, In b orphans -> _tesseract_parse_serial b = Ok None) ->
         segment_cases_azure text
         = (cases <- azure_stitch rest ;; _azure_redistribute_blobs cases))
  /\ (forall text start l serial ms,
         finditer SERIAL_PATTERN text = (start, l, serial) :: ms ->
         segment_cases_paddle text = segment_cases_paddle (skipn start text)).
Proof.
  split; [|split].
  - intros text orphans rest Hb Hnone. unfold segment_cases_tesseract.
    rewrite Hb. cbn [bind]. now apply tesseract_merge_orphans.
  - intros text orphans rest Hb Hnone. unfold segment_cases_azure.
    now rewrite Hb, azure_stitch_orphans.
  - exact paddle_from_first_match.
Qed.

(** C10, witness: a heading before the first case, through each pipeline. *)
Lemma leading_content_discarded_witness :
  segment_cases_tesseract
    (lit "CAUSE LIST" ++ nl :: lit "1 C.A. No. 5/2020")
  = Ok [(lit "1", lit "1 C.A. No. 5/2020")]
  /\ segment_cases_azure
       (lit "CAUSE LIST" ++ nl :: lit "1 C.A. No. 5/2020")
     = Ok [(lit "1", lit "1 C.A. No. 5/2020")]
  /\ segment_cases_paddle (lit "CAUSE LIST" ++ nl :: lit "1" ++ nl :: lit "C.A.")
     = Ok [(lit "1", lit "1" ++ nl :: lit "C.A.")].
Proof.
  destruct leading_content_discarded as (HT & HA & HP).
  split; [|split].
  - rewrite (HT _ [lit "CAUSE LIST"] [lit "1 C.A. No. 5/2020"]).
    + reflexivity.
    + reflexivity.
    + intros b [<-|[]]. reflexivity.
  - rewrite (HA _ [lit "CAUSE LIST"] [lit "1 C.A. No. 5/2020"]).
    + reflexivity.
    + reflexivity.
    + intros b [<-|[]]. reflexivity.
  - rewrite (HP _ 11 1 (lit "1") []); reflexivity.
Defined.

(** *** The keys of the mappings *)

Lemma keys_ok_set (d : dict) (n : N) (v : str) :
  keys_ok d -> keys_ok (set d (str_of_N n) v).
Proof.
  intros [Hnd Hc]. split; [now apply NoDup_keys_set|].
  rewrite keys_set. destruct (mem d (str_of_N n)); [exact Hc|].
  apply Forall_app. split; [exact Hc|].
  constructor; [apply str_of_N_canonical | constructor].
Qed.

Lemma keys_ok_append_value (d : dict) (k s : str) :
  keys_ok d -> keys_ok (append_value d k s).
Proof. unfold keys_ok. now rewrite keys_append_value. Qed.

Lemma tesseract_step_keys_ok (st : dict * option str) (block : str) :
  keys_ok (fst st) -> keys_ok (fst (tesseract_turn st block)).
Proof.
  destruct st as [cases last_key]. unfold tesseract_turn, tesseract_update. cbn [fst]. intros H.
  destruct (serial_of block) as [[main [sub|]]|]; cbn [fst].
  - now apply keys_ok_set.
  - now apply keys_ok_set.
  - destruct last_key as [k|]; [|exact H].
    destruct (nonempty k); [now apply keys_ok_append_value | exact H].
Qed.

Lemma azure_step_keys_ok (st : dict * option str)
      (c : option (N * option N) * str) :
  keys_ok (fst st) -> keys_ok (fst (azure_step st c)).
Proof.
  destruct st as [cases last_key]. destruct c as [serial blk].
  unfold azure_step. cbn [fst]. intros H.
  destruct serial as [[main [sub|]]|]; cbn [fst].
  - destruct (mem cases (str_of_N main)); cbn [fst];
      [now apply keys_ok_append_value | now apply keys_ok_set].
  - destruct (mem cases (str_of_N main)); cbn [fst];
      [|now apply keys_ok_set].
    destruct (startswith _ _); cbn [fst];
      [now apply keys_ok_set | now apply keys_ok_append_value].
  - destruct last_key as [k|]; [|exact H].
    destruct (nonempty k); [now apply keys_ok_append_value | exact H].
Qed.

Lemma fold_keys_ok {B : Type} (step : dict * option str -> B -> dict * option str)
      (l : list B) (st : dict * option str) :
  (forall st b, keys_ok (fst st) -> keys_ok (fst (step st b))) ->
  keys_ok (fst st) -> keys_ok (fst (fold_left step l st)).
Proof.
  intros Hstep. revert st. induction l as [|b l IH]; intros st H; simpl.
  - exact H.
  - apply IH. now apply Hstep.
Qed.

Lemma keys_ok_empty : keys_ok [].
Proof. split; constructor. Qed.

(** The keys of the Tesseract pipeline are distinct canonical decimals. *)
Lemma tesseract_keys_canonical (text : str) (cases : dict) :
  segment_cases_tesseract text = Ok cases -> keys_ok cases.
Proof.
  unfold segment_cases_tesseract.
  destruct (tesseract_blocks text) as [blocks|e]; [|discriminate].
  cbn [bind]. intros H. apply tesseract_merge_Ok in H as [-> _].
  apply fold_keys_ok; [apply tesseract_step_keys_ok|].
  apply keys_ok_empty.
Qed.

(** So are the keys of the mapping the Azure pipeline stitches together. *)
Lemma azure_stitch_keys_canonical (blocks : list str) :
  keys_ok (azure_stitched blocks).
Proof.
  apply fold_keys_ok; [apply azure_step_keys_ok | apply keys_ok_empty].
Qed.

(** C3, at the failing input: the Paddle pipeline keeps the serial as it is
    written, so a line reading 007 becomes the key "007", which is not the
    decimal form of 7; the Azure pipeline turns the same serial into "7". *)
Theorem paddle_key_keeps_leading_zeros :
  segment_cases (lit "007" ++ nl :: lit "C.A. No. 5/2020") (lit "paddle")
  = Ok [(lit "007", lit "007" ++ nl :: lit "C.A. No. 5/2020")]
  /\ ~ canonical_key (lit "007")
  /\ segment_cases (lit "007 C.A. No. 5/2020") (lit "azure")
     = Ok [(lit "7", lit "007 C.A. No. 5/2020")].
Proof.
  split; [reflexivity|]. split; [|reflexivity].
  intros (n & _ & _ & _ & H). specialize (H eq_refl). discriminate H.
Qed.

(** *** A sub-case arriving before its parent (Azure) *)

Lemma str_of_N_inj (a b : N) : str_of_N a = str_of_N b -> a = b.
Proof.
  unfold str_of_N. intros H.
  apply (f_equal string_of_list_ascii) in H.
  rewrite !string_of_list_ascii_of_string in H.
  apply (f_equal DecimalString.NilEmpty.uint_of_string) in H.
  rewrite !DecimalString.NilEmpty.usu in H.
  injection H as H. now apply DecimalN.Unsigned.to_uint_inj.
Qed.

Lemma get_append_value_same (d : dict) (k s v : str) :
  get d k = Some v -> get (append_value d k s) k = Some (v ++ s).
Proof.
  intros H. unfold append_value. rewrite H. apply get_set_same.
Qed.

Lemma get_append_value_other (d : dict) (k k' s : str) :
  k' <> k -> get (append_value d k s) k' = get d k'.
Proof.
  intros H. unfold append_value. destruct (get d k); [|reflexivity].
  now apply get_set_other.
Qed.

Lemma azure_run_app (a b : list str) (st : dict * option str) :
  azure_run (a ++ b) st = azure_run b (azure_run a st).
Proof. unfold azure_run. now rewrite map_app, fold_left_app. Qed.

Lemma azure_run_cons (b : str) (bs : list str) (st : dict * option str) :
  azure_run (b :: bs) st = azure_run bs (azure_step st (classified b)).
Proof. reflexivity. Qed.

(** A key the blocks do not name is not created. *)
Lemma azure_run_no_key (key : str) (blocks : list str) :
  forall st,
    get (fst st) key = None ->
    (forall b main sub, In b blocks ->
        serial_of b = Some (main, sub) -> str_of_N main <> key) ->
    get (fst (azure_run blocks st)) key = None.
Proof.
  induction blocks as [|b bs IH]; intros st Hst Hb; [exact Hst|].
  rewrite azure_run_cons. apply IH.
  2:{ intros b' main sub Hin. apply Hb. now right. }
  destruct st as [cases last_key]. unfold azure_step, classified.
  cbn [fst] in Hst.
  destruct (serial_of b) as [[main sub]|] eqn:Ep.
  - assert (Hne : key <> str_of_N main).
    { intros ->. exact (Hb b main sub (or_introl eq_refl) Ep eq_refl). }
    destruct sub as [sub|];
      destruct (mem cases (str_of_N main)); cbn [fst];
      try destruct (startswith _ _); cbn [fst];
      rewrite ?get_append_value_other, ?get_set_other by exact Hne;
      exact Hst.
  - destruct last_key as [k|]; [|exact Hst].
    destruct (nonempty k); [|exact Hst]. cbn [fst].
    unfold append_value. destruct (get cases k) eqn:Ek; [|exact Hst].
    rewrite get_set_other; [exact Hst|]. intros ->. congruence.
Qed.

(** A block with a serial starts with a blank or a digit. *)
Lemma parsed_block_head (b : str) (x : N * option N) :
  serial_of b = Some x ->
  exists c r, b = c :: r /\ (is_space c = true \/ is_digit c = true).
Proof.
  unfold serial_of. rewrite leading_serial_eq. unfold lstrip.
  pose proof (span_app is_space b) as Hb.
  pose proof (span_fst_all is_space b) as Hw.
  destruct (span is_space b) as [ws r]. cbn [fst snd] in *.
  destruct (serial_token r) as [[[d r'] sub]|] eqn:Et; [|discriminate].
  intros _. apply serial_token_ok in Et as [[Hd Hl _] ->].
  subst b. destruct ws as [|w ws].
  - destruct d as [|c d]; [simpl in Hl; lia|].
    simpl in Hd. apply andb_true_iff in Hd as [Hc _].
    destruct sub; (eexists _, _; split; [reflexivity | now right]).
  - simpl in Hw. apply andb_true_iff in Hw as [Hc _].
    eexists _, _. split; [reflexivity | now left].
Qed.

Lemma parsed_block_not_marker (b rest : str) (x : N * option N) :
  serial_of b = Some x ->
  startswith (b ++ rest) (lit "--- Connected") = false.
Proof.
  intros H. apply parsed_block_head in H as (c & r & -> & Hc).
  unfold startswith. change (lit "--- Connected")
    with ("-"%char :: lit "-- Connected").
  cbn [app strip_prefix].
  replace (ch_eqb "-" c) with false; [reflexivity|].
  symmetry. destruct (ch_eqb "-" c) eqn:E; [|reflexivity].
  apply ch_eqb_eq in E. subst c. destruct Hc as [Hc|Hc]; discriminate Hc.
Qed.

Lemma marker_starts_connected (main sub : N) (rest : str) :
  startswith (connected_marker main sub ++ rest) (lit "--- Connected") = true.
Proof. reflexivity. Qed.

Lemma value_starts_append (d : dict) (key k prefix s : str) :
  value_starts d key prefix -> value_starts (append_value d k s) key prefix.
Proof.
  intros [rest H]. destruct (str_eqb key k) eqn:E.
  - apply str_eqb_eq in E. subst k. exists (rest ++ s).
    rewrite (get_append_value_same _ _ _ _ H). now rewrite app_assoc.
  - apply str_eqb_neq in E. exists rest.
    now rewrite get_append_value_other.
Qed.

(** One turn of the Azure loop keeps a value's beginning, unless the value
    begins with a connected marker and the block is the parent of its key. *)
Lemma azure_step_value_starts (key prefix b : str) (st : dict * option str) :
  value_starts (fst st) key prefix ->
  (forall main, serial_of b = Some (main, None) ->
                str_of_N main = key ->
                forall rest, startswith (prefix ++ rest) (lit "--- Connected") = false) ->
  value_starts (fst (azure_step st (classified b))) key prefix.
Proof.
  destruct st as [cases last_key]. cbn [fst]. intros Hv Hp.
  unfold azure_step, classified.
  destruct (serial_of b) as [[main [sub|]]|] eqn:Ep.
  - unfold mem. destruct (get cases (str_of_N main)) eqn:Eg; cbn [fst].
    + now apply value_starts_append.
    + destruct Hv as [rest Hv]. exists rest.
      rewrite get_set_other; [exact Hv|]. intros ->. congruence.
  - unfold mem. destruct (get cases (str_of_N main)) eqn:Eg; cbn [fst].
    + destruct (startswith (get_default cases (str_of_N main)) _) eqn:Es;
        cbn [fst]; [|now apply value_starts_append].
      destruct Hv as [rest Hv].
      destruct (str_eqb key (str_of_N main)) eqn:E.
      * apply str_eqb_eq in E. subst key. exfalso.
        unfold get_default in Es. rewrite Hv in Es.
        rewrite (Hp main eq_refl eq_refl rest) in Es. discriminate.
      * apply str_eqb_neq in E. exists rest. now rewrite get_set_other.
    + destruct Hv as [rest Hv]. exists rest.
      rewrite get_set_other; [exact Hv|]. intros ->. congruence.
  - destruct last_key as [k|]; [|exact Hv].
    destruct (nonempty k); [|exact Hv]. cbn [fst].
    now apply value_starts_append.
Qed.

Lemma azure_run_value_starts (key prefix : str) (blocks : list str) :
  forall st,
    value_starts (fst st) key prefix ->
    (forall b main, In b blocks ->
        serial_of b = Some (main, None) ->
        str_of_N main = key ->
        forall rest, startswith (prefix ++ rest) (lit "--- Connected") = false) ->
    value_starts (fst (azure_run blocks st)) key prefix.
Proof.
  induction blocks as [|b bs IH]; intros st Hv Hp; [exact Hv|].
  rewrite azure_run_cons. apply IH.
  - apply azure_step_value_starts; [exact Hv|].
    intros main. apply Hp. now left.
  - intros b' main Hin. apply Hp. now right.
Qed.

(** The stitching loop on a sub-case block that comes before its parent,
    with the numbers read whatever their length. *)
Lemma parent_prepended_stitched
        (pre mid post : list str) (sub_blk parent_blk : str) (m s : N) :
  serial_of sub_blk = Some (m, Some s) ->
  serial_of parent_blk = Some (m, None) ->
  (forall b main sub, In b pre ->
      serial_of b = Some (main, sub) -> main <> m) ->
  (forall b, In b mid -> serial_of b <> Some (m, None)) ->
  get (azure_stitched (pre ++ [sub_blk])) (str_of_N m)
  = Some (connected_marker m s ++ nl :: sub_blk)
  /\ (exists rest,
         get (azure_stitched (pre ++ sub_blk :: mid)) (str_of_N m)
         = Some ((connected_marker m s ++ nl :: sub_blk) ++ rest)
         /\ get (azure_stitched (pre ++ sub_blk :: mid ++ [parent_blk])) (str_of_N m)
            = Some (parent_blk ++ nl :: nl
                      :: (connected_marker m s ++ nl :: sub_blk) ++ rest))
  /\ (exists rest,
         get (azure_stitched (pre ++ sub_blk :: mid ++ parent_blk :: post))
             (str_of_N m)
         = Some ((parent_blk ++ nl :: nl :: connected_marker m s ++ nl :: sub_blk)
                   ++ rest)).
Proof.
  intros Hsub Hparent Hpre Hmid.
  set (key := str_of_N m). set (seed := connected_marker m s ++ nl :: sub_blk).
  unfold azure_stitched. fold (azure_run (pre ++ [sub_blk]) ([], None)).
  fold (azure_run (pre ++ sub_blk :: mid) ([], None)).
  fold (azure_run (pre ++ sub_blk :: mid ++ [parent_blk]) ([], None)).
  fold (azure_run (pre ++ sub_blk :: mid ++ parent_blk :: post) ([], None)).
  (* before the sub-case block the key does not exist *)
  assert (Hnone : get (fst (azure_run pre ([], None))) key = None).
  { apply azure_run_no_key; [reflexivity|].
    intros b main sub Hin Hp Hk. apply str_of_N_inj in Hk.
    exact (Hpre b main sub Hin Hp Hk). }
  (* the sub-case block seeds it *)
  assert (Hseed : get (fst (azure_run (pre ++ [sub_blk]) ([], None))) key
                  = Some seed).
  { rewrite azure_run_app. destruct (azure_run pre ([], None)) as [c0 l0].
    cbn [fst] in Hnone. unfold azure_run. cbn [map fold_left].
    unfold azure_step, classified. rewrite Hsub. unfold mem. fold key.
    rewrite Hnone. cbn [fst]. apply get_set_same. }
  (* it keeps its beginning until the parent arrives *)
  assert (Hkept : value_starts
                    (fst (azure_run (pre ++ sub_blk :: mid) ([], None))) key seed).
  { replace (pre ++ sub_blk :: mid) with ((pre ++ [sub_blk]) ++ mid)
      by (rewrite <- app_assoc; reflexivity).
    rewrite azure_run_app. apply azure_run_value_starts.
    - exists []. now rewrite app_nil_r.
    - intros b main Hin Hp Hk. apply str_of_N_inj in Hk. subst main.
      exfalso. exact (Hmid b Hin Hp). }
  destruct Hkept as [rest Hkept].
  (* the parent is put in front *)
  assert (Hfront : get (fst (azure_run (pre ++ sub_blk :: mid ++ [parent_blk])
                                       ([], None))) key
                   = Some (parent_blk ++ nl :: nl :: seed ++ rest)).
  { replace (pre ++ sub_blk :: mid ++ [parent_blk])
      with ((pre ++ sub_blk :: mid) ++ [parent_blk])
      by (rewrite <- app_assoc; reflexivity).
    rewrite azure_run_app.
    destruct (azure_run (pre ++ sub_blk :: mid) ([], None)) as [c1 l1].
    cbn [fst] in Hkept. unfold azure_run. cbn [map fold_left].
    unfold azure_step, classified. rewrite Hparent. unfold mem, get_default.
    fold key. rewrite Hkept. unfold seed at 1. rewrite <- app_assoc.
    rewrite marker_starts_connected. cbn [fst]. rewrite get_set_same.
    unfold seed. now rewrite <- app_assoc. }
  split; [exact Hseed|]. split; [exists rest; split; assumption|].
  replace (pre ++ sub_blk :: mid ++ parent_blk :: post)
    with ((pre ++ sub_blk :: mid ++ [parent_blk]) ++ post)
    by (rewrite <- !app_assoc; cbn [app]; rewrite <- app_assoc; reflexivity).
  rewrite azure_run_app.
  assert (Hfinal : value_starts
            (fst (azure_run post
                    (azure_run (pre ++ sub_blk :: mid ++ [parent_blk]) ([], None))))
            key (parent_blk ++ nl :: nl :: seed)).
  { apply azure_run_value_starts.
    - exists rest. rewrite Hfront. f_equal.
      rewrite <- app_assoc. cbn [app]. reflexivity.
    - intros b main _ _ _ rest'. rewrite <- app_assoc.
      exact (parsed_block_not_marker _ _ _ Hparent). }
  exact Hfinal.
Qed.

(** C6: in the Azure stitching loop, a block with sub-serial m.s that comes
    before every block of main serial m seeds the key of m with the
    connected marker and the block; the first block with the bare serial m
    that follows is put in front of what the key holds by then; and in the
    mapping handed on, the key's value starts with that parent block,
    followed by a blank line, the marker and the sub-case block.  The loop
    runs when every block parses, that is, when no sub-serial is too long
    for [int]. *)
Theorem azure_parent_prepended
        (pre mid post : list str) (sub_blk parent_blk : str) (m s : N) :
  _tesseract_parse_serial sub_blk = Ok (Some (m, Some s)) ->
  _tesseract_parse_serial parent_blk = Ok (Some (m, None)) ->
  (forall b, In b (pre ++ mid ++ post) ->
             exists p, _tesseract_parse_serial b = Ok p) ->
  (forall b main sub, In b pre ->
      _tesseract_parse_serial b = Ok (Some (main, sub)) -> main <> m) ->
  (forall b, In b mid -> _tesseract_parse_serial b <> Ok (Some (m, None))) ->
  (exists seeded,
      azure_stitch (pre ++ [sub_blk]) = Ok seeded
      /\ get seeded (str_of_N m) = Some (connected_marker m s ++ nl :: sub_blk))
  /\ (exists before after rest,
         azure_stitch (pre ++ sub_blk :: mid) = Ok before
         /\ azure_stitch (pre ++ sub_blk :: mid ++ [parent_blk]) = Ok after
         /\ get before (str_of_N m)
            = Some ((connected_marker m s ++ nl :: sub_blk) ++ rest)
         /\ get after (str_of_N m)
            = Some (parent_blk ++ nl :: nl
                      :: (connected_marker m s ++ nl :: sub_blk) ++ rest))
  /\ (exists final rest,
         azure_stitch (pre ++ sub_blk :: mid ++ parent_blk :: post) = Ok final
         /\ get final (str_of_N m)
            = Some ((parent_blk ++ nl :: nl
                       :: connected_marker m s ++ nl :: sub_blk) ++ rest)).
Proof.
  intros Hsub Hparent Hall Hpre Hmid.
  assert (Hparse : forall b,
             In b (pre ++ sub_blk :: mid ++ parent_blk :: post) ->
             exists p, _tesseract_parse_serial b = Ok p).
  { intros b Hin. rewrite in_app_iff in Hin. cbn [In] in Hin.
    rewrite in_app_iff in Hin. cbn [In] in Hin.
    destruct Hin as [Hin|[<-|[Hin|[<-|Hin]]]];
      [ | eexists; exact Hsub | | eexists; exact Hparent | ];
      apply Hall; rewrite !in_app_iff; tauto. }
  assert (Hrun : forall blocks,
             (forall b, In b blocks ->
                        In b (pre ++ sub_blk :: mid ++ parent_blk :: post)) ->
             azure_stitch blocks = Ok (azure_stitched blocks)).
  { intros blocks Hin. rewrite azure_stitch_cases.
    rewrite all_parse_not_long; [reflexivity|].
    intros b Hb. apply Hparse, Hin, Hb. }
  assert (Hpre' : forall b main sub, In b pre ->
             serial_of b = Some (main, sub) -> main <> m).
  { intros b main sub Hin Hp.
    destruct (Hall b) as [p Hb]; [rewrite !in_app_iff; tauto|].
    pose proof (parse_serial_Ok _ _ Hb) as Hs. rewrite Hp in Hs. subst p.
    exact (Hpre b main sub Hin Hb). }
  assert (Hmid' : forall b, In b mid -> serial_of b <> Some (m, None)).
  { intros b Hin Hp.
    destruct (Hall b) as [p Hb]; [rewrite !in_app_iff; tauto|].
    pose proof (parse_serial_Ok _ _ Hb) as Hs. rewrite Hp in Hs. subst p.
    exact (Hmid b Hin Hb). }
  apply parse_serial_Ok in Hsub, Hparent.
  destruct (parent_prepended_stitched pre mid post sub_blk parent_blk m s
              Hsub Hparent Hpre' Hmid') as (H1 & (rest & H2 & H3) & (rest' & H4)).
  assert (Hmem : forall blocks,
             (forall b, In b blocks ->
                In b pre \/ b = sub_blk \/ In b mid \/ b = parent_blk
                \/ In b post) ->
             azure_stitch blocks = Ok (azure_stitched blocks)).
  { intros blocks H. apply Hrun. intros b Hb.
    rewrite in_app_iff. cbn [In]. rewrite in_app_iff. cbn [In].
    destruct (H b Hb) as [?|[->|[?|[->|?]]]]; tauto. }
  split; [|split].
  - exists (azure_stitched (pre ++ [sub_blk])). split; [|exact H1].
    apply Hmem. intros b Hin. rewrite in_app_iff in Hin. cbn [In] in Hin.
    destruct Hin as [?|[<-|[]]]; tauto.
  - exists (azure_stitched (pre ++ sub_blk :: mid)),
      (azure_stitched (pre ++ sub_blk :: mid ++ [parent_blk])), rest.
    split; [|split; [|split; assumption]].
    + apply Hmem. intros b Hin. rewrite in_app_iff in Hin. cbn [In] in Hin.
      destruct Hin as [?|[<-|?]]; tauto.
    + apply Hmem. intros b Hin. rewrite in_app_iff in Hin. cbn [In] in Hin.
      rewrite in_app_iff in Hin. cbn [In] in Hin.
      destruct Hin as [?|[<-|[?|[<-|[]]]]]; tauto.
  - exists (azure_stitched (pre ++ sub_blk :: mid ++ parent_blk :: post)), rest'.
    split; [|exact H4]. apply Hrun. now intros b Hin.
Qed.

(** C6, witness: sub-case 4.1 followed by its parent 4. *)
Lemma azure_parent_prepended_witness :
  exists final rest,
    azure_stitch ([] ++ lit "4.1 SLP(C) No. 5/2020"
                     :: [] ++ lit "4 C.A. No. 3/2020" :: [])
    = Ok final
    /\ get final (str_of_N 4)
       = Some ((lit "4 C.A. No. 3/2020" ++ nl :: nl
                  :: connected_marker 4 1 ++ nl :: lit "4.1 SLP(C) No. 5/2020")
                 ++ rest).
Proof.
  apply (azure_parent_prepended [] [] [] (lit "4.1 SLP(C) No. 5/2020")
           (lit "4 C.A. No. 3/2020") 4 1); try reflexivity.
  - intros b [].
  - intros b main sub [].
  - intros b [].
Defined.

(** *** The connected-case merge law *)

Lemma tesseract_connected (blocks : list str) (b : str) (m s : N) :
  In b blocks -> serial_of b = Some (m, Some s) ->
  exists v, get (tesseract_merged blocks) (str_of_N m) = Some v
            /\ infix (connected_marker m s ++ nl :: b) v.
Proof.
  intros Hin Hp. apply in_split in Hin as (pre & post & ->).
  unfold tesseract_merged. rewrite fold_left_app. cbn [fold_left].
  destruct (fold_left tesseract_turn pre ([], None)) as [c0 l0].
  eapply (infix_grows _ _ _ _ _
            (fold_grows tesseract_turn post _ tesseract_step_grows)).
  - unfold tesseract_turn, tesseract_update. rewrite Hp. cbn [fst]. apply get_set_same.
  - exists (get_default c0 (str_of_N m) ++ [nl; nl]), [].
    rewrite app_nil_r, <- app_assoc. reflexivity.
Qed.

Lemma azure_connected (blocks : list str) (b : str) (m s : N) :
  In b blocks -> serial_of b = Some (m, Some s) ->
  exists v, get (azure_stitched blocks) (str_of_N m) = Some v
            /\ infix (connected_marker m s ++ nl :: b) v.
Proof.
  intros Hin Hp. apply in_split in Hin as (pre & post & ->).
  unfold azure_stitched. rewrite map_app, fold_left_app. cbn [map fold_left].
  destruct (fold_left azure_step (map classified pre) ([], None)) as [c0 l0].
  unfold azure_step at 2, classified at 2. rewrite Hp. unfold mem.
  destruct (get c0 (str_of_N m)) as [v0|] eqn:Eg.
  - eapply (infix_grows _ _ _ _ _
              (fold_grows azure_step (map classified post) _ azure_step_grows)).
    + cbn [fst]. apply (get_append_value_same _ _ _ _ Eg).
    + exists (v0 ++ [nl; nl]), [].
      rewrite app_nil_r, <- app_assoc. reflexivity.
  - eapply (infix_grows _ _ _ _ _
              (fold_grows azure_step (map classified post) _ azure_step_grows)).
    + cbn [fst]. apply get_set_same.
    + exists [], []. now rewrite app_nil_r.
Qed.

Lemma grows_at_refl (key : str) (d : dict) : grows_at key d d.
Proof. intros v H. exists [], []. now rewrite app_nil_r. Qed.

Lemma grows_at_trans (key : str) (d1 d2 d3 : dict) :
  grows_at key d1 d2 -> grows_at key d2 d3 -> grows_at key d1 d3.
Proof.
  intros H12 H23 v H.
  destruct (H12 v H) as (a & b & H2).
  destruct (H23 _ H2) as (a' & b' & H3).
  exists (a' ++ a), (b ++ b'). rewrite H3. now rewrite !app_assoc.
Qed.

(** A turn of the Paddle loop that does not assign the bare serial [key]
    keeps the value of [key], possibly with text added after it. *)
Lemma paddle_step_grows_at (key : str) (cases : dict) (sb : str * str) :
  fst sb <> key -> grows_at key cases (paddle_step cases sb).
Proof.
  destruct sb as [serial block]. cbn [fst]. intros Hne v Hv.
  unfold paddle_step. destruct (contains (lit ".") serial).
  - unfold mem. destruct (get cases (before_dot serial)) as [v0|] eqn:Eg.
    + destruct (str_eqb key (before_dot serial)) eqn:E.
      * apply str_eqb_eq in E. subst key. exists [].
        eexists. rewrite (get_append_value_same _ _ _ _ Eg).
        rewrite Hv in Eg. injection Eg as <-. reflexivity.
      * apply str_eqb_neq in E. exists [], [].
        rewrite get_append_value_other by exact E. now rewrite app_nil_r.
    + exists [], []. rewrite app_nil_r. cbn [app].
      rewrite get_set_other; [exact Hv|]. intros ->. congruence.
  - exists [], []. rewrite app_nil_r. cbn [app].
    rewrite get_set_other; [exact Hv|]. congruence.
Qed.

Lemma paddle_fold_grows_at (key : str) (post : list (str * str)) :
  forall cases,
    (forall sb, In sb post -> fst sb <> key) ->
    grows_at key cases (fold_left paddle_step post cases).
Proof.
  induction post as [|sb post IH]; intros cases H; [apply grows_at_refl|].
  cbn [fold_left]. eapply grows_at_trans.
  - apply paddle_step_grows_at. apply H. now left.
  - apply IH. intros sb' Hin. apply H. now right.
Qed.

Lemma paddle_connected (text : str) (pre post : list (str * str))
      (serial block : str) :
  paddle_blocks text (finditer SERIAL_PATTERN text) = pre ++ (serial, block) :: post ->
  contains (lit ".") serial = true ->
  (forall sb, In sb post -> fst sb <> before_dot serial) ->
  exists v, get (paddle_initial text) (before_dot serial) = Some v
            /\ infix (connected_case_marker serial ++ nl :: block) v.
Proof.
  intros Hb Hdot Hpost. unfold paddle_initial. rewrite Hb, fold_left_app.
  cbn [fold_left]. set (c0 := fold_left paddle_step pre []).
  assert (Hstep : exists v,
             get (paddle_step c0 (serial, block)) (before_dot serial) = Some v
             /\ infix (connected_case_marker serial ++ nl :: block) v).
  { unfold paddle_step. rewrite Hdot. unfold mem.
    destruct (get c0 (before_dot serial)) as [v0|] eqn:Eg.
    - eexists. split; [apply (get_append_value_same _ _ _ _ Eg)|].
      exists (v0 ++ [nl; nl]), []. rewrite app_nil_r, <- app_assoc. reflexivity.
    - eexists. split; [apply get_set_same|].
      exists [], []. now rewrite app_nil_r. }
  destruct Hstep as (v & Hv & a & b & ->).
  destruct (paddle_fold_grows_at (before_dot serial) post _ Hpost _ Hv)
    as (a' & b' & H').
  eexists. split; [exact H'|].
  exists (a' ++ a), (b ++ b'). now rewrite !app_assoc.
Qed.

(** C2, counterexample: in the Paddle pipeline the block of sub-serial 4.1 is
    filed under key "4" behind a marker that reads "--- Connected Case 4.1
    ---", so the value does not contain "--- Connected 4.1 ---". *)
Lemma paddle_marker_differs :
  finditer SERIAL_PATTERN (lit "4.1" ++ nl :: lit "SLP(C) No. 5/2020")
  = [(0, 3, lit "4.1")]
  /\ segment_cases_paddle (lit "4.1" ++ nl :: lit "SLP(C) No. 5/2020")
     = Ok [(lit "4", connected_case_marker (lit "4.1") ++ nl
                       :: lit "4.1" ++ nl :: lit "SLP(C) No. 5/2020")]
  /\ contains (connected_marker 4 1)
              (connected_case_marker (lit "4.1") ++ nl
                 :: lit "4.1" ++ nl :: lit "SLP(C) No. 5/2020") = false.
Proof. repeat split; vm_compute; reflexivity. Qed.

(** C2, amended: a candidate block with sub-serial m.s is found, behind the
    marker "--- Connected m.s ---" and a newline, in the value of key str(m)
    of the mapping the Tesseract pipeline returns, and of the mapping the
    Azure pipeline builds before it redistributes blobs, wherever the parent
    block stands; the pipelines return these mappings when every candidate
    block parses, that is, when no sub-serial is too long for [int].  In
    the Paddle pipeline the marker reads "--- Connected Case" followed by
    the serial as written, and the block is found behind it in the mapping
    built before drift repair when no later match has the bare main
    serial. *)
Theorem connected_case_merge_law :
  (forall text blocks b m s,
      tesseract_blocks text = Ok blocks ->
      (forall b', In b' blocks -> exists p, _tesseract_parse_serial b' = Ok p) ->
      In b blocks -> _tesseract_parse_serial b = Ok (Some (m, Some s)) ->
      exists cases v,
        segment_cases_tesseract text = Ok cases
        /\ get cases (str_of_N m) = Some v
        /\ infix (connected_marker m s ++ nl :: b) v)
  /\ (forall text b m s,
         (forall b', In b' (azure_blocks text) ->
                     exists p, _tesseract_parse_serial b' = Ok p) ->
         In b (azure_blocks text) ->
         _tesseract_parse_serial b = Ok (Some (m, Some s)) ->
         exists cases v,
           azure_stitch (azure_blocks text) = Ok cases
           /\ get cases (str_of_N m) = Some v
           /\ infix (connected_marker m s ++ nl :: b) v)
  /\ (forall text pre post serial block,
         paddle_blocks text (finditer SERIAL_PATTERN text)
         = pre ++ (serial, block) :: post ->
         contains (lit ".") serial = true ->
         (forall sb, In sb post -> fst sb <> before_dot serial) ->
         exists v,
           get (paddle_initial text) (before_dot serial) = Some v
           /\ infix (connected_case_marker serial ++ nl :: block) v).
Proof.
  split; [|split].
  - intros text blocks b m s Hb Hall Hin Hp. apply parse_serial_Ok in Hp.
    destruct (tesseract_connected blocks b m s Hin Hp) as (v & Hv & Hi).
    exists (tesseract_merged blocks), v. split; [|split; assumption].
    unfold segment_cases_tesseract. rewrite Hb. cbn [bind].
    now rewrite tesseract_merge_cases, (all_parse_not_long blocks Hall).
  - intros text b m s Hall Hin Hp. apply parse_serial_Ok in Hp.
    destruct (azure_connected _ b m s Hin Hp) as (v & Hv & Hi).
    exists (azure_stitched (azure_blocks text)), v.
    split; [|split; assumption].
    now rewrite azure_stitch_cases, (all_parse_not_long _ Hall).
  - exact paddle_connected.
Qed.

(** C2, witness: a sub-case block after its parent (Tesseract), before its
    parent (Azure), and on its own (Paddle). *)
Lemma connected_case_merge_law_witness :
  (exists cases v,
      segment_cases_tesseract
        (lit "4 C.A. No. 3/2020" ++ nl :: lit "4.1 SLP(C) No. 5/2020")
      = Ok cases
      /\ get cases (str_of_N 4) = Some v
      /\ infix (connected_marker 4 1 ++ nl :: lit "4.1 SLP(C) No. 5/2020") v)
  /\ (exists cases v,
         azure_stitch
           (azure_blocks
              (lit "4.1 SLP(C) No. 5/2020" ++ nl :: lit "4 C.A. No. 3/2020"))
         = Ok cases
         /\ get cases (str_of_N 4) = Some v
         /\ infix (connected_marker 4 1 ++ nl :: lit "4.1 SLP(C) No. 5/2020") v)
  /\ (exists v,
         get (paddle_initial (lit "4.1" ++ nl :: lit "SLP(C) No. 5/2020"))
             (before_dot (lit "4.1")) = Some v
         /\ infix (connected_case_marker (lit "4.1") ++ nl
                     :: lit "4.1" ++ nl :: lit "SLP(C) No. 5/2020") v).
Proof.
  destruct connected_case_merge_law as (HT & HA & HP).
  split; [|split].
  - apply (HT _ [lit "4 C.A. No. 3/2020"; lit "4.1 SLP(C) No. 5/2020"]).
    + reflexivity.
    + intros b' [<-|[<-|[]]]; eexists; reflexivity.
    + right. now left.
    + reflexivity.
  - apply HA.
    + intros b' [<-|[<-|[]]]; eexists; reflexivity.
    + now left.
    + reflexivity.
  - apply (HP _ [] []); [reflexivity | reflexivity | intros sb []].
Defined.

(** *** Drift repair (Paddle) *)

(** Every match the scan reports is a match of the pattern at its start. *)
Lemma scan_In_match {A : Type} (m : option ascii -> str -> option (nat * A))
      (s : str) :
  forall skip prev pos p l a,
    In (p, l, a) (scan m skip prev pos s) ->
    pos <= p /\ exists prev', m prev' (skipn (p - pos) s) = Some (l, a).
Proof.
  induction s as [|c s IH]; intros skip prev pos p l a H; [contradiction|].
  cbn [scan] in H.
  assert (Hrec : forall skip' prev',
             In (p, l, a) (scan m skip' prev' (S pos) s) ->
             pos <= p /\ exists prev'', m prev'' (skipn (p - pos) (c :: s)) = Some (l, a)).
  { intros skip' prev' Hin. apply IH in Hin as (Hle & prev'' & Hm).
    split; [lia|]. exists prev''.
    replace (p - pos) with (S (p - S pos)) by lia. exact Hm. }
  destruct skip as [|k]; [|now apply (Hrec k (Some c))].
  destruct (m prev (c :: s)) as [[[|k] a']|] eqn:Em;
    try (now apply (Hrec 0 (Some c))).
  destruct H as [H|H]; [|now apply (Hrec k (Some c))].
  injection H as <- <- <-. split; [lia|]. exists prev.
  now rewrite Nat.sub_diag.
Qed.










(** *** Counting Versus *)

Lemma strip_prefix_app (p s r : str) : strip_prefix p s = Some r -> s = p ++ r.
Proof.
  revert s. induction p as [|x p IH]; intros s H.
  - now injection H as ->.
  - destruct s as [|y s]; [discriminate|]. cbn [strip_prefix] in H.
    destruct (ch_eqb x y) eqn:E; [|discriminate].
    apply ch_eqb_eq in E. subst y. cbn [app]. f_equal. now apply IH.
Qed.

(** A prefix made of word characters is not affected by what follows a
    character that is not one. *)
Lemma strip_prefix_sep (p x y : str) (c : ascii) :
  forallb is_word p = true -> is_word c = false ->
  strip_prefix p (x ++ c :: y)
  = option_map (fun r => r ++ c :: y) (strip_prefix p x).
Proof.
  intros Hp Hc. revert x. induction p as [|q p IH]; intros x; [reflexivity|].
  cbn [forallb] in Hp. apply andb_true_iff in Hp as [Hq Hp].
  destruct x as [|x1 x]; cbn [app strip_prefix].
  - destruct (ch_eqb q c) eqn:E; [|reflexivity].
    apply ch_eqb_eq in E. subst c. congruence.
  - destruct (ch_eqb q x1); [now apply IH | reflexivity].
Qed.

Lemma versus_word_sep (prev : option ascii) (x y : str) (c : ascii) :
  is_word c = false -> versus_word prev (x ++ c :: y) = versus_word prev x.
Proof.
  intros Hc. unfold versus_word.
  rewrite (strip_prefix_sep (lit "Versus") x y c eq_refl Hc).
  destruct (strip_prefix (lit "Versus") x) as [r|]; [|reflexivity].
  cbn [option_map]. destruct r as [|r0 r]; cbn [app hd_error is_word_opt].
  - now rewrite Hc.
  - reflexivity.
Qed.

Lemma versus_word_after_sep (c : ascii) (s : str) :
  is_word c = false -> versus_word (Some c) s = versus_word None s.
Proof. intros Hc. unfold versus_word. cbn [is_word_opt]. now rewrite Hc. Qed.

Lemma versus_word_length (prev : option ascii) (s : str) (l : nat) (u : unit) :
  versus_word prev s = Some (l, u) -> l = 6 /\ 6 <= List.length s.
Proof.
  unfold versus_word.
  destruct (strip_prefix (lit "Versus") s) as [r|] eqn:E; [|discriminate].
  destruct (_ && _); [|discriminate]. intros [= <- _].
  apply strip_prefix_app in E. subst s. split; [reflexivity|].
  rewrite length_app. simpl. lia.
Qed.

Lemma scan_versus_sep (c : ascii) (b : str) :
  is_word c = false ->
  forall a skip prev pos,
    skip <= List.length a ->
    scan versus_word skip prev pos (a ++ c :: b)
    = scan versus_word skip prev pos a
      ++ scan versus_word 0 (Some c) (pos + List.length a + 1) b.
Proof.
  intros Hc. induction a as [|x a IH]; intros skip prev pos Hskip.
  - cbn [List.length] in Hskip. replace skip with 0 by lia.
    cbn [app scan List.length].
    pose proof (versus_word_sep prev [] b c Hc) as H0. cbn [app] in H0.
    rewrite H0. cbn. f_equal. lia.
  - cbn [app scan List.length]. destruct skip as [|k].
    + pose proof (versus_word_sep prev (x :: a) b c Hc) as H0.
      cbn [app] in H0. rewrite H0.
      destruct (versus_word prev (x :: a)) as [[[|k] u]|] eqn:Em.
      * rewrite IH by lia. f_equal. f_equal. lia.
      * apply versus_word_length in Em as [Hl Hlen].
        cbn [List.length] in Hlen. cbn [app].
        rewrite IH by lia. do 3 f_equal. lia.
      * rewrite IH by lia. f_equal. f_equal. lia.
    + cbn [List.length] in Hskip. rewrite IH by lia. f_equal. f_equal. lia.
Qed.

Lemma scan_versus_prev (c : ascii) (b : str) (pos : nat) :
  is_word c = false ->
  List.length (scan versus_word 0 (Some c) pos b)
  = List.length (scan versus_word 0 None 0 b).
Proof.
  intros Hc. rewrite <- (Nat.add_0_r pos), (scan_shift versus_word).
  rewrite length_map. destruct b as [|y b]; [reflexivity|].
  cbn [scan]. now rewrite (versus_word_after_sep c (y :: b) Hc).
Qed.

(** Occurrences add up across a character that is not a word character. *)
Lemma count_versus_sep (a b : str) (c : ascii) :
  is_word c = false ->
  count_versus (a ++ c :: b) = count_versus a + count_versus b.
Proof.
  intros Hc. unfold count_versus, finditer.
  rewrite (scan_versus_sep c b Hc a 0 None 0) by lia.
  rewrite length_app. f_equal. now apply scan_versus_prev.
Qed.

Lemma space_not_word (c : ascii) : is_space c = true -> is_word c = false.
Proof.
  destruct c as [[] [] [] [] [] [] [] []]; vm_compute; congruence.
Qed.

Lemma count_versus_blanks (ws : str) :
  forallb is_space ws = true -> count_versus ws = 0.
Proof.
  induction ws as [|c ws IH]; [reflexivity|]. intros H.
  cbn [forallb] in H. apply andb_true_iff in H as [Hc Hs].
  change (count_versus ([] ++ c :: ws) = 0).
  rewrite (count_versus_sep [] ws c (space_not_word c Hc)).
  now rewrite IH.
Qed.

Lemma count_versus_blanks_before (ws s : str) :
  forallb is_space ws = true -> count_versus (ws ++ s) = count_versus s.
Proof.
  induction ws as [|c ws IH]; [reflexivity|]. intros H.
  cbn [forallb] in H. apply andb_true_iff in H as [Hc Hs].
  change (count_versus ([] ++ c :: (ws ++ s)) = count_versus s).
  rewrite (count_versus_sep [] (ws ++ s) c (space_not_word c Hc)).
  now rewrite IH.
Qed.

Lemma count_versus_blanks_after (s ws : str) :
  forallb is_space ws = true -> count_versus (s ++ ws) = count_versus s.
Proof.
  destruct ws as [|c ws]; [now rewrite app_nil_r|]. intros H.
  cbn [forallb] in H. apply andb_true_iff in H as [Hc Hs].
  rewrite (count_versus_sep s ws c (space_not_word c Hc)).
  rewrite (count_versus_blanks ws Hs). lia.
Qed.

Lemma count_versus_lstrip (s : str) : count_versus (lstrip s) = count_versus s.
Proof.
  unfold lstrip. rewrite <- (span_app is_space s) at 2.
  symmetry. apply count_versus_blanks_before. apply span_fst_all.
Qed.

Lemma forallb_rev (p : ascii -> bool) (s : str) :
  forallb p (rev s) = forallb p s.
Proof.
  induction s as [|c s IH]; [reflexivity|].
  cbn [rev forallb]. rewrite forallb_app, IH. cbn [forallb].
  rewrite andb_true_r. apply andb_comm.
Qed.

Lemma count_versus_rstrip (s : str) : count_versus (rstrip s) = count_versus s.
Proof.
  unfold rstrip, lstrip.
  pose proof (span_app is_space (rev s)) as Hs.
  pose proof (span_fst_all is_space (rev s)) as Hw.
  destruct (span is_space (rev s)) as [ws r]. cbn [fst snd] in *.
  apply (f_equal (@rev ascii)) in Hs. rewrite rev_involutive, rev_app_distr in Hs.
  rewrite <- Hs. symmetry. apply count_versus_blanks_after.
  now rewrite forallb_rev.
Qed.

Lemma count_versus_strip (s : str) : count_versus (strip s) = count_versus s.
Proof. unfold strip. now rewrite count_versus_rstrip, count_versus_lstrip. Qed.

Lemma nl_not_word : is_word nl = false.
Proof. reflexivity. Qed.

Lemma count_versus_join (l : list str) :
  count_versus (join [nl] l) = list_sum (map count_versus l).
Proof.
  induction l as [|a l IH]; [reflexivity|].
  destruct l as [|b l].
  - unfold list_sum. cbn [join map fold_right]. lia.
  - change (join [nl] (a :: b :: l)) with (a ++ nl :: join [nl] (b :: l)).
    rewrite (count_versus_sep a _ nl nl_not_word), IH. reflexivity.
Qed.

(** *** Blob redistribution (Azure) *)

Lemma find_skipn (p s : str) (i : nat) :
  find p s = Some i -> exists r, skipn i s = p ++ r.
Proof.
  revert i. induction s as [|c s IH]; intros i; cbn [find].
  - destruct (startswith [] p) eqn:E; [|discriminate].
    intros [= <-]. unfold startswith in E.
    destruct (strip_prefix p []) as [r|] eqn:Er; [|discriminate].
    exists r. now apply strip_prefix_app.
  - destruct (startswith (c :: s) p) eqn:E.
    + intros [= <-]. unfold startswith in E.
      destruct (strip_prefix p (c :: s)) as [r|] eqn:Er; [|discriminate].
      exists r. now apply strip_prefix_app.
    + destruct (find p s) as [j|]; [|discriminate].
      intros [= <-]. now apply IH.
Qed.

(** Handing a block to a stub adds the block's occurrences to the stub's. *)
Lemma count_versus_insert_block (stub_text block : str) :
  count_versus (insert_block stub_text block)
  = count_versus stub_text + count_versus block.
Proof.
  unfold insert_block.
  destruct (find (nl :: lit "--- Connected") stub_text) as [i|] eqn:Ef.
  - destruct (find_skipn _ _ _ Ef) as [r Hr]. cbn [app] in Hr.
    set (rest := lit "--- Connected" ++ r) in Hr.
    assert (Ht : count_versus stub_text
                 = count_versus (firstn i stub_text) + count_versus rest).
    { rewrite <- (count_versus_sep _ _ nl nl_not_word), <- Hr.
      now rewrite firstn_skipn. }
    rewrite Hr, Ht.
    rewrite (count_versus_sep _ _ nl nl_not_word).
    rewrite (count_versus_sep block _ nl nl_not_word).
    rewrite count_versus_rstrip. lia.
  - rewrite (count_versus_sep _ _ nl nl_not_word).
    now rewrite count_versus_rstrip.
Qed.

Lemma last_index_Some {A : Type} (p : A -> bool) (l : list A) (i : nat) (d : A) :
  last_index p l = Some i -> i < List.length l /\ p (nth i l d) = true.
Proof.
  revert i. induction l as [|x l IH]; intros i; [discriminate|].
  cbn [last_index]. destruct (last_index p l) as [j|].
  - intros [= <-]. destruct (IH j eq_refl) as [Hlt Hp].
    split; [simpl; lia | exact Hp].
  - destruct (p x) eqn:E; [|discriminate]. intros [= <-].
    split; [simpl; lia | exact E].
Qed.

Lemma list_sum_replace_nth (l : list str) (idx : nat) (x : str) :
  idx < List.length l ->
  (forall i, i <> idx -> count_versus (nth i l []) = 0) ->
  list_sum (map count_versus (replace_nth l idx x)) = count_versus x.
Proof.
  revert idx. induction l as [|y l IH]; intros idx Hlt Hz; [simpl in Hlt; lia|].
  destruct idx as [|idx]; cbn [replace_nth map list_sum fold_right].
  - assert (Hrest : list_sum (map count_versus l) = 0).
    { clear IH Hlt. assert (H : forall i, count_versus (nth i l []) = 0)
        by (intros i; apply (Hz (S i)); discriminate).
      clear Hz. induction l as [|z l IHl]; [reflexivity|].
      cbn [map]. change (list_sum (count_versus z :: map count_versus l))
        with (count_versus z + list_sum (map count_versus l)).
      rewrite (H 0 : count_versus z = 0), IHl; [reflexivity|].
      intros i. apply (H (S i)). }
    unfold list_sum in *. cbn [fold_right]. lia.
  - unfold list_sum in *. cbn [fold_right].
    rewrite (IH idx); [|simpl in Hlt; lia|].
    + pose proof (Hz 0 (Nat.neq_0_succ idx)) as Hy. cbn [nth] in Hy.
      rewrite Hy. reflexivity.
    + intros i Hi. apply (Hz (S i)). congruence.
Qed.

Lemma list_sum_filter_nonblank (l : list str) :
  list_sum (map count_versus (filter (fun s => nonempty (strip s)) l))
  = list_sum (map count_versus l).
Proof.
  induction l as [|x l IH]; [reflexivity|]. cbn [filter].
  change (list_sum (map count_versus (x :: l)))
    with (count_versus x + list_sum (map count_versus l)).
  destruct (nonempty (strip x)) eqn:E.
  - cbn [map]. change (list_sum (count_versus x :: ?t))
    with (count_versus x + list_sum t). now rewrite IH.
  - rewrite IH. rewrite <- (count_versus_strip x).
    destruct (strip x); [reflexivity|discriminate].
Qed.

(** The sections a text is cut into hold all its occurrences. *)
Lemma split_before_shape (p s : str) :
  List.concat (split_before (nl :: p) s) = s
  /\ split_before (nl :: p) s <> []
  /\ Forall (fun piece => exists r, piece = nl :: r)
            (tl (split_before (nl :: p) s)).
Proof.
  induction s as [|c s (IHc & IHn & IHt)].
  - repeat split; [discriminate | constructor].
  - cbn [split_before].
    destruct (split_before (nl :: p) s) as [|x xs] eqn:E; [congruence|].
    cbn [cons_first].
    destruct (startswith (c :: s) (nl :: p)) eqn:Es.
    + repeat split; [cbn [List.concat app]; now rewrite <- IHc | discriminate |].
      cbn [tl]. constructor; [|exact IHt].
      unfold startswith in Es. cbn [strip_prefix] in Es.
      destruct (ch_eqb nl c) eqn:Ec; [|discriminate].
      apply ch_eqb_eq in Ec. subst c. now exists x.
    + repeat split; [cbn [List.concat app]; now rewrite <- IHc | discriminate |].
      exact IHt.
Qed.

Lemma count_versus_concat (l : list str) :
  Forall (fun piece => exists r, piece = nl :: r) (tl l) ->
  count_versus (List.concat l) = list_sum (map count_versus l).
Proof.
  induction l as [|x l IH]; [reflexivity|]. cbn [tl]. intros Ht.
  change (list_sum (map count_versus (x :: l)))
    with (count_versus x + list_sum (map count_versus l)).
  cbn [List.concat]. destruct l as [|y l].
  - cbn [List.concat]. rewrite app_nil_r. unfold list_sum. cbn. lia.
  - inversion Ht as [|? ? [r ->] Ht']. subst.
    rewrite <- IH.
    + cbn [List.concat app].
      rewrite (count_versus_sep x _ nl nl_not_word).
      change (nl :: r ++ List.concat l) with ([] ++ nl :: (r ++ List.concat l)).
      rewrite (count_versus_sep [] _ nl nl_not_word). reflexivity.
    + clear -Ht'. destruct l; [constructor|]. cbn [tl] in *.
      exact Ht'.
Qed.

Lemma nth_le_list_sum (l : list str) (i : nat) :
  count_versus (nth i l []) <= list_sum (map count_versus l).
Proof.
  revert i. induction l as [|x l IH]; intros i.
  - destruct i; cbn; lia.
  - change (list_sum (map count_versus (x :: l)))
      with (count_versus x + list_sum (map count_versus l)).
    destruct i as [|i]; cbn [nth]; [lia|]. specialize (IH i). lia.
Qed.

(** A text with a section holding two Versus holds at least two. *)
Lemma blob_owner_not_stub (owner_text : str) (idx : nat) :
  blob_section_index (split_before (nl :: lit "--- Connected ") owner_text)
  = Some idx ->
  2 <= count_versus owner_text.
Proof.
  intros H. apply (last_index_Some _ _ _ []) in H as [_ H].
  apply Nat.leb_le in H.
  destruct (split_before_shape (lit "--- Connected ") owner_text)
    as (Hc & _ & Ht).
  rewrite <- Hc at 1. rewrite (count_versus_concat _ Ht).
  eapply Nat.le_trans; [exact H | apply nth_le_list_sum].
Qed.


Lemma get_default_set_other (d : dict) (k k' v : str) :
  k' <> k -> get_default (set d k v) k' = get_default d k'.
Proof. intros H. unfold get_default. now rewrite get_set_other. Qed.

(** *** The keys survive blob redistribution *)

Lemma set_present_keys (d : dict) (k v : str) :
  In k (keys d) -> keys (set d k v) = keys d.
Proof.
  intros H. rewrite keys_set. unfold mem.
  destruct (In_get d k H) as [v' Hv]. now rewrite Hv.
Qed.

Lemma In_insert_key (x k : str) (l : list str) :
  In x (insert_key k l) -> x = k \/ In x l.
Proof.
  induction l as [|y l IH]; cbn [insert_key].
  - intros [<-|[]]. now left.
  - destruct (_ <=? _)%N.
    + intros [<-|H]; [right; now left|].
      destruct (IH H) as [->|H']; [now left | right; now right].
    + intros [<-|H]; [now left | now right].
Qed.

Lemma In_sort_keys (x : str) (l : list str) : In x (sorted_by_float l) -> In x l.
Proof.
  unfold sorted_by_float.
  assert (H : forall acc, In x (fold_left (fun a k => insert_key k a) l acc) ->
                          In x l \/ In x acc).
  { induction l as [|k l IH]; intros acc Hin; [now right|].
    cbn [fold_left] in Hin. destruct (IH _ Hin) as [H|H].
    - left. now right.
    - destruct (In_insert_key _ _ _ H) as [->|H']; [left; now left | now right]. }
  intros Hin. destruct (H [] Hin) as [H'|[]]. exact H'.
Qed.

Lemma give_to_stubs_keys (stubs blocks : list str) :
  forall result,
    (forall k, In k stubs -> In k (keys result)) ->
    keys (give_to_stubs result stubs blocks) = keys result.
Proof.
  revert blocks. induction stubs as [|s stubs IH]; intros blocks result H;
    [reflexivity|].
  destruct blocks as [|b blocks]; [reflexivity|].
  cbn [give_to_stubs].
  assert (Hs : keys (set result s (insert_block (get_default result s) b))
               = keys result)
    by (apply set_present_keys, H; now left).
  rewrite IH; [exact Hs|].
  intros k Hk. rewrite Hs. apply H. now right.
Qed.

Lemma redistribute_run_keys (result result' : dict) (stubs : list str)
      (owner : str) :
  (forall k, In k stubs -> In k (keys result)) -> In owner (keys result) ->
  redistribute_run result stubs owner = Some result' ->
  keys result' = keys result.
Proof.
  intros Hs Ho. unfold redistribute_run.
  destruct (blob_section_index _) as [idx|]; [|discriminate].
  destruct (_azure_split_blob _) as [|b bs]; [discriminate|].
  intros [= <-].
  rewrite set_present_keys; rewrite give_to_stubs_keys; auto.
Qed.

Lemma take_stubs_In (result : dict) (ks : list str) (k : str) :
  In k (take_stubs result ks) -> In k ks.
Proof.
  induction ks as [|x ks IH]; [contradiction|]. cbn [take_stubs].
  destruct (is_stub result x); [|contradiction].
  intros [<-|H]; [now left | right; now apply IH].
Qed.

Lemma skipn_head_In {A : Type} (n : nat) (l : list A) (x : A) (rest : list A) :
  skipn n l = x :: rest -> In x l.
Proof.
  intros H. rewrite <- (firstn_skipn n l), H.
  apply in_or_app. right. now left.
Qed.

Lemma redistribute_loop_keys (ks : list str) :
  forall skip result,
    (forall k, In k ks -> In k (keys result)) ->
    keys (redistribute_loop skip ks result) = keys result.
Proof.
  induction ks as [|key rest IH]; intros skip result H; [reflexivity|].
  cbn [redistribute_loop].
  assert (Hrest : forall k, In k rest -> In k (keys result))
    by (intros k Hk; apply H; now right).
  destruct skip as [|n]; [|now apply IH].
  destruct (negb (is_stub result key)); [now apply IH|].
  destruct (skipn _ (key :: rest)) as [|owner tail] eqn:Es; [reflexivity|].
  destruct (redistribute_run result _ owner) as [result'|] eqn:Er;
    [|now apply IH].
  assert (Hk : keys result' = keys result).
  { apply (redistribute_run_keys _ _ _ _
             (fun k Hk => H k (take_stubs_In _ _ _ Hk))
             (H owner (skipn_head_In _ _ _ _ Es)) Er). }
  rewrite IH; [exact Hk|]. intros k Hin. rewrite Hk. now apply Hrest.
Qed.

(** The keys of the mapping the Azure pipeline returns are distinct
    canonical decimals. *)
Lemma sort_keys_Ok (ks all_keys : list str) :
  sort_keys ks = Ok all_keys -> all_keys = sorted_by_float ks.
Proof.
  unfold sort_keys. destruct (forallb _ ks); [|discriminate].
  now intros [= <-].
Qed.

Lemma digit_key_float (k : str) : digit_key k -> is_some (py_float k) = true.
Proof.
  intros [Hne Hd]. unfold py_float. rewrite Hd.
  destruct k; [contradiction | reflexivity].
Qed.

Lemma sort_keys_digits (ks : list str) :
  Forall digit_key ks -> sort_keys ks = Ok (sorted_by_float ks).
Proof.
  intros H. unfold sort_keys.
  assert (Hf : forallb (fun k => is_some (py_float k)) ks = true).
  { apply forallb_forall. intros k Hk. apply digit_key_float.
    rewrite Forall_forall in H. now apply H. }
  now rewrite Hf.
Qed.

Lemma redistribute_blobs_digits (cases : dict) :
  Forall digit_key (keys cases) ->
  _azure_redistribute_blobs cases
  = Ok (redistribute_loop 0 (sorted_by_float (keys cases)) cases).
Proof.
  intros H. unfold _azure_redistribute_blobs. now rewrite sort_keys_digits.
Qed.

Lemma repair_drift_Ok (cases result : dict) :
  _repair_layout_drift cases = Ok result ->
  result = drift_loop (sorted_by_float (keys cases)) cases.
Proof.
  unfold _repair_layout_drift.
  destruct (sort_keys (keys cases)) as [serials|e] eqn:E; [|discriminate].
  apply sort_keys_Ok in E. subst serials. now intros [= <-].
Qed.

Lemma repair_drift_digits (cases : dict) :
  Forall digit_key (keys cases) ->
  _repair_layout_drift cases
  = Ok (drift_loop (sorted_by_float (keys cases)) cases).
Proof.
  intros H. unfold _repair_layout_drift. now rewrite sort_keys_digits.
Qed.

Lemma redistribute_blobs_Ok (cases result : dict) :
  _azure_redistribute_blobs cases = Ok result ->
  result = redistribute_loop 0 (sorted_by_float (keys cases)) cases.
Proof.
  unfold _azure_redistribute_blobs.
  destruct (sort_keys (keys cases)) as [all_keys|e] eqn:E; [|discriminate].
  apply sort_keys_Ok in E. subst all_keys. now intros [= <-].
Qed.

Lemma segment_cases_azure_Ok (text : str) (cases : dict) :
  segment_cases_azure text = Ok cases ->
  azure_stitch (azure_blocks text) = Ok (azure_stitched (azure_blocks text))
  /\ cases = redistribute_loop 0
               (sorted_by_float (keys (azure_stitched (azure_blocks text))))
               (azure_stitched (azure_blocks text)).
Proof.
  unfold segment_cases_azure.
  destruct (azure_stitch (azure_blocks text)) as [stitched|e] eqn:E;
    [|discriminate].
  apply azure_stitch_Ok in E as [-> _]. cbn [bind]. intros H.
  split; [reflexivity | now apply redistribute_blobs_Ok].
Qed.

Lemma azure_keys_canonical (text : str) (cases : dict) :
  segment_cases_azure text = Ok cases -> keys_ok cases.
Proof.
  intros H. apply segment_cases_azure_Ok in H as [_ ->]. unfold keys_ok.
  rewrite redistribute_loop_keys by (intros k; apply In_sort_keys).
  apply azure_stitch_keys_canonical.
Qed.

(** *** What the merge law does not cover *)

(** Blob redistribution takes text out of a connected sub-case: case 1 is a
    stub, the block of 2.1 holds two Versus blocks, and the first of them
    goes to case 1. *)
Example azure_redistribution_moves_subcase_text :
  let text :=
    join [nl] (map lit [ "1 C.A. No. 1/2020"; "2 C.A. No. 2/2020";
                         "2.1 SLP(C) No. 3/2020"; "PET A"; "Versus"; "RESP A";
                         "PET B"; "Versus"; "RESP B" ]%string) in
  let block :=
    join [nl] (map lit [ "2.1 SLP(C) No. 3/2020"; "PET A"; "Versus"; "RESP A";
                         "PET B"; "Versus"; "RESP B" ]%string) in
  azure_blocks text = [lit "1 C.A. No. 1/2020"; lit "2 C.A. No. 2/2020"; block]
  /\ _tesseract_parse_serial block = Ok (Some (2%N, Some 1%N))
  /\ exists stitched cases,
       azure_stitch (azure_blocks text) = Ok stitched
       /\ segment_cases_azure text = Ok cases
       /\ contains block (get_default stitched (lit "2")) = true
       /\ contains block (get_default cases (lit "2")) = false.
Proof.
  cbv zeta. split; [vm_compute; reflexivity|]. split; [reflexivity|].
  eexists _, _.
  split; [vm_compute; reflexivity|]. split; [vm_compute; reflexivity|].
  split; vm_compute; reflexivity.
Qed.

(** In the Paddle pipeline a top-level block assigns its key, dropping a
    sub-case filed under it before. *)
Example paddle_parent_overwrites_subcase :
  segment_cases_paddle
    (join [nl] (map lit [ "4.1"; "SUB"; "4"; "PARENT" ]%string))
  = Ok [(lit "4", lit "4" ++ nl :: lit "PARENT")].
Proof. reflexivity. Qed.

(** * Further properties of the segmenter *)

(** ** The inline-serial test *)

Lemma serial_token_head (s d r : str) (sub : option str) :
  serial_token s = Some (d, r, sub) ->
  exists c s', s = c :: s' /\ is_digit c = true.
Proof.
  intros H. apply serial_token_ok in H as [[Hd Hl _] ->].
  destruct d as [|c d]; [simpl in Hl; lia|].
  simpl in Hd. apply andb_true_iff in Hd as [Hc _].
  destruct sub; simpl; eauto.
Qed.

Lemma ia_no_re_head (s : str) :
  ia_no_re s = true -> exists c s', s = c :: s' /\ is_digit c = false.
Proof.
  unfold ia_no_re.
  destruct (strip_prefix (lit "IA") s) as [r|] eqn:E1.
  - intros _. apply strip_prefix_app in E1. subst s.
    exists "I"%char. eexists. split; reflexivity.
  - destruct (strip_prefix (lit "No.") s) as [r|] eqn:E2; [|discriminate].
    intros _. apply strip_prefix_app in E2. subst s.
    exists "N"%char. eexists. split; reflexivity.
Qed.

(** X1: [_is_genuine_inline_serial] accepts exactly the strings the serial
    pattern (one to three digits, an optional dot and digits, blanks, a
    non-blank) matches.  The second test, for a leading [IA] or [No.], never
    rejects anything: a string the first pattern matches starts with a
    digit. *)
Theorem genuine_inline_serial_is_pattern (stripped : str) :
  _is_genuine_inline_serial stripped = inline_serial_re stripped.
Proof.
  unfold _is_genuine_inline_serial.
  destruct (inline_serial_re stripped) eqn:E; [|reflexivity].
  cbn [negb]. destruct (ia_no_re stripped) eqn:E2; [|reflexivity].
  exfalso. apply ia_no_re_head in E2 as (c & s' & -> & Hc).
  unfold inline_serial_re in E.
  destruct (serial_token (c :: s')) as [[[d r] sub]|] eqn:Et; [|discriminate].
  apply serial_token_head in Et as (c' & s'' & [= <- <-] & Hc').
  congruence.
Qed.

(** ** The inferred serials *)

Lemma str_range_length (a b : N) :
  List.length (str_range a b) = N.to_nat (b - a).
Proof. unfold str_range. now rewrite length_map, length_seq. Qed.

(** X2: whenever [_infer_serials] returns, it returns exactly [n_blocks]
    serials, one for each case block of the dump zone. *)
Theorem infer_serials_length (prev_inline : option N) (found : list str)
        (n_blocks : nat) (serials : list str) :
  _infer_serials prev_inline found n_blocks = Some serials ->
  List.length serials = n_blocks.
Proof.
  unfold _infer_serials. destruct found as [|f fs].
  - intros [= <-]. rewrite str_range_length. lia.
  - destruct (mains_of (f :: fs)) as [[|m ms]|]; try discriminate.
    set (complete := str_range _ _ ++ f :: fs).
    destruct (match complete with
              | [] => Some (or_zero prev_inline)
              | _ :: _ => main_of (last complete [])
              end) as [last_main|]; [|discriminate].
    intros [= <-].
    rewrite extend_loop_closed by lia.
    rewrite length_firstn, length_app, length_map, length_seq. lia.
Qed.

Lemma infer_serials_length_witness :
  List.length [lit "8"; lit "9"; lit "10"; lit "11"] = 4.
Proof.
  apply (infer_serials_length (Some 7%N) [lit "10"; lit "11"] 4).
  reflexivity.
Defined.

(** ** Blocks without a serial *)

Lemma parses_serial_of (b : str) : parses b = is_some (serial_of b).
Proof.
  unfold parses, serial_of, leading_serial.
  now destruct (_TESSERACT_LEADING_RE (lstrip b)) as [[d sub]|].
Qed.

Lemma lstrip_cons_space (c : ascii) (s : str) :
  is_space c = true -> lstrip (c :: s) = lstrip s.
Proof.
  intros H. unfold lstrip. simpl. rewrite H. now destruct (span is_space s).
Qed.

Lemma lstrip_app_stop (u v : str) (x : ascii) :
  is_space x = false -> lstrip (u ++ x :: v) = lstrip u ++ x :: v.
Proof.
  intros Hx. induction u as [|c u IH].
  - simpl. apply lstrip_id. exact Hx.
  - destruct (is_space c) eqn:Ec.
    + simpl app. now rewrite !lstrip_cons_space.
    + simpl app. rewrite !lstrip_id by exact Ec. reflexivity.
Qed.

Lemma lstrip_blank (s : str) : forallb is_space s = true -> lstrip s = [].
Proof. intros H. unfold lstrip. now rewrite span_all. Qed.

Lemma lstrip_app_blank (ws s : str) :
  forallb is_space ws = true -> lstrip (ws ++ s) = lstrip s.
Proof.
  induction ws as [|c ws IH]; [reflexivity|].
  simpl. intros H. apply andb_true_iff in H as [Hc Hws].
  rewrite lstrip_cons_space by exact Hc. now apply IH.
Qed.

Lemma rstrip_app_stop (a t : str) (x : ascii) :
  is_space x = false -> rstrip (a ++ x :: t) = a ++ x :: rstrip t.
Proof.
  intros Hx. unfold rstrip.
  rewrite rev_app_distr. simpl rev. rewrite <- app_assoc. simpl app.
  rewrite lstrip_app_stop by exact Hx.
  rewrite rev_app_distr. simpl rev. rewrite rev_involutive, <- app_assoc.
  reflexivity.
Qed.

Lemma rstrip_prefix (t : str) : exists w, t = rstrip t ++ w.
Proof.
  unfold rstrip, lstrip. exists (rev (fst (span is_space (rev t)))).
  rewrite <- rev_app_distr, span_app. now rewrite rev_involutive.
Qed.

Lemma rstrip_blank (s : str) : forallb is_space s = true -> rstrip s = [].
Proof.
  intros H. unfold rstrip. rewrite lstrip_blank; [reflexivity|].
  now rewrite forallb_rev.
Qed.

Lemma strip_blank (s : str) : forallb is_space s = true -> strip s = [].
Proof. intros H. unfold strip. now rewrite lstrip_blank. Qed.

Lemma startswith_app (l s w : str) :
  startswith s l = true -> startswith (s ++ w) l = true.
Proof.
  unfold startswith. revert s.
  induction l as [|x l IH]; intros s; [reflexivity|].
  destruct s as [|c s]; [discriminate|].
  simpl. destruct (ch_eqb x c); [apply IH | discriminate].
Qed.

Lemma starts_no_app (s w : str) :
  starts_no s = true -> starts_no (s ++ w) = true.
Proof.
  unfold starts_no. intros H.
  apply orb_true_iff in H as [H|H]; [apply orb_true_iff in H as [H|H]|];
    rewrite (startswith_app _ _ w H); now rewrite ?orb_true_r.
Qed.

Lemma boundary_open_not_space (c : ascii) :
  is_boundary_open c = true -> is_space c = false.
Proof. destruct c as [[] [] [] [] [] [] [] []]; vm_compute; congruence. Qed.

Lemma boundary_open_not_digit (c : ascii) :
  is_boundary_open c = true -> is_digit c = false.
Proof. destruct c as [[] [] [] [] [] [] [] []]; vm_compute; congruence. Qed.

Lemma digit_not_nl (c : ascii) : is_digit c = true -> not_nl c = true.
Proof. destruct c as [[] [] [] [] [] [] [] []]; vm_compute; congruence. Qed.

Lemma not_nl_eqb (c : ascii) : not_nl c = true -> ch_eqb c nl = false.
Proof. unfold not_nl. now destruct (ch_eqb c nl). Qed.

Lemma token_text_not_nl (d : str) (sub : option str) :
  token_ok d sub -> forallb not_nl (token_text d sub) = true.
Proof.
  intros [Hd _ Hsub]. unfold token_text.
  assert (Hd' : forallb not_nl d = true)
    by (apply (forallb_impl is_digit); [apply digit_not_nl | exact Hd]).
  destruct sub as [ds|]; [|exact Hd'].
  destruct (Hsub ds eq_refl) as [_ Hds].
  rewrite forallb_app, Hd'. simpl.
  apply (forallb_impl is_digit); [apply digit_not_nl | exact Hds].
Qed.

Lemma token_text_cons (d : str) (sub : option str) :
  token_ok d sub ->
  exists c t, token_text d sub = c :: t /\ is_digit c = true.
Proof.
  intros [Hd Hl _]. destruct d as [|c d]; [simpl in Hl; lia|].
  simpl in Hd. apply andb_true_iff in Hd as [Hc _].
  destruct sub; simpl; eauto.
Qed.

(** Reading a token back when a blank follows it. *)
Lemma serial_token_blank (d : str) (sub : option str) (w : ascii) (r : str) :
  token_ok d sub -> is_space w = true ->
  serial_token (token_text d sub ++ w :: r) = Some (d, w :: r, sub).
Proof.
  intros [Hd Hl Hsub] Hw.
  assert (Hwd : is_digit w = false).
  { destruct (is_digit w) eqn:E; [|reflexivity].
    apply digit_not_space in E. congruence. }
  assert (Hdot : ch_eqb w "."%char = false).
  { destruct (ch_eqb w "."%char) eqn:E; [|reflexivity].
    apply ch_eqb_eq in E. subst w. discriminate Hw. }
  assert (Hlen : (1 <=? List.length d) && (List.length d <=? 3) = true)
    by (apply andb_true_iff; split; apply Nat.leb_le; lia).
  unfold serial_token, token_text.
  destruct sub as [ds|].
  - destruct (Hsub ds eq_refl) as [Hne Hds].
    rewrite <- app_assoc, <- app_comm_cons.
    rewrite (span_exact is_digit d ("."%char :: ds ++ w :: r) Hd eq_refl).
    rewrite Hlen.
    change (ch_eqb "." ".") with true. cbv iota.
    rewrite (span_exact is_digit ds (w :: r) Hds Hwd).
    destruct ds; [contradiction|reflexivity].
  - rewrite (span_exact is_digit d (w :: r) Hd Hwd).
    rewrite Hlen, Hdot. reflexivity.
Qed.

Lemma serial_token_not_digit (x : ascii) (r : str) :
  is_digit x = false -> serial_token (x :: r) = None.
Proof. intros H. unfold serial_token. simpl. now rewrite H. Qed.

(** What holds at a position the split cuts at. *)
Lemma serial_boundary_shape (s : str) :
  serial_boundary s = true ->
  exists ws0 d sub ws x rest,
    s = ws0 ++ token_text d sub ++ ws ++ x :: rest
    /\ forallb is_space ws0 = true /\ token_ok d sub
    /\ forallb is_space ws = true /\ ws <> []
    /\ is_boundary_open x = true /\ starts_no (x :: rest) = false.
Proof.
  unfold serial_boundary, lstrip.
  pose proof (span_app is_space s) as Hs.
  pose proof (span_fst_all is_space s) as Hws0.
  destruct (span is_space s) as [ws0 r0]; cbn [fst snd] in *.
  destruct (serial_token r0) as [[[d r] sub]|] eqn:Et; [|discriminate].
  apply serial_token_ok in Et as [Hok Hr0].
  pose proof (span_app is_space r) as Hr.
  pose proof (span_fst_all is_space r) as Hws.
  destruct (span is_space r) as [ws r']; cbn [fst snd] in *.
  intros H. apply andb_true_iff in H as [H Hx].
  apply andb_true_iff in H as [Hne Hno].
  destruct r' as [|x rest]; [discriminate|].
  exists ws0, d, sub, ws, x, rest.
  split; [now rewrite <- Hs, Hr0, <- Hr|].
  split; [exact Hws0|]. split; [exact Hok|]. split; [exact Hws|].
  split; [intros ->; discriminate Hne|].
  split; [exact Hx|]. now destruct (starts_no (x :: rest)).
Qed.

Lemma serial_boundary_blank_stop (ws : str) (x : ascii) (rest : str) :
  forallb is_space ws = true -> is_boundary_open x = true ->
  serial_boundary (ws ++ x :: rest) = false.
Proof.
  intros Hws Hx. unfold serial_boundary.
  rewrite lstrip_app_blank by exact Hws.
  rewrite lstrip_id by (apply boundary_open_not_space, Hx).
  now rewrite serial_token_not_digit by (apply boundary_open_not_digit, Hx).
Qed.

Lemma head_piece_prefix (s : str) : forall bol, exists w, s = head_piece bol s ++ w.
Proof.
  induction s as [|c s IH]; intros bol; [now exists []|].
  cbn [head_piece].
  destruct ((bol || ch_eqb c nl) && serial_boundary (c :: s)).
  - now exists (c :: s).
  - destruct (IH (ch_eqb c nl)) as [w Hw]. exists w. simpl. now rewrite <- Hw.
Qed.

Lemma head_piece_not_nl (t u : str) :
  forallb not_nl t = true ->
  head_piece false (t ++ u) = t ++ head_piece false u.
Proof.
  induction t as [|c t IH]; [reflexivity|].
  simpl forallb. intros H. apply andb_true_iff in H as [Hc Ht].
  simpl app. cbn [head_piece].
  rewrite (not_nl_eqb c Hc). cbn [orb andb]. now rewrite IH.
Qed.

Lemma head_piece_blank_stop (ws : str) (x : ascii) (rest : str) :
  forallb is_space ws = true -> is_boundary_open x = true ->
  forall bol,
    head_piece bol (ws ++ x :: rest)
    = ws ++ x :: head_piece (ch_eqb x nl) rest.
Proof.
  intros Hws Hx. induction ws as [|c ws IH]; intros bol.
  - simpl app. cbn [head_piece].
    pose proof (serial_boundary_blank_stop [] x rest eq_refl Hx) as Hb.
    simpl app in Hb. rewrite Hb. now rewrite andb_false_r.
  - simpl in Hws. apply andb_true_iff in Hws as [Hc Hws].
    simpl app. cbn [head_piece].
    assert (Hb : serial_boundary (c :: ws ++ x :: rest) = false).
    { apply (serial_boundary_blank_stop (c :: ws) x rest); [|exact Hx].
      simpl. now rewrite Hc. }
    rewrite Hb, andb_false_r. now rewrite IH.
Qed.

(** From a serial on, the first piece is empty (a cut right there) or runs
    past the serial, the blanks after it and the character after those. *)
Lemma head_piece_serial (d : str) (sub : option str) (ws : str) (x : ascii)
      (rest : str) (bol : bool) :
  token_ok d sub -> forallb is_space ws = true -> is_boundary_open x = true ->
  let t := token_text d sub ++ ws ++ x :: rest in
  head_piece bol t = []
  \/ head_piece bol t
     = token_text d sub ++ ws ++ x :: head_piece (ch_eqb x nl) rest.
Proof.
  intros Hok Hws Hx t. subst t.
  pose proof (token_text_not_nl d sub Hok) as Hnl.
  destruct (token_text_cons d sub Hok) as (c & tt & Ht & Hc).
  rewrite Ht in *. simpl in Hnl. apply andb_true_iff in Hnl as [Hcn Hnl].
  simpl app. cbn [head_piece].
  destruct ((bol || ch_eqb c nl) && serial_boundary (c :: tt ++ ws ++ x :: rest));
    [now left|right].
  rewrite (not_nl_eqb c Hcn), head_piece_not_nl by exact Hnl.
  replace (head_piece false (ws ++ x :: rest))
    with (ws ++ x :: head_piece (ch_eqb x nl) rest)
    by (symmetry; now apply head_piece_blank_stop).
  reflexivity.
Qed.

Lemma head_piece_blanks (ws t : str) :
  forallb is_space ws = true ->
  forall bol,
    forallb is_space (head_piece bol (ws ++ t)) = true
    \/ exists bol', head_piece bol (ws ++ t) = ws ++ head_piece bol' t.
Proof.
  induction ws as [|c ws IH]; intros Hws bol.
  - right. now exists bol.
  - simpl in Hws. apply andb_true_iff in Hws as [Hc Hws].
    simpl app. cbn [head_piece].
    destruct ((bol || ch_eqb c nl) && serial_boundary (c :: ws ++ t));
      [now left|].
    destruct (IH Hws (ch_eqb c nl)) as [H|[bol' H]].
    + left. simpl. now rewrite Hc, H.
    + right. exists bol'. now rewrite H.
Qed.

(** A piece cut off at a serial boundary is blank or parses to a serial. *)
Lemma piece_after_cut (c : ascii) (s : str) :
  serial_boundary (c :: s) = true ->
  let piece := c :: head_piece (ch_eqb c nl) s in
  strip piece = [] \/ parses (strip piece) = true.
Proof.
  intros Hb piece.
  apply serial_boundary_shape in Hb
    as (ws0 & d & sub & ws & x & rest & Hs & Hws0 & Hok & Hws & Hne & Hx & Hno).
  assert (Hform : forallb is_space piece = true
                  \/ piece = ws0 ++ token_text d sub ++ ws
                             ++ x :: head_piece (ch_eqb x nl) rest).
  { subst piece. destruct ws0 as [|w ws0].
    - simpl app in Hs.
      pose proof (token_text_not_nl d sub Hok) as Hnl.
      destruct (token_text_cons d sub Hok) as (c' & tt & Ht & Hc).
      rewrite Ht in *. simpl app in Hs. injection Hs as <- ->.
      simpl in Hnl. apply andb_true_iff in Hnl as [Hcn Hnl].
      right. rewrite (not_nl_eqb c Hcn), head_piece_not_nl by exact Hnl.
      rewrite head_piece_blank_stop by assumption. reflexivity.
    - simpl app in Hs. injection Hs as <- ->.
      simpl in Hws0. apply andb_true_iff in Hws0 as [Hw Hws0].
      destruct (head_piece_blanks ws0 (token_text d sub ++ ws ++ x :: rest)
                                  Hws0 (ch_eqb c nl)) as [H|[bol' H]].
      + left. simpl. now rewrite Hw, H.
      + rewrite H.
        destruct (head_piece_serial d sub ws x rest bol' Hok Hws Hx) as [H'|H'];
          rewrite H'.
        * left. simpl. rewrite Hw, app_nil_r. exact Hws0.
        * right. reflexivity. }
  destruct Hform as [Hblank|Hpiece]; [left; now apply strip_blank|right].
  rewrite Hpiece. clear Hpiece Hs piece.
  set (tail := head_piece (ch_eqb x nl) rest).
  pose proof (boundary_open_not_space x Hx) as Hxs.
  destruct (token_text_cons d sub Hok) as (c' & tt & Ht & Hc').
  assert (Hstrip : strip (ws0 ++ token_text d sub ++ ws ++ x :: tail)
                   = token_text d sub ++ ws ++ x :: rstrip tail).
  { unfold strip. rewrite lstrip_app_blank by exact Hws0.
    rewrite lstrip_id by (rewrite Ht; simpl; now apply digit_not_space).
    rewrite app_assoc, rstrip_app_stop by exact Hxs.
    now rewrite <- app_assoc. }
  rewrite Hstrip.
  rewrite parses_serial_of. unfold serial_of. rewrite leading_serial_eq.
  rewrite lstrip_id by (rewrite Ht; simpl; now apply digit_not_space).
  destruct ws as [|w ws]; [contradiction|].
  simpl in Hws. apply andb_true_iff in Hws as [Hw Hws].
  simpl app. rewrite serial_token_blank by assumption.
  change (w :: ws ++ x :: rstrip tail) with ((w :: ws) ++ x :: rstrip tail).
  rewrite (span_exact is_space (w :: ws) (x :: rstrip tail));
    [|simpl; now rewrite Hw|exact Hxs].
  assert (Hno' : starts_no (x :: rstrip tail) = false).
  { destruct (starts_no (x :: rstrip tail)) eqn:E; [|reflexivity].
    destruct (rstrip_prefix tail) as [w1 Hw1].
    destruct (head_piece_prefix rest (ch_eqb x nl)) as [w2 Hw2].
    fold tail in Hw2.
    apply (starts_no_app _ (w1 ++ w2)) in E.
    simpl app in E. rewrite app_assoc, <- Hw1, <- Hw2 in E. congruence. }
  rewrite Hno'. reflexivity.
Qed.

Lemma split_serials_go_head (s : str) :
  forall bol, exists ps, split_serials_go bol s = head_piece bol s :: ps.
Proof.
  induction s as [|c s IH]; intros bol; [now exists []|].
  cbn [split_serials_go head_piece].
  destruct (IH (ch_eqb c nl)) as [ps Hps]. rewrite Hps. cbn [cons_first].
  destruct ((bol || ch_eqb c nl) && serial_boundary (c :: s)); eauto.
Qed.

Lemma split_serials_go_tail (s : str) :
  forall bol,
    Forall (fun p => strip p = [] \/ parses (strip p) = true)
           (tl (split_serials_go bol s)).
Proof.
  induction s as [|c s IH]; intros bol; [constructor|].
  cbn [split_serials_go].
  specialize (IH (ch_eqb c nl)).
  destruct (split_serials_go_head s (ch_eqb c nl)) as [ps Hps].
  rewrite Hps in *. cbn [cons_first tl] in *.
  destruct ((bol || ch_eqb c nl) && serial_boundary (c :: s)) eqn:E;
    cbn [tl]; [|exact IH].
  constructor; [|exact IH].
  apply andb_true_iff in E as [_ E]. now apply piece_after_cut.
Qed.

Lemma candidate_tail_parses (pieces : list str) :
  Forall (fun p => strip p = [] \/ parses (strip p) = true) pieces ->
  Forall (fun b => parses b = true) (filter nonempty (map strip pieces)).
Proof.
  induction 1 as [|p ps Hp _ IH]; [constructor|].
  cbn [map filter]. destruct (nonempty (strip p)) eqn:E; [|exact IH].
  constructor; [|exact IH].
  destruct Hp as [Hp|Hp]; [|exact Hp]. rewrite Hp in E. discriminate E.
Qed.

Lemma filter_all {A : Type} (p : A -> bool) (l : list A) :
  Forall (fun x => p x = true) l -> filter p l = l.
Proof.
  induction 1 as [|x l Hx _ IH]; [reflexivity|].
  simpl. now rewrite Hx, IH.
Qed.

Lemma parses_None (b : str) :
  parses b = false -> serial_of b = None.
Proof. rewrite parses_serial_of. now destruct (serial_of b). Qed.

(** X3: of the candidate blocks the serial-boundary split yields, only the
    first can lack a serial: every later block starts with one that parses.
    So the branch that appends a serial-less block to the last case never
    runs; both the Tesseract and the Azure stitching loop build the mapping
    they would build with the serial-less blocks left out. *)
Theorem orphan_block_only_first (text : str) :
  Forall (fun b => parses b = true) (tl (candidate_blocks text))
  /\ tesseract_merge (candidate_blocks text)
     = tesseract_merge (filter parses (candidate_blocks text))
  /\ azure_stitch (candidate_blocks text)
     = azure_stitch (filter parses (candidate_blocks text)).
Proof.
  assert (Htail : Forall (fun b => parses b = true) (tl (candidate_blocks text))).
  { unfold candidate_blocks, _TESSERACT_SPLIT_RE_split.
    pose proof (split_serials_go_tail text true) as H.
    destruct (split_serials_go_head text true) as [ps Hps].
    rewrite Hps in *. cbn [tl map filter] in *.
    apply candidate_tail_parses in H.
    destruct (nonempty (strip (head_piece true text))); cbn [tl]; [exact H|].
    destruct (filter nonempty (map strip ps)); [constructor|].
    cbn [tl]. now inversion H. }
  split; [exact Htail|].
  destruct (candidate_blocks text) as [|b bs]; [split; reflexivity|].
  cbn [tl] in Htail. cbn [filter].
  rewrite (filter_all parses bs Htail).
  destruct (parses b) eqn:Eb; [split; reflexivity|].
  apply parses_None, parse_serial_None in Eb.
  assert (Ho : forall x, In x [b] -> _tesseract_parse_serial x = Ok None)
    by (intros x [<-|[]]; exact Eb).
  split.
  - exact (tesseract_merge_orphans [b] bs Ho).
  - exact (azure_stitch_orphans [b] bs Ho).
Qed.

(** ** Printing and reading numbers *)

Lemma fold_digits_acc (u : Decimal.uint) :
  forall acc : positive,
    fold_left int_step (digits_of u) (Npos acc) = Npos (Pos.of_uint_acc u acc).
Proof.
  unfold digits_of.
  induction u as [|u IH|u IH|u IH|u IH|u IH|u IH|u IH|u IH|u IH|u IH];
    intros acc; [reflexivity|..];
    cbn [DecimalString.NilEmpty.string_of_uint list_ascii_of_string
         fold_left Pos.of_uint_acc];
    rewrite <- IH; f_equal; unfold int_step;
    match goal with
    | |- context [digit_val ?c] =>
        let v := eval vm_compute in (digit_val c) in
        change (digit_val c) with v
    end; lia.
Qed.

Lemma fold_digits (u : Decimal.uint) :
  fold_left int_step (digits_of u) 0%N = N.of_uint u.
Proof.
  unfold digits_of, N.of_uint.
  induction u as [|u IH|u IH|u IH|u IH|u IH|u IH|u IH|u IH|u IH|u IH];
    [reflexivity|exact IH|..];
    cbn [DecimalString.NilEmpty.string_of_uint list_ascii_of_string
         fold_left Pos.of_uint];
    rewrite <- (fold_digits_acc u); reflexivity.
Qed.

(** [int(str(n)) = n]. *)
Lemma int_of_digits_str_of_N (n : N) : int_of_digits (str_of_N n) = n.
Proof.
  unfold int_of_digits, str_of_N.
  change (fold_left int_step (digits_of (N.to_uint n)) 0%N = n).
  rewrite fold_digits. apply DecimalN.Unsigned.of_to.
Qed.

Lemma digit_val_le_9 (c : ascii) : is_digit c = true -> (digit_val c <= 9)%N.
Proof.
  intros H. apply N.leb_le. revert H.
  destruct c as [[] [] [] [] [] [] [] []]; vm_compute; congruence.
Qed.

Lemma int_of_digits_bound (d : str) :
  forallb is_digit d = true ->
  (int_of_digits d < 10 ^ N.of_nat (List.length d))%N.
Proof.
  unfold int_of_digits.
  assert (H : forall acc,
             forallb is_digit d = true ->
             (fold_left (fun a c => 10 * a + digit_val c) d acc
              < (acc + 1) * 10 ^ N.of_nat (List.length d))%N).
  { induction d as [|c d IH]; intros acc Hd.
    - simpl. lia.
    - simpl forallb in Hd. apply andb_true_iff in Hd as [Hc Hd].
      cbn [fold_left]. specialize (IH (10 * acc + digit_val c)%N Hd).
      apply digit_val_le_9 in Hc.
      replace (N.of_nat (List.length (c :: d)))
        with (N.succ (N.of_nat (List.length d))) by (simpl List.length; lia).
      rewrite N.pow_succ_r'.
      eapply N.lt_le_trans; [exact IH|]. nia. }
  intros Hd. specialize (H 0%N Hd). now rewrite N.mul_1_l in H.
Qed.

Lemma token_main_below_1000 (d : str) (sub : option str) :
  token_ok d sub -> (int_of_digits d < 1000)%N.
Proof.
  intros [Hd Hl _]. pose proof (int_of_digits_bound d Hd) as H.
  eapply N.lt_le_trans; [exact H|].
  change 1000%N with (10 ^ 3)%N. apply N.pow_le_mono_r; lia.
Qed.

Lemma parsed_main_below_1000 (b : str) (main : N) (sub : option N) :
  serial_of b = Some (main, sub) -> (main < 1000)%N.
Proof.
  unfold serial_of. rewrite leading_serial_eq.
  destruct (serial_token (lstrip b)) as [[[d r] s]|] eqn:Et; [|discriminate].
  destruct (span is_space r) as [ws r'].
  destruct (_ && _); [|discriminate].
  intros [= <- _]. apply serial_token_ok in Et as [Hok _].
  exact (token_main_below_1000 d s Hok).
Qed.

(** ** The keys of the mappings, once more *)

Lemma Forall_keys_set (P : str -> Prop) (d : dict) (k v : str) :
  P k -> Forall P (keys d) -> Forall P (keys (set d k v)).
Proof.
  intros Hk Hd. rewrite keys_set. destruct (mem d k); [exact Hd|].
  apply Forall_app. split; [exact Hd | now constructor].
Qed.

Lemma tesseract_step_serial_keys (st : dict * option str) (block : str) :
  Forall serial_key (keys (fst st)) ->
  Forall serial_key (keys (fst (tesseract_turn st block))).
Proof.
  destruct st as [cases last_key]. unfold tesseract_turn, tesseract_update. cbn [fst]. intros H.
  destruct (serial_of block) as [[main sub]|] eqn:E.
  - apply parsed_main_below_1000 in E.
    assert (Hk : serial_key (str_of_N main)) by (now exists main).
    destruct sub; cbn [fst]; now apply Forall_keys_set.
  - destruct last_key as [k|]; [|exact H].
    destruct (nonempty k); cbn [fst]; [|exact H].
    now rewrite keys_append_value.
Qed.

Lemma azure_step_serial_keys (st : dict * option str) (block : str) :
  Forall serial_key (keys (fst st)) ->
  Forall serial_key (keys (fst (azure_step st (classified block)))).
Proof.
  destruct st as [cases last_key]. unfold azure_step, classified. cbn [fst].
  intros H.
  destruct (serial_of block) as [[main sub]|] eqn:E.
  - apply parsed_main_below_1000 in E.
    assert (Hk : serial_key (str_of_N main)) by (now exists main).
    destruct sub; destruct (mem cases (str_of_N main)); cbn [fst];
      try (now apply Forall_keys_set); try (now rewrite keys_append_value).
    destruct (startswith _ _); cbn [fst];
      [now apply Forall_keys_set | now rewrite keys_append_value].
  - destruct last_key as [k|]; [|exact H].
    destruct (nonempty k); cbn [fst]; [|exact H].
    now rewrite keys_append_value.
Qed.

Lemma fold_serial_keys {B : Type}
      (step : dict * option str -> B -> dict * option str)
      (l : list B) (st : dict * option str) :
  (forall st b, Forall serial_key (keys (fst st)) ->
                Forall serial_key (keys (fst (step st b)))) ->
  Forall serial_key (keys (fst st)) ->
  Forall serial_key (keys (fst (fold_left step l st))).
Proof.
  intros Hstep. revert st. induction l as [|b l IH]; intros st H; simpl.
  - exact H.
  - apply IH. now apply Hstep.
Qed.

Lemma tesseract_serial_keys (text : str) (cases : dict) :
  segment_cases_tesseract text = Ok cases -> Forall serial_key (keys cases).
Proof.
  unfold segment_cases_tesseract. intros H.
  destruct (tesseract_blocks text) as [blocks|e]; [|discriminate].
  cbn [bind] in H. apply tesseract_merge_Ok in H as [-> _].
  unfold tesseract_merged.
  apply fold_serial_keys; [apply tesseract_step_serial_keys | constructor].
Qed.

Lemma azure_serial_keys (text : str) (cases : dict) :
  segment_cases_azure text = Ok cases -> Forall serial_key (keys cases).
Proof.
  intros Hc. apply segment_cases_azure_Ok in Hc as [_ ->].
  rewrite redistribute_loop_keys by (intros k; apply In_sort_keys).
  unfold azure_stitched.
  assert (H : forall l st,
             Forall serial_key (keys (fst st)) ->
             Forall serial_key
                    (keys (fst (fold_left azure_step (map classified l) st)))).
  { induction l as [|b l IH]; intros st Hst; [exact Hst|].
    cbn [map fold_left]. apply IH. now apply azure_step_serial_keys. }
  apply H. constructor.
Qed.

(** X4: with the Tesseract or the Azure engine, the keys of the returned
    mapping are pairwise distinct, and each is the decimal form of a number
    below 1000: no sign, no dot, no leading zero, at most three digits. *)
Theorem serial_keys_below_1000 (text engine : str) (cases : dict) :
  engine <> lit "paddle" ->
  segment_cases text engine = Ok cases ->
  NoDup (keys cases) /\ Forall serial_key (keys cases).
Proof.
  intros Hne. unfold segment_cases.
  destruct (str_eqb engine (lit "tesseract")).
  { intros H. split; [exact (proj1 (tesseract_keys_canonical text cases H))|].
    exact (tesseract_serial_keys text cases H). }
  destruct (str_eqb engine (lit "azure")).
  { intros H. split; [exact (proj1 (azure_keys_canonical text cases H))|].
    exact (azure_serial_keys text cases H). }
  destruct (str_eqb engine (lit "paddle")) eqn:E; [|discriminate].
  apply str_eqb_eq in E. contradiction.
Qed.

Lemma serial_keys_below_1000_witness :
  NoDup (keys [(lit "12", lit "12 C.A. No. 5/2020")])
  /\ Forall serial_key (keys [(lit "12", lit "12 C.A. No. 5/2020")]).
Proof.
  apply (serial_keys_below_1000 (lit "12 C.A. No. 5/2020") (lit "azure")).
  - discriminate.
  - vm_compute. reflexivity.
Defined.

Lemma serial_number_shape (s serial r : str) :
  serial_number s = Some (serial, r) ->
  exists d sub,
    serial = token_text d sub /\ digit_key d
    /\ (sub = None -> contains (lit ".") serial = false).
Proof.
  unfold serial_number.
  pose proof (span_fst_all is_digit s) as Hd.
  destruct (span is_digit s) as [d r0]; cbn [fst] in Hd.
  destruct d as [|c d]; [discriminate|].
  assert (Hkey : digit_key (c :: d)) by (split; [discriminate | exact Hd]).
  assert (Hnodot : contains (lit ".") (c :: d) = false).
  { unfold contains.
    assert (H : forall x, forallb is_digit x = true -> find (lit ".") x = None).
    { induction x as [|a x IH]; [reflexivity|].
      simpl forallb. intros Hx. apply andb_true_iff in Hx as [Ha Hx].
      change (lit ".") with ["."%char] in *.
      cbn [find]. rewrite startswith_char.
      replace (ch_eqb "." a) with false.
      - now rewrite (IH Hx).
      - symmetry. rewrite ch_eqb_sym.
        pose proof (digit_not_dot a Ha) as Hn. unfold not_dot in Hn.
        now destruct (ch_eqb a "."). }
    now rewrite (H _ Hd). }
  destruct r0 as [|x r0].
  { intros [= <- <-]. exists (c :: d), None. auto. }
  destruct (ch_eqb x "."%char).
  - destruct (span is_digit r0) as [ds r1]. destruct ds as [|y ds].
    + intros [= <- <-]. exists (c :: d), None. auto.
    + intros [= <- <-]. exists (c :: d), (Some (y :: ds)).
      split; [reflexivity|]. split; [exact Hkey|]. discriminate.
  - intros [= <- <-]. exists (c :: d), None. auto.
Qed.

Lemma SERIAL_PATTERN_shape (prev : option ascii) (s serial : str) (l : nat) :
  SERIAL_PATTERN prev s = Some (l, serial) ->
  exists d sub,
    serial = token_text d sub /\ digit_key d
    /\ (sub = None -> contains (lit ".") serial = false).
Proof.
  unfold SERIAL_PATTERN. destruct (at_bol prev); [|discriminate].
  destruct (span is_space s) as [ws r].
  destruct (serial_number r) as [[serial' r']|] eqn:E; [|discriminate].
  destruct (serial_tail r'); [|discriminate].
  intros [= _ <-]. exact (serial_number_shape _ _ _ E).
Qed.

Lemma paddle_blocks_In (text serial block : str) (ms : list (nat * nat * str)) :
  In (serial, block) (paddle_blocks text ms) ->
  exists p l, In (p, l, serial) ms.
Proof.
  induction ms as [|[[p l] s] ms IH]; [contradiction|].
  cbn [paddle_blocks]. intros [[= <- _]|H].
  - exists p, l. now left.
  - destruct (IH H) as (p' & l' & Hin). exists p', l'. now right.
Qed.

Lemma paddle_step_keys (cases : dict) (serial block : str) (d : str)
      (sub : option str) :
  serial = token_text d sub -> digit_key d ->
  (sub = None -> contains (lit ".") serial = false) ->
  NoDup (keys cases) /\ Forall digit_key (keys cases) ->
  NoDup (keys (paddle_step cases (serial, block)))
  /\ Forall digit_key (keys (paddle_step cases (serial, block))).
Proof.
  intros Hs Hd Hnone [Hnd Hall]. unfold paddle_step.
  destruct (contains (lit ".") serial) eqn:Ec.
  - assert (Hb : before_dot serial = d)
      by (rewrite Hs; apply before_dot_token, Hd).
    rewrite Hb. destruct (mem cases d).
    + now rewrite keys_append_value.
    + split; [now apply NoDup_keys_set | now apply Forall_keys_set].
  - assert (Hsd : serial = d).
    { destruct sub as [ds|]; [|exact Hs]. exfalso.
      assert (H : contains (lit ".") serial = true).
      { rewrite Hs. unfold contains, token_text.
        assert (H : forall x, exists k,
                     find (lit ".") (x ++ "."%char :: ds) = Some k).
        { induction x as [|a x [k IH]].
          - exists 0. reflexivity.
          - simpl app. cbn [find].
            destruct (startswith _ _); [now exists 0|].
            rewrite IH. now exists (S k). }
        destruct (H d) as [k Hk]. now rewrite Hk. }
      congruence. }
    rewrite Hsd.
    split; [now apply NoDup_keys_set | now apply Forall_keys_set].
Qed.

Lemma drift_step_keys (cases : dict) (current next : str) :
  In current (keys cases) -> In next (keys cases) ->
  keys (drift_step cases current next) = keys cases.
Proof.
  intros Hc Hn. unfold drift_step.
  destruct (parent_portion _) as [parent connected].
  destruct (last_opener parent) as [start|]; [|reflexivity].
  destruct (past_60_percent _ _); [|reflexivity].
  rewrite set_present_keys; rewrite set_present_keys; auto.
Qed.

Lemma drift_loop_keys (serials : list str) :
  forall cases,
    (forall k, In k serials -> In k (keys cases)) ->
    keys (drift_loop serials cases) = keys cases.
Proof.
  induction serials as [|current rest IH]; intros cases H; [reflexivity|].
  destruct rest as [|next rest]; [reflexivity|].
  change (drift_loop (current :: next :: rest) cases)
    with (drift_loop (next :: rest) (drift_step cases current next)).
  assert (Hk : keys (drift_step cases current next) = keys cases).
  { apply drift_step_keys; apply H; [now left | right; now left]. }
  rewrite IH; [exact Hk|].
  intros k Hin. rewrite Hk. apply H. now right.
Qed.

Lemma paddle_initial_keys (text : str) :
  NoDup (keys (paddle_initial text))
  /\ Forall digit_key (keys (paddle_initial text)).
Proof.
  unfold paddle_initial.
  assert (Hms : forall serial block,
             In (serial, block)
                (paddle_blocks text (finditer SERIAL_PATTERN text)) ->
             exists d sub,
               serial = token_text d sub /\ digit_key d
               /\ (sub = None -> contains (lit ".") serial = false)).
  { intros serial block Hin.
    apply paddle_blocks_In in Hin as (p & l & Hin).
    apply scan_In_match in Hin as (_ & prev & Hm).
    exact (SERIAL_PATTERN_shape _ _ _ _ Hm). }
  revert Hms.
  generalize (paddle_blocks text (finditer SERIAL_PATTERN text)) as blocks.
  assert (H : forall blocks cases,
             NoDup (keys cases) /\ Forall digit_key (keys cases) ->
             (forall serial block,
                 In (serial, block) blocks ->
                 exists d sub,
                   serial = token_text d sub /\ digit_key d
                   /\ (sub = None -> contains (lit ".") serial = false)) ->
             NoDup (keys (fold_left paddle_step blocks cases))
             /\ Forall digit_key (keys (fold_left paddle_step blocks cases))).
  { induction blocks as [|[serial block] blocks IH]; intros cases Hc Hb;
      [exact Hc|].
    cbn [fold_left]. apply IH.
    - destruct (Hb serial block (or_introl eq_refl)) as (d & sub & H1 & H2 & H3).
      now apply (paddle_step_keys cases serial block d sub).
    - intros s b Hin. apply (Hb s b). now right. }
  intros blocks Hb. apply H; [split; constructor | exact Hb].
Qed.

(** The Paddle pipeline always returns: every key it wrote is a run of
    digits, which [float] accepts. *)
Lemma segment_cases_paddle_returns (text : str) :
  segment_cases_paddle text
  = Ok (match finditer SERIAL_PATTERN text with
        | [] => []
        | _ :: _ =>
            drift_loop (sorted_by_float (keys (paddle_initial text)))
                       (paddle_initial text)
        end).
Proof.
  unfold segment_cases_paddle.
  destruct (finditer SERIAL_PATTERN text); [reflexivity|].
  apply repair_drift_digits, paddle_initial_keys.
Qed.

Lemma paddle_digit_keys (text : str) (cases : dict) :
  segment_cases_paddle text = Ok cases ->
  NoDup (keys cases) /\ Forall digit_key (keys cases).
Proof.
  rewrite segment_cases_paddle_returns. intros [= <-].
  destruct (finditer SERIAL_PATTERN text); [split; constructor|].
  rewrite drift_loop_keys by (intros k; apply In_sort_keys).
  apply paddle_initial_keys.
Qed.

(** X5: the Paddle pipeline returns a mapping whose keys are pairwise
    distinct, each a non-empty run of decimal digits: a sub-serial such as
    4.1 never becomes a key, only its main part does. *)
Theorem paddle_keys_digits (text : str) :
  exists cases,
    segment_cases_paddle text = Ok cases
    /\ NoDup (keys cases) /\ Forall digit_key (keys cases).
Proof.
  eexists. split; [apply segment_cases_paddle_returns|].
  apply (paddle_digit_keys text), segment_cases_paddle_returns.
Qed.

(** ** Blob redistribution and drift repair on mappings they leave alone *)

Lemma take_stubs_all (result : dict) (ks : list str) :
  (forall k, In k ks -> is_stub result k = true) -> take_stubs result ks = ks.
Proof.
  induction ks as [|k ks IH]; intros H; [reflexivity|].
  cbn [take_stubs]. rewrite (H k (or_introl eq_refl)).
  rewrite IH; [reflexivity|]. intros k' Hk'. apply H. now right.
Qed.

Lemma redistribute_loop_no_stub (ks : list str) (result : dict) :
  (forall k, In k ks -> is_stub result k = false) ->
  redistribute_loop 0 ks result = result.
Proof.
  induction ks as [|k ks IH]; intros H; [reflexivity|].
  cbn [redistribute_loop]. rewrite (H k (or_introl eq_refl)). cbn [negb].
  apply IH. intros k' Hk'. apply H. now right.
Qed.

Lemma redistribute_loop_all_stubs (ks : list str) (result : dict) :
  (forall k, In k ks -> is_stub result k = true) ->
  redistribute_loop 0 ks result = result.
Proof.
  destruct ks as [|k ks]; intros H; [reflexivity|].
  cbn [redistribute_loop]. rewrite (H k (or_introl eq_refl)). cbn [negb].
  rewrite (take_stubs_all result (k :: ks) H).
  now rewrite skipn_all.
Qed.

(** X6: blob redistribution returns on every mapping whose keys are runs of
    digits; where it returns, it has not added, removed or reordered a key,
    and the mapping is unchanged when no case is a stub (every case has a
    Versus of its own) and when every case is a stub (there is no blob owner
    to take from). *)
Theorem redistribute_blobs_keeps (cases : dict) :
  (Forall digit_key (keys cases) ->
   exists result, _azure_redistribute_blobs cases = Ok result)
  /\ forall result,
       _azure_redistribute_blobs cases = Ok result ->
       keys result = keys cases
       /\ ((forall k, In k (keys cases) -> is_stub cases k = false) ->
           result = cases)
       /\ ((forall k, In k (keys cases) -> is_stub cases k = true) ->
           result = cases).
Proof.
  split.
  { intros H. eexists. now apply redistribute_blobs_digits. }
  intros result Hr. apply redistribute_blobs_Ok in Hr. subst result.
  split; [|split].
  - apply redistribute_loop_keys. intros k. apply In_sort_keys.
  - intros H. apply redistribute_loop_no_stub.
    intros k Hk. apply H. now apply In_sort_keys.
  - intros H. apply redistribute_loop_all_stubs.
    intros k Hk. apply H. now apply In_sort_keys.
Qed.

Lemma redistribute_blobs_keeps_witness :
  _azure_redistribute_blobs
    [(lit "1", lit "1 C.A. No. 5/2020" ++ nl :: lit "A" ++ nl :: lit "Versus"
                 ++ nl :: lit "B");
     (lit "2", lit "2 C.A. No. 6/2020" ++ nl :: lit "C" ++ nl :: lit "Versus"
                 ++ nl :: lit "D")]
  = Ok [(lit "1", lit "1 C.A. No. 5/2020" ++ nl :: lit "A" ++ nl :: lit "Versus"
                    ++ nl :: lit "B");
        (lit "2", lit "2 C.A. No. 6/2020" ++ nl :: lit "C" ++ nl :: lit "Versus"
                    ++ nl :: lit "D")]
  /\ _azure_redistribute_blobs
       [(lit "1", lit "1 C.A. No. 5/2020"); (lit "2", lit "2 C.A. No. 6/2020")]
     = Ok [(lit "1", lit "1 C.A. No. 5/2020");
           (lit "2", lit "2 C.A. No. 6/2020")].
Proof.
  split.
  - destruct (redistribute_blobs_keeps
                [(lit "1", lit "1 C.A. No. 5/2020" ++ nl :: lit "A" ++ nl
                             :: lit "Versus" ++ nl :: lit "B");
                 (lit "2", lit "2 C.A. No. 6/2020" ++ nl :: lit "C" ++ nl
                             :: lit "Versus" ++ nl :: lit "D")])
      as [Hret Hkeep].
    destruct Hret as [result Hr];
      [repeat constructor; discriminate|].
    rewrite Hr. f_equal. apply (proj1 (proj2 (Hkeep result Hr))).
    intros k [<-|[<-|[]]]; reflexivity.
  - destruct (redistribute_blobs_keeps
                [(lit "1", lit "1 C.A. No. 5/2020");
                 (lit "2", lit "2 C.A. No. 6/2020")])
      as [Hret Hkeep].
    destruct Hret as [result Hr];
      [repeat constructor; discriminate|].
    rewrite Hr. f_equal. apply (proj2 (proj2 (Hkeep result Hr))).
    intros k [<-|[<-|[]]]; reflexivity.
Defined.

Lemma drift_step_not_drifted (cases : dict) (current next : str) :
  drifted (get_default cases current) = false ->
  drift_step cases current next = cases.
Proof.
  unfold drifted, drift_step.
  destruct (parent_portion _) as [parent connected]. cbn [fst].
  destruct (last_opener parent) as [start|]; [|reflexivity].
  now intros ->.
Qed.

Lemma drift_loop_not_drifted (serials : list str) (cases : dict) :
  (forall k, In k serials -> drifted (get_default cases k) = false) ->
  drift_loop serials cases = cases.
Proof.
  induction serials as [|current rest IH]; intros H; [reflexivity|].
  destruct rest as [|next rest]; [reflexivity|].
  change (drift_loop (current :: next :: rest) cases)
    with (drift_loop (next :: rest) (drift_step cases current next)).
  rewrite drift_step_not_drifted by (apply H; now left).
  apply IH. intros k Hk. apply H. now right.
Qed.

(** X7: drift repair returns on every mapping whose keys are runs of
    digits; where it returns, it has not added, removed or reordered a key,
    and the mapping is unchanged when in no case the last case-type opener
    of the parent portion starts past 60% of that portion. *)
Theorem repair_layout_drift_keeps (cases : dict) :
  (Forall digit_key (keys cases) ->
   exists result, _repair_layout_drift cases = Ok result)
  /\ forall result,
       _repair_layout_drift cases = Ok result ->
       keys result = keys cases
       /\ ((forall k, In k (keys cases) ->
                      drifted (get_default cases k) = false) ->
           result = cases).
Proof.
  split.
  { intros H. eexists. now apply repair_drift_digits. }
  intros result Hr. apply repair_drift_Ok in Hr. subst result. split.
  - apply drift_loop_keys. intros k. apply In_sort_keys.
  - intros H. apply drift_loop_not_drifted.
    intros k Hk. apply H. now apply In_sort_keys.
Qed.

Lemma repair_layout_drift_keeps_witness :
  _repair_layout_drift
    [(lit "1", lit "1" ++ nl :: lit "C.A. No. 5/2020" ++ nl :: lit "A Versus B");
     (lit "2", lit "2" ++ nl :: lit "C.A. No. 6/2020" ++ nl :: lit "C Versus D")]
  = Ok [(lit "1", lit "1" ++ nl :: lit "C.A. No. 5/2020" ++ nl
                    :: lit "A Versus B");
        (lit "2", lit "2" ++ nl :: lit "C.A. No. 6/2020" ++ nl
                    :: lit "C Versus D")].
Proof.
  destruct (repair_layout_drift_keeps
              [(lit "1", lit "1" ++ nl :: lit "C.A. No. 5/2020" ++ nl
                           :: lit "A Versus B");
               (lit "2", lit "2" ++ nl :: lit "C.A. No. 6/2020" ++ nl
                           :: lit "C Versus D")])
    as [Hret Hkeep].
  destruct Hret as [result Hr];
    [repeat constructor; discriminate|].
  rewrite Hr. f_equal. apply (proj2 (Hkeep result Hr)).
  intros k [<-|[<-|[]]]; reflexivity.
Defined.

(** ** The index error of the party distributor *)

Lemma index_in_range {A : Type} (l : list A) (i : nat) :
  i < List.length l -> exists a, index l i = Ok a.
Proof.
  intros H. unfold index.
  destruct (nth_error l i) as [a|] eqn:E; [now exists a|].
  apply nth_error_None in E. lia.
Qed.

Lemma index_past_end {A : Type} (l : list A) (i : nat) :
  List.length l <= i -> index l i = Raise IndexError.
Proof.
  intros H. unfold index.
  destruct (nth_error l i) as [a|] eqn:E; [|reflexivity].
  assert (Hn : nth_error l i <> None) by congruence.
  apply nth_error_Some in Hn. lia.
Qed.

Lemma party_block_in_range (frags : list str) (case0_pet : str) (i : nat) :
  i = 0 \/ i < List.length frags ->
  exists b, party_block frags case0_pet i = Ok b.
Proof.
  intros Hi. unfold party_block.
  assert (Hpet : exists pet,
             match i with
             | 0 => Ok case0_pet
             | S _ => f <- index frags i;; Ok (snd (_split_resp_frag f))
             end = Ok pet).
  { destruct i as [|i]; [now eexists|].
    destruct Hi as [Hi|Hi]; [discriminate|].
    destruct (index_in_range frags (S i) Hi) as [f Hf].
    rewrite Hf. cbn [bind]. now eexists. }
  destruct Hpet as [pet ->]. cbn [bind].
  destruct (Nat.ltb_spec (S i) (List.length frags)) as [Hlt|Hge].
  - destruct (index_in_range frags (S i) Hlt) as [f Hf].
    rewrite Hf. cbn [bind]. now eexists.
  - cbn [bind]. now eexists.
Qed.

Lemma party_block_past_end (frags : list str) (case0_pet : str) (i : nat) :
  1 <= i -> List.length frags <= i ->
  party_block frags case0_pet i = Raise IndexError.
Proof.
  intros H1 H2. unfold party_block.
  destruct i as [|i]; [lia|].
  now rewrite (index_past_end frags (S i) H2).
Qed.

Lemma map_result_all_ok {A B : Type} (f : A -> result B) (l : list A) :
  (forall x, In x l -> exists y, f x = Ok y) ->
  exists ys, map_result f l = Ok ys /\ List.length ys = List.length l.
Proof.
  induction l as [|x l IH]; intros H; [now exists []|].
  destruct (H x (or_introl eq_refl)) as [y Hy].
  destruct IH as (ys & Hys & Hlen); [intros x' Hx'; apply H; now right|].
  exists (y :: ys). cbn [map_result]. rewrite Hy, Hys. cbn [bind].
  split; [reflexivity | simpl; now rewrite Hlen].
Qed.

Lemma map_result_raises {A B : Type} (f : A -> result B) (l1 l2 : list A)
      (x : A) (e : exn) :
  (forall x', In x' l1 -> exists y, f x' = Ok y) -> f x = Raise e ->
  map_result f (l1 ++ x :: l2) = Raise e.
Proof.
  induction l1 as [|a l1 IH]; intros H Hx.
  - simpl. now rewrite Hx.
  - destruct (H a (or_introl eq_refl)) as [y Hy].
    simpl app. cbn [map_result]. rewrite Hy. cbn [bind].
    rewrite IH; [reflexivity | | exact Hx].
    intros x' Hx'. apply H. now right.
Qed.

(** X8: [_distribute_parties] raises [IndexError] exactly when the party
    content splits into at least two fragments at its Versus lines and there
    are more case blocks than fragments: the loop reads [frags[i]] for every
    case without a bound check.  In every other case it returns, with one
    party block for each case block.  The error is not caught on the way up:
    a dump zone of two bare serials, three case-type lines and one pair of
    parties makes the Tesseract pipeline raise it. *)
Theorem distribute_parties_index_error
        (case_blocks serials : list str) (party_content : str) :
  let frags := re_split versus_line_sep party_content in
  let n := List.length case_blocks in
  (2 <= List.length frags < n ->
   _distribute_parties case_blocks serials party_content = Raise IndexError)
  /\ (List.length frags < 2 \/ n <= List.length frags ->
      exists inline_resp blocks,
        _distribute_parties case_blocks serials party_content
        = Ok (inline_resp, blocks)
        /\ (1 <= n -> List.length blocks = n))
  /\ segment_cases
       (join [nl] (map lit [ "10"; "11"; "C.A. No. 1/2020"; "C.A. No. 2/2020";
                             "C.A. No. 3/2020"; "PARTY A"; "Versus";
                             "PARTY B" ]%string))
       (lit "tesseract")
     = Raise IndexError.
Proof.
  intros frags n. unfold _distribute_parties. fold frags. fold n.
  split; [|split].
  - intros [H2 Hn].
    destruct (Nat.ltb_spec (List.length frags) 2) as [Hlt|_]; [lia|].
    destruct (_split_frag0 (hd [] frags)) as [frag0_resp case0_pet].
    replace (seq 0 n)
      with (seq 0 (List.length frags)
            ++ List.length frags :: seq (S (List.length frags))
                                        (n - S (List.length frags))).
    + rewrite (map_result_raises _ _ _ (List.length frags) IndexError);
        [reflexivity | | apply party_block_past_end; lia].
      intros i Hi. apply in_seq in Hi.
      apply party_block_in_range. right. lia.
    + change (List.length frags
              :: seq (S (List.length frags)) (n - S (List.length frags)))
        with (seq (List.length frags) (S (n - S (List.length frags)))).
      rewrite <- seq_app. f_equal. lia.
  - intros H.
    destruct (Nat.ltb_spec (List.length frags) 2) as [Hlt|Hge].
    + eexists _, _. split; [reflexivity|].
      intros Hn. simpl. rewrite repeat_length. lia.
    + destruct H as [H|H]; [lia|].
      destruct (_split_frag0 (hd [] frags)) as [frag0_resp case0_pet].
      destruct (map_result_all_ok (party_block frags case0_pet) (seq 0 n))
        as (blocks & Hb & Hlen).
      { intros i Hi. apply in_seq in Hi.
        apply party_block_in_range. right. lia. }
      rewrite Hb. cbn [bind]. eexists _, _. split; [reflexivity|].
      intros _. now rewrite Hlen, length_seq.
  - vm_compute. reflexivity.
Qed.

Lemma distribute_parties_index_error_witness :
  _distribute_parties
    [lit "C.A. No. 1/2020"; lit "C.A. No. 2/2020"; lit "C.A. No. 3/2020"]
    [lit "1"; lit "2"; lit "3"]
    (lit "PARTY A" ++ nl :: lit "Versus" ++ nl :: lit "PARTY B")
  = Raise IndexError
  /\ exists inline_resp blocks,
       _distribute_parties
         [lit "C.A. No. 1/2020"; lit "C.A. No. 2/2020"]
         [lit "1"; lit "2"]
         (lit "PARTY A" ++ nl :: lit "Versus" ++ nl :: lit "PARTY B")
       = Ok (inline_resp, blocks)
       /\ (1 <= 2 -> List.length blocks = 2).
Proof.
  split.
  - apply (proj1 (distribute_parties_index_error
                    [lit "C.A. No. 1/2020"; lit "C.A. No. 2/2020";
                     lit "C.A. No. 3/2020"]
                    [lit "1"; lit "2"; lit "3"]
                    (lit "PARTY A" ++ nl :: lit "Versus" ++ nl :: lit "PARTY B"))).
    vm_compute. split; repeat constructor.
  - apply (proj1 (proj2 (distribute_parties_index_error
                           [lit "C.A. No. 1/2020"; lit "C.A. No. 2/2020"]
                           [lit "1"; lit "2"]
                           (lit "PARTY A" ++ nl :: lit "Versus" ++ nl
                                :: lit "PARTY B")))).
    right. vm_compute. repeat constructor.
Defined.

(** ** Reading back a printed serial *)

Lemma str_of_N_length_below_1000 (n : N) :
  (n < 1000)%N -> 1 <= List.length (str_of_N n) <= 3.
Proof.
  intros H.
  assert (Hall : forallb (fun k => let l := List.length (str_of_N (N.of_nat k)) in
                                   (1 <=? l) && (l <=? 3))
                         (seq 0 1000) = true) by (vm_compute; reflexivity).
  rewrite forallb_forall in Hall.
  specialize (Hall (N.to_nat n)). rewrite N2Nat.id in Hall.
  assert (Hin : In (N.to_nat n) (seq 0 1000)) by (apply in_seq; lia).
  apply Hall in Hin. cbv zeta in Hin.
  apply andb_true_iff in Hin as [H1 H2].
  apply Nat.leb_le in H1, H2. lia.
Qed.

Lemma printed_token_ok (m : N) (sub : option N) :
  (m < 1000)%N -> token_ok (str_of_N m) (option_map str_of_N sub).
Proof.
  intros H. split.
  - apply str_of_N_digits.
  - now apply str_of_N_length_below_1000.
  - intros ds Hds. destruct sub as [s|]; [|discriminate].
    injection Hds as <-. split; [apply str_of_N_nonempty | apply str_of_N_digits].
Qed.

(** What the leading pattern finds in a text that starts with a serial,
    blanks and a character that is not a blank. *)
Lemma leading_re_token (d : str) (sub : option str) (ws0 ws : str)
      (c : ascii) (rest : str) :
  token_ok d sub ->
  forallb is_space ws0 = true -> forallb is_space ws = true -> ws <> [] ->
  is_space c = false ->
  _TESSERACT_LEADING_RE (lstrip (ws0 ++ token_text d sub ++ ws ++ c :: rest))
  = if starts_no (c :: rest) && (List.length ws <? 2) then None
    else Some (d, sub).
Proof.
  intros Hok Hws0 Hws Hne Hc.
  destruct (token_text_cons _ _ Hok) as (c' & tt & Ht & Hc').
  unfold _TESSERACT_LEADING_RE.
  rewrite lstrip_app_blank by exact Hws0.
  rewrite lstrip_id by (rewrite Ht; simpl; now apply digit_not_space).
  destruct ws as [|w ws]; [contradiction|].
  simpl in Hws. apply andb_true_iff in Hws as [Hw Hws].
  simpl app. rewrite serial_token_blank by assumption.
  change (w :: ws ++ c :: rest) with ((w :: ws) ++ c :: rest).
  rewrite (span_exact is_space (w :: ws) (c :: rest));
    [|simpl; now rewrite Hw|exact Hc].
  cbn [nonempty andb].
  destruct (starts_no (c :: rest)); cbn [negb orb andb]; [|reflexivity].
  change (List.length (w :: ws) <? 2) with (List.length ws <? 1).
  change (2 <=? List.length (w :: ws)) with (1 <=? List.length ws).
  destruct ws; reflexivity.
Qed.

(** X9: a serial printed in decimal, main number below 1000 with or without
    a sub-number, then blanks and further text, is read back by
    [_tesseract_parse_serial] as the numbers that were printed, blanks in
    front of it being skipped.  There are two exceptions.  Text starting
    with [No.], [no.] or [NO.] after a single blank is refused; after two
    or more blanks the same text is accepted, because the blanks give one
    back to the lookahead.  And a sub-number of more than 4300 digits makes
    [int] raise. *)
Theorem parse_printed_serial (m : N) (sub : option N) (ws0 ws : str)
        (c : ascii) (rest : str) :
  (m < 1000)%N ->
  forallb is_space ws0 = true -> forallb is_space ws = true -> ws <> [] ->
  is_space c = false ->
  _tesseract_parse_serial
    (ws0 ++ token_text (str_of_N m) (option_map str_of_N sub) ++ ws ++ c :: rest)
  = if starts_no (c :: rest) && (List.length ws <? 2) then Ok None
    else match sub with
         | Some s =>
             if int_max_str_digits <? List.length (str_of_N s)
             then Raise IntError
             else Ok (Some (m, Some s))
         | None => Ok (Some (m, None))
         end.
Proof.
  intros Hm Hws0 Hws Hne Hc.
  pose proof (printed_token_ok m sub Hm) as Hok.
  unfold _tesseract_parse_serial.
  rewrite (leading_re_token _ _ ws0 ws c rest Hok Hws0 Hws Hne Hc).
  destruct (starts_no (c :: rest) && (List.length ws <? 2)); [reflexivity|].
  rewrite (int_main _ _ Hok). cbn [bind]. rewrite int_of_digits_str_of_N.
  destruct sub as [s|]; cbn [option_map int_opt] in *; [|reflexivity].
  rewrite (int_sub _ _ Hok).
  destruct (int_max_str_digits <? List.length (str_of_N s)); [reflexivity|].
  cbn [bind]. now rewrite int_of_digits_str_of_N.
Qed.

Lemma parse_printed_serial_witness :
  _tesseract_parse_serial
    ([] ++ token_text (str_of_N 25) (option_map str_of_N (Some 7%N))
        ++ lit " " ++ "S"%char :: lit "LP(C) No. 11727/2020")
  = if starts_no ("S"%char :: lit "LP(C) No. 11727/2020")
       && (List.length (lit " ") <? 2)
    then Ok None
    else if int_max_str_digits <? List.length (str_of_N 7)
         then Raise IntError
         else Ok (Some (25%N, Some 7%N)).
Proof.
  apply (parse_printed_serial 25 (Some 7%N) [] (lit " ") "S"%char
                              (lit "LP(C) No. 11727/2020")).
  - reflexivity.
  - reflexivity.
  - reflexivity.
  - discriminate.
  - reflexivity.
Defined.

(** ** Lines *)

Lemma split_nl_not_nil (s : str) : split_nl s <> [].
Proof.
  induction s as [|c s IH]; simpl; [discriminate|].
  destruct (ch_eqb c nl); [discriminate|].
  destruct (split_nl s); discriminate.
Qed.

Lemma split_nl_cons (c : ascii) (s : str) :
  ch_eqb c nl = false -> split_nl (c :: s) = cons_first c (split_nl s).
Proof.
  intros H. simpl. rewrite H. now destruct (split_nl s).
Qed.

Lemma split_nl_line (l s : str) :
  forallb not_nl l = true -> split_nl (l ++ nl :: s) = l :: split_nl s.
Proof.
  induction l as [|c l IH]; intros H.
  - simpl app. cbn [split_nl]. now rewrite ch_eqb_refl.
  - simpl in H. apply andb_true_iff in H as [Hc Hl].
    simpl app. rewrite split_nl_cons by now apply not_nl_eqb.
    now rewrite IH.
Qed.

Lemma split_nl_single (l : str) : forallb not_nl l = true -> split_nl l = [l].
Proof.
  induction l as [|c l IH]; intros H; [reflexivity|].
  simpl in H. apply andb_true_iff in H as [Hc Hl].
  rewrite split_nl_cons by now apply not_nl_eqb. now rewrite IH.
Qed.

Lemma split_nl_join (ls : list str) :
  ls <> [] -> Forall (fun l => forallb not_nl l = true) ls ->
  split_nl (join [nl] ls) = ls.
Proof.
  induction ls as [|l ls IH]; intros Hne Hall; [contradiction|].
  inversion Hall as [|? ? Hl Hls]; subst.
  destruct ls as [|l' ls].
  - simpl. now apply split_nl_single.
  - change (join [nl] (l :: l' :: ls)) with (l ++ nl :: join [nl] (l' :: ls)).
    rewrite split_nl_line by exact Hl. f_equal. apply IH; [discriminate|exact Hls].
Qed.

Lemma join_split_nl (s : str) : join [nl] (split_nl s) = s.
Proof.
  induction s as [|c s IH]; [reflexivity|].
  simpl. destruct (ch_eqb c nl) eqn:E.
  - apply ch_eqb_eq in E. subst c.
    pose proof (split_nl_not_nil s) as Hn.
    destruct (split_nl s) as [|l ls]; [contradiction|].
    change (join [nl] ([] :: l :: ls)) with (nl :: join [nl] (l :: ls)).
    now rewrite IH.
  - pose proof (split_nl_not_nil s) as Hn.
    destruct (split_nl s) as [|l ls]; [contradiction|].
    rewrite <- IH. destruct ls; reflexivity.
Qed.

Lemma split_nl_lines (s : str) :
  Forall (fun l => forallb not_nl l = true) (split_nl s).
Proof.
  induction s as [|c s IH]; [repeat constructor|].
  simpl. destruct (ch_eqb c nl) eqn:E; [now constructor|].
  destruct (split_nl s) as [|l ls]; [repeat constructor; simpl|].
  - unfold not_nl. now rewrite E.
  - inversion IH; subst. constructor; [|assumption].
    simpl. unfold not_nl at 1. now rewrite E.
Qed.

(** ** The reassembler on texts without bare serials *)

Lemma noise_match_prefix (line g1 g2 g5 : str) :
  noise_match line = Some (g1, g2, g5) -> exists r, line = g1 ++ r.
Proof.
  unfold noise_match.
  pose proof (span_app is_space line) as Hs.
  destruct (span is_space line) as [a r1]; cbn [fst snd] in *.
  destruct (serial_token r1) as [[[d r2] sub]|]; [|discriminate].
  destruct (span is_space (opt_char "." r2)) as [ws r4].
  destruct ws; [discriminate|].
  intros [= <- _ _]. now exists r1.
Qed.

Lemma normalize_not_nl (line : str) :
  forallb not_nl line = true ->
  forallb not_nl (_normalize_ocr_noise line) = true.
Proof.
  intros H. unfold _normalize_ocr_noise.
  destruct (noise_match line) as [[[g1 g2] g5]|] eqn:E; [|exact H].
  destruct (noise_match_prefix _ _ _ _ E) as [r Hr].
  destruct (noise_match_shape _ _ _ _ E) as (d & sub & -> & Hok & _ & Hg5 & _).
  rewrite Hr, forallb_app in H. apply andb_true_iff in H as [Hg1 _].
  rewrite !forallb_app, Hg1, (token_text_not_nl d sub Hok). simpl.
  exact Hg5.
Qed.

Lemma reassemble_loop_plain (lines : list str) :
  forallb (fun l => negb (is_standalone (strip l))) lines = true ->
  forall last_inline, reassemble_loop 0 last_inline lines = Ok lines.
Proof.
  induction lines as [|line rest IH]; intros H last_inline; [reflexivity|].
  simpl in H. apply andb_true_iff in H as [Hl Hrest].
  cbn [reassemble_loop].
  destruct (_is_genuine_inline_serial (strip line)).
  - now rewrite IH.
  - apply negb_true_iff in Hl. rewrite Hl. cbn [andb]. now rewrite IH.
Qed.

(** X10: on a text none of whose lines, once normalised, is a bare serial
    number, the column-dump reassembler does nothing but normalise each line:
    it returns the normalised lines joined by newlines and cannot raise. *)
Theorem reassemble_without_bare_serials (text : str) :
  let lines := map _normalize_ocr_noise (split_nl text) in
  forallb (fun l => negb (is_standalone (strip l))) lines = true ->
  _reassemble_column_dumps text = Ok (join [nl] lines).
Proof.
  intros lines H. unfold _reassemble_column_dumps. fold lines.
  rewrite split_nl_join.
  - now rewrite reassemble_loop_plain.
  - unfold lines. pose proof (split_nl_not_nil text) as Hn.
    destruct (split_nl text); [contradiction | discriminate].
  - unfold lines. apply Forall_map.
    eapply Forall_impl; [|apply split_nl_lines].
    intros l Hl. now apply normalize_not_nl.
Qed.

Lemma reassemble_without_bare_serials_witness :
  _reassemble_column_dumps
    (lit "14 =C.A. No. 2560/2020" ++ nl :: lit "15. SLP(C) No. 11727/2020")
  = Ok (join [nl] (map _normalize_ocr_noise
                       (split_nl (lit "14 =C.A. No. 2560/2020" ++ nl
                                      :: lit "15. SLP(C) No. 11727/2020")))).
Proof.
  apply (reassemble_without_bare_serials
           (lit "14 =C.A. No. 2560/2020" ++ nl :: lit "15. SLP(C) No. 11727/2020")).
  reflexivity.
Defined.

(** ** The case-type blocks of a dump zone *)

Lemma spaced_weaken {A : Type} (len lo lo' : nat) (ms : list (nat * nat * A)) :
  lo' <= lo -> spaced len lo ms -> spaced len lo' ms.
Proof.
  destruct ms as [|[[p l] a] ms]; [trivial|].
  cbn [spaced]. intros H (H1 & H2 & H3 & H4). repeat split; try assumption. lia.
Qed.

Lemma scan_spaced {A : Type} (m : option ascii -> str -> option (nat * A)) :
  (forall prev s l a, m prev s = Some (l, a) -> l <= List.length s) ->
  forall s skip prev pos,
    spaced (pos + List.length s) (pos + skip) (scan m skip prev pos s).
Proof.
  intros Hm. induction s as [|c s IH]; intros skip prev pos; [exact I|].
  cbn [scan]. destruct skip as [|k].
  - destruct (m prev (c :: s)) as [[[|k] a]|] eqn:E.
    + apply (spaced_weaken _ (S pos + 0)); [lia|].
      replace (pos + List.length (c :: s)) with (S pos + List.length s)
        by (simpl; lia).
      apply IH.
    + apply Hm in E. cbn [spaced]. repeat split; try lia.
      replace (pos + List.length (c :: s)) with (S pos + List.length s)
        by (simpl; lia).
      replace (pos + S k) with (S pos + k) by lia. apply IH.
    + apply (spaced_weaken _ (S pos + 0)); [lia|].
      replace (pos + List.length (c :: s)) with (S pos + List.length s)
        by (simpl; lia).
      apply IH.
  - replace (pos + List.length (c :: s)) with (S pos + List.length s)
      by (simpl; lia).
    replace (pos + S k) with (S pos + k) by lia. apply IH.
Qed.

Lemma strip_prefix_self (p r : str) : strip_prefix p (p ++ r) = Some r.
Proof.
  induction p as [|x p IH]; [reflexivity|].
  simpl. now rewrite ch_eqb_refl.
Qed.

Lemma literal_text (l s : str) (k : nat) :
  literal l s = Some k -> exists r, s = l ++ r /\ k = List.length l.
Proof.
  unfold literal, startswith.
  destruct (strip_prefix l s) as [r|] eqn:E; [|discriminate].
  intros [= <-]. exists r. split; [now apply strip_prefix_app | reflexivity].
Qed.

Lemma literal_self (l r : str) : literal l (l ++ r) = Some (List.length l).
Proof. unfold literal, startswith. now rewrite strip_prefix_self. Qed.

Lemma lit_ws_then_text (l : str) (next : str -> option nat) (s : str) (n : nat) :
  lit_ws_then l next s = Some n ->
  exists ws r k,
    s = l ++ ws ++ r /\ forallb is_space ws = true /\ ws <> []
    /\ stops is_space r /\ next r = Some k
    /\ n = List.length l + List.length ws + k.
Proof.
  unfold lit_ws_then.
  destruct (strip_prefix l s) as [r0|] eqn:E; [|discriminate].
  apply strip_prefix_app in E.
  pose proof (span_app is_space r0) as Hr.
  pose proof (span_fst_all is_space r0) as Hws.
  pose proof (span_snd_stops is_space r0) as Hst.
  destruct (span is_space r0) as [ws r]; cbn [fst snd] in *.
  destruct ws as [|w ws]; [discriminate|].
  destruct (next r) as [k|] eqn:En; [|discriminate].
  intros [= <-]. exists (w :: ws), r, k.
  split; [now rewrite E, Hr|]. split; [exact Hws|].
  split; [discriminate|]. split; [exact Hst|]. split; [exact En | reflexivity].
Qed.

Lemma lit_ws_then_self (l : str) (next : str -> option nat) (ws r : str)
      (k : nat) :
  forallb is_space ws = true -> ws <> [] -> stops is_space r ->
  next r = Some k ->
  lit_ws_then l next (l ++ ws ++ r)
  = Some (List.length l + List.length ws + k).
Proof.
  intros Hws Hne Hst Hn. unfold lit_ws_then.
  rewrite strip_prefix_self, (span_exact is_space ws r Hws Hst), Hn.
  destruct ws; [contradiction | reflexivity].
Qed.

Lemma first_some_In {A : Type} (alts : list (option A)) (a : A) :
  In (Some a) alts -> is_some (first_some alts) = true.
Proof.
  induction alts as [|[x|] alts IH]; [contradiction | reflexivity |].
  intros [H|H]; [discriminate | now apply IH].
Qed.

(** The text a case-type opener matched ends in a character that is not a
    blank, starts with one that is not a blank either, and is an opener
    again whatever follows it. *)
Lemma case_type_opener_text (s : str) (l : nat) :
  case_type_opener s = Some l ->
  exists o x r,
    s = o ++ x :: r /\ l = S (List.length o) /\ is_space x = false
    /\ stops is_space (o ++ [x])
    /\ forall r', opens_case (o ++ x :: r') = true.
Proof.
  unfold case_type_opener. cbn [first_some].
  destruct (literal (lit "C.A.") s) as [k|] eqn:E1.
  { intros [= <-]. apply literal_text in E1 as (r & -> & ->).
    exists (lit "C.A"), "."%char, r.
    repeat (split; [reflexivity|]). intros r'. reflexivity. }
  destruct (literal (lit "SLP(") s) as [k|] eqn:E2.
  { intros [= <-]. apply literal_text in E2 as (r & -> & ->).
    exists (lit "SLP"), "("%char, r.
    repeat (split; [reflexivity|]). intros r'. reflexivity. }
  destruct (literal (lit "W.P.(") s) as [k|] eqn:E3.
  { intros [= <-]. apply literal_text in E3 as (r & -> & ->).
    exists (lit "W.P."), "("%char, r.
    repeat (split; [reflexivity|]). intros r'. reflexivity. }
  destruct (literal (lit "Crl.A.") s) as [k|] eqn:E4.
  { intros [= <-]. apply literal_text in E4 as (r & -> & ->).
    exists (lit "Crl.A"), "."%char, r.
    repeat (split; [reflexivity|]). intros r'. reflexivity. }
  destruct (lit_ws_then (lit "MA") one_digit s) as [k|] eqn:E5.
  { intros [= <-].
    apply lit_ws_then_text
      in E5 as (ws & r & k' & -> & Hws & Hne & Hst & Hn & ->).
    unfold one_digit in Hn. destruct r as [|d r]; [discriminate|].
    destruct (is_digit d) eqn:Ed; [|discriminate]. injection Hn as <-.
    exists (lit "MA" ++ ws), d, r.
    split; [now rewrite <- app_assoc|].
    split; [rewrite length_app; lia|].
    split; [now apply digit_not_space|]. split; [reflexivity|].
    intros r'. unfold opens_case, case_type_opener.
    apply (first_some_In _ (List.length (lit "MA") + List.length ws + 1)).
    do 4 right. left. rewrite <- app_assoc.
    apply (lit_ws_then_self _ _ ws (d :: r') 1 Hws Hne Hst).
    unfold one_digit. now rewrite Ed. }
  destruct (lit_ws_then (lit "Diary") (literal (lit "No.")) s) as [k|] eqn:E6;
    [|discriminate].
  intros [= <-].
  apply lit_ws_then_text
    in E6 as (ws & r & k' & -> & Hws & Hne & Hst & Hn & ->).
  apply literal_text in Hn as (r1 & -> & ->).
  exists (lit "Diary" ++ ws ++ lit "No"), "."%char, r1.
  split; [now rewrite <- !app_assoc|].
  split; [rewrite !length_app; simpl; lia|].
  split; [reflexivity|]. split; [reflexivity|].
  intros r'. unfold opens_case, case_type_opener.
  apply (first_some_In _ (List.length (lit "Diary") + List.length ws + 3)).
  do 5 right. left. rewrite <- !app_assoc.
  change (lit "No" ++ "."%char :: r') with (lit "No." ++ r').
  apply (lit_ws_then_self _ _ ws (lit "No." ++ r') 3 Hws Hne Hst).
  apply literal_self.
Qed.

Lemma case_type_opener_length (s : str) (l : nat) :
  case_type_opener s = Some l -> l <= List.length s.
Proof.
  intros H. apply case_type_opener_text in H as (o & x & r & -> & -> & _).
  rewrite length_app. simpl. lia.
Qed.

Lemma opener_block (s : str) (l n : nat) :
  case_type_opener s = Some l -> l <= n ->
  nonempty (strip (firstn n s)) = true
  /\ opens_case (strip (firstn n s)) = true.
Proof.
  intros H Hn.
  destruct (case_type_opener_text s l H)
    as (o & x & r & -> & -> & Hx & Hst & Hopen).
  replace (firstn n (o ++ x :: r))
    with (o ++ x :: firstn (n - S (List.length o)) r).
  - assert (Hs : strip (o ++ x :: firstn (n - S (List.length o)) r)
                 = o ++ x :: rstrip (firstn (n - S (List.length o)) r)).
    { unfold strip. rewrite lstrip_id.
      - now apply rstrip_app_stop.
      - destruct o; [exact Hx | exact Hst]. }
    rewrite Hs. split; [now destruct o | apply Hopen].
  - rewrite firstn_app.
    replace (n - List.length o) with (S (n - S (List.length o))) by lia.
    rewrite (firstn_all2 o) by lia. reflexivity.
Qed.

Lemma opener_match (prev : option ascii) (s : str) (l : nat) (u : unit) :
  _CASE_TYPE_OPENER_RE prev s = Some (l, u) -> case_type_opener s = Some l.
Proof.
  unfold _CASE_TYPE_OPENER_RE. destruct (at_bol prev); [|discriminate].
  destruct (case_type_opener s); [|discriminate]. now intros [= <- _].
Qed.

Lemma blocks_between_open (text : str) (ms : list (nat * nat * unit)) :
  forall lo,
    spaced (List.length text) lo ms ->
    (forall p l u, In (p, l, u) ms -> case_type_opener (skipn p text) = Some l) ->
    Forall (fun b => nonempty b = true /\ opens_case b = true)
           (map strip (blocks_between text (map (fun m => fst (fst m)) ms))).
Proof.
  induction ms as [|[[p l] u] ms IH]; intros lo Hsp Hm; [constructor|].
  cbn [spaced] in Hsp. destruct Hsp as (_ & _ & Hend & Hsp).
  cbn [map fst blocks_between]. constructor.
  - unfold slice. apply (opener_block _ l); [apply (Hm p l u); now left|].
    destruct ms as [|[[p' l'] u'] ms]; cbn [map fst].
    + lia.
    + cbn [spaced] in Hsp. lia.
  - apply (IH (p + l) Hsp). intros p' l' u' Hin. apply (Hm p' l' u'). now right.
Qed.

(** X11: [_split_case_type_blocks] returns one block for every case-type
    opener found at a line start, in order: no block is dropped as empty,
    and every block starts with its opener.  In particular the result is
    empty only when the text has no opener. *)
Theorem split_case_type_blocks_openers (text : str) :
  List.length (_split_case_type_blocks text) = List.length (opener_starts text)
  /\ Forall (fun b => opens_case b = true) (_split_case_type_blocks text).
Proof.
  assert (H : Forall (fun b => nonempty b = true /\ opens_case b = true)
                     (map strip (blocks_between text (opener_starts text)))).
  { unfold opener_starts.
    apply (blocks_between_open text (finditer _CASE_TYPE_OPENER_RE text) 0).
    - apply (scan_spaced _CASE_TYPE_OPENER_RE
               (fun prev s l u Hm =>
                  case_type_opener_length s l (opener_match prev s l u Hm))
               text 0 None 0).
    - intros p l u Hin. apply scan_In_match in Hin as (_ & prev & Hm).
      rewrite Nat.sub_0_r in Hm. exact (opener_match _ _ _ _ Hm). }
  unfold _split_case_type_blocks.
  rewrite filter_all by (eapply Forall_impl; [|exact H]; now intros b [Hb _]).
  split.
  - rewrite length_map.
    generalize (opener_starts text) as starts.
    induction starts as [|s starts IH]; [reflexivity|].
    cbn [blocks_between List.length]. now rewrite IH.
  - eapply Forall_impl; [|exact H]. now intros b [_ Hb].
Qed.

(** ** One block for each Versus line of a blob *)

Lemma versus_at_weaken (lines : list str) (lo lo' : nat) (vs : list nat) :
  lo' <= lo -> versus_at lines lo vs -> versus_at lines lo' vs.
Proof.
  destruct vs as [|v vs]; [trivial|]. cbn [versus_at].
  intros H (H1 & H2 & H3 & H4). repeat split; try assumption. lia.
Qed.

Lemma positions_of_versus_at (suf : list str) :
  forall pre,
    versus_at (pre ++ suf) (List.length pre)
              (positions_of VERSUS (List.length pre) (map _azure_tag_line suf)).
Proof.
  induction suf as [|l suf IH]; intros pre; [exact I|].
  cbn [map positions_of].
  specialize (IH (pre ++ [l])).
  rewrite <- app_assoc, length_app in IH. cbn [app List.length] in IH.
  rewrite Nat.add_1_r in IH.
  destruct (tag_eqb (_azure_tag_line l) VERSUS) eqn:E.
  - cbn [versus_at]. split; [lia|]. split; [rewrite length_app; simpl; lia|].
    split; [|exact IH].
    rewrite nth_middle. destruct (_azure_tag_line l); (reflexivity || discriminate).
  - apply (versus_at_weaken _ (S (List.length pre))); [lia | exact IH].
Qed.

Lemma respondent_scan_bound (ts : list tag) :
  forall j lse found,
    lse < j ->
    lse <= respondent_scan ts j lse found
    /\ respondent_scan ts j lse found < j + List.length ts.
Proof.
  induction ts as [|t ts IH]; intros j lse found H; [simpl; lia|].
  cbn [respondent_scan List.length].
  assert (Hskip : lse <= respondent_scan ts (S j) lse found
                  /\ respondent_scan ts (S j) lse found < j + S (List.length ts)).
  { destruct (IH (S j) lse found) as [H1 H2]; lia. }
  assert (Htake : lse <= respondent_scan ts (S j) j true
                  /\ respondent_scan ts (S j) j true < j + S (List.length ts)).
  { destruct (IH (S j) j true) as [H1 H2]; lia. }
  destruct t; try assumption.
  destruct found; [lia | assumption].
Qed.

Lemma leading_empty_le (ts : list tag) : leading_empty ts <= List.length ts.
Proof.
  induction ts as [|t ts IH]; [reflexivity|].
  destruct t; simpl; lia.
Qed.

Lemma sublist_length {A : Type} (l : list A) (i j : nat) :
  j <= List.length l -> List.length (sublist l i j) = j - i.
Proof.
  intros H. unfold sublist. rewrite length_firstn, length_skipn. lia.
Qed.

Lemma pet_start_bound (lines : list str) (tags : list tag) (prev_vi vi : nat) :
  prev_vi < vi -> vi <= List.length tags ->
  prev_vi < pet_start lines tags prev_vi vi <= vi.
Proof.
  intros H1 H2. unfold pet_start.
  set (lse := respondent_scan _ _ _ _).
  assert (Hl : prev_vi <= lse < vi).
  { destruct (respondent_scan_bound (sublist tags (S prev_vi) vi) (S prev_vi) prev_vi
                (versus_is_inline (nth prev_vi lines [])) (Nat.lt_succ_diag_r _))
      as [Ha Hb].
    rewrite sublist_length in Hb by exact H2. fold lse in Ha, Hb. lia. }
  pose proof (leading_empty_le (sublist tags (S lse) vi)) as He.
  rewrite sublist_length in He by exact H2. lia.
Qed.

Lemma versus_line_count (line : str) :
  _azure_tag_line line = VERSUS -> 1 <= count_versus line.
Proof.
  unfold _azure_tag_line.
  destruct (negb (nonempty (strip line))); [discriminate|].
  destruct (versus_re (strip line)) eqn:E.
  - intros _. rewrite <- count_versus_strip.
    unfold versus_re in E.
    destruct (strip_prefix (lit "Versus") (strip line)) as [r|] eqn:Ep;
      [|discriminate].
    pose proof (strip_prefix_app _ _ _ Ep) as Hs.
    unfold count_versus, finditer. rewrite Hs.
    change (lit "Versus" ++ r) with ("V"%char :: lit "ersus" ++ r).
    cbn [scan].
    assert (Hm : versus_word None ("V"%char :: lit "ersus" ++ r) = Some (6, tt)).
    { unfold versus_word.
      change ("V"%char :: lit "ersus" ++ r) with (lit "Versus" ++ r).
      rewrite strip_prefix_self. cbn [is_word_opt negb andb]. now rewrite E. }
    rewrite Hm. simpl. lia.
  - destruct (ia_re _); [discriminate|].
    destruct (advocate_re _); discriminate.
Qed.

Lemma block_holds_versus (lines : list str) (s v stop : nat) :
  s <= v -> v < stop -> stop <= List.length lines ->
  _azure_tag_line (nth v lines []) = VERSUS ->
  1 <= count_versus (strip (join [nl] (sublist lines s stop))).
Proof.
  intros H1 H2 H3 Hv.
  rewrite count_versus_strip, count_versus_join.
  eapply Nat.le_trans; [apply (versus_line_count _ Hv)|].
  eapply Nat.le_trans; [|apply (nth_le_list_sum _ (v - s))].
  unfold sublist. rewrite nth_firstn.
  destruct (Nat.ltb_spec (v - s) (stop - s)) as [_|Hge]; [|lia].
  rewrite nth_skipn. replace (s + (v - s)) with v by lia. lia.
Qed.

Lemma blob_blocks_hold_versus (lines : list str) (vs : list nat) :
  forall v s,
    s <= v -> versus_at lines v (v :: vs) ->
    let blocks :=
      blob_blocks_between
        lines (s :: pet_starts_from lines (map _azure_tag_line lines) v vs) in
    List.length blocks = S (List.length vs)
    /\ Forall (fun b => 1 <= count_versus b) blocks.
Proof.
  induction vs as [|v' vs IH]; intros v s Hs Hv; cbn zeta.
  - cbn [versus_at] in Hv. destruct Hv as (_ & Hlt & Htag & _).
    cbn [pet_starts_from blob_blocks_between]. split; [reflexivity|].
    constructor; [|constructor].
    now apply (block_holds_versus lines s v).
  - pose proof Hv as Hv0. cbn [versus_at] in Hv.
    destruct Hv as (_ & Hlt & Htag & Hv' & Hlt' & Htag' & Hrest).
    cbn [pet_starts_from].
    set (ps := pet_start lines (map _azure_tag_line lines) v v').
    assert (Hps : v < ps <= v').
    { apply pet_start_bound; [lia|]. rewrite length_map. lia. }
    change (blob_blocks_between lines (s :: ps :: ?rest))
      with (strip (join [nl] (sublist lines s ps))
            :: blob_blocks_between lines (ps :: rest)).
    destruct (IH v' ps) as [Hlen Hall]; [lia | |].
    { cbn [versus_at]. repeat split; try assumption. lia. }
    split; [cbn [List.length]; now rewrite Hlen|].
    constructor; [|exact Hall].
    apply (block_holds_versus lines s v); try assumption; lia.
Qed.

Lemma count_versus_nonempty (b : str) : 1 <= count_versus b -> nonempty b = true.
Proof. destruct b; [cbn; lia | reflexivity]. Qed.

(** X12: when a blob has at least one line that starts with Versus,
    [_azure_split_blob] returns exactly one block for each such line, none
    dropped as empty, and every block contains a Versus: a stub that is
    given one of the blocks is no stub any more. *)
Theorem azure_split_blob_per_versus (blob : str) :
  let versus := positions_of VERSUS 0 (map _azure_tag_line (split_nl blob)) in
  versus <> [] ->
  List.length (_azure_split_blob blob) = List.length versus
  /\ Forall (fun b => 1 <= count_versus b) (_azure_split_blob blob).
Proof.
  intros versus Hne. unfold _azure_split_blob. fold versus.
  pose proof (positions_of_versus_at (split_nl blob) []) as Hv.
  cbn [app List.length] in Hv. fold versus in Hv.
  destruct versus as [|v0 vs]; [contradiction|].
  destruct (blob_blocks_hold_versus (split_nl blob) vs v0 0) as [Hlen Hall];
    [lia | |].
  { cbn [versus_at] in Hv |- *. destruct Hv as (_ & H2 & H3 & H4).
    repeat split; try assumption. lia. }
  rewrite filter_all
    by (eapply Forall_impl; [|exact Hall]; apply count_versus_nonempty).
  split; [exact Hlen | exact Hall].
Qed.

Lemma azure_split_blob_per_versus_witness :
  List.length
    (_azure_split_blob
       (join [nl] (map lit [ "PET A"; "Versus"; "RESP A"; "PET B"; "Versus";
                             "RESP B" ]%string)))
  = 2
  /\ Forall (fun b => 1 <= count_versus b)
            (_azure_split_blob
               (join [nl] (map lit [ "PET A"; "Versus"; "RESP A"; "PET B";
                                     "Versus"; "RESP B" ]%string))).
Proof.
  apply (azure_split_blob_per_versus
           (join [nl] (map lit [ "PET A"; "Versus"; "RESP A"; "PET B"; "Versus";
                                 "RESP B" ]%string))).
  vm_compute. discriminate.
Defined.

(** ** The exceptions of the dispatcher *)

Lemma rstrip_last (s a : str) (c : ascii) :
  rstrip s = a ++ [c] -> is_space c = false.
Proof.
  unfold rstrip. intros H.
  pose proof (lstrip_stops (rev s)) as Hst.
  apply (f_equal (@rev ascii)) in H. rewrite rev_involutive in H.
  rewrite H, rev_app_distr in Hst. exact Hst.
Qed.

Lemma standalone_is_serial_text (l : str) :
  is_standalone (strip l) = true -> is_serial_text (strip l) = true.
Proof.
  unfold is_standalone, is_serial_text.
  destruct (serial_token (strip l)) as [[[d r] sub]|] eqn:E; [|discriminate].
  destruct r as [|c r]; [reflexivity|].
  destruct r as [|c' r]; [|discriminate].
  cbn [at_dollar]. intros Hc. apply ch_eqb_eq in Hc. subst c. exfalso.
  apply serial_token_ok in E as [_ Hs].
  unfold strip in Hs. apply rstrip_last in Hs. discriminate Hs.
Qed.

Lemma collect_standalones_serial (lines : list str) :
  forallb is_serial_text (fst (collect_standalones lines)) = true.
Proof.
  induction lines as [|l rest IH]; [reflexivity|].
  cbn [collect_standalones].
  destruct (is_standalone (strip l) && nonempty (strip l)) eqn:E.
  - destruct (collect_standalones rest) as [found k]. cbn [fst] in *.
    apply andb_true_iff in E as [E _].
    simpl. now rewrite (standalone_is_serial_text l E), IH.
  - destruct (negb (nonempty (strip l))); [|reflexivity].
    now destruct (collect_standalones rest).
Qed.

Lemma infer_serials_returns (prev : option N) (found : list str) (n : nat) :
  forallb is_serial_text found = true ->
  exists serials, _infer_serials prev found n = Some serials.
Proof.
  intros Hf. unfold _infer_serials. destruct found as [|f fs]; [now eexists|].
  rewrite (mains_of_serial_texts _ Hf). cbn [map].
  set (gap := str_range _ _).
  assert (Hlast : main_of (last (gap ++ f :: fs) [])
                  = Some (main_number (last (f :: fs) f))).
  { rewrite last_app_cons. apply main_of_serial_text.
    rewrite forallb_forall in Hf. apply Hf. apply last_In. discriminate. }
  destruct (gap ++ f :: fs) as [|c cs] eqn:Ec; [destruct gap; discriminate|].
  rewrite Hlast. now eexists.
Qed.

Lemma party_block_raises (frags : list str) (case0_pet : str) (i : nat) (e : exn) :
  party_block frags case0_pet i = Raise e -> e = IndexError.
Proof.
  unfold party_block, index.
  destruct i as [|i]; cbn [bind].
  - destruct (1 <? List.length frags); [|discriminate].
    destruct (nth_error frags 1); cbn [bind]; [discriminate|].
    now intros [= <-].
  - destruct (nth_error frags (S i)); cbn [bind]; [|now intros [= <-]].
    destruct (S (S i) <? List.length frags); [|discriminate].
    destruct (nth_error frags (S (S i))); cbn [bind]; [discriminate|].
    now intros [= <-].
Qed.

Lemma map_result_raises_one {A B : Type} (f : A -> result B) (l : list A)
      (e : exn) :
  map_result f l = Raise e -> exists x, In x l /\ f x = Raise e.
Proof.
  induction l as [|x l IH]; [discriminate|].
  cbn [map_result]. destruct (f x) as [y|e'] eqn:E; cbn [bind].
  - destruct (map_result f l) as [ys|e'']; cbn [bind]; [discriminate|].
    intros [= <-]. destruct (IH eq_refl) as (x' & Hin & Hx').
    exists x'. split; [now right | exact Hx'].
  - intros [= <-]. exists x. split; [now left | exact E].
Qed.

Lemma distribute_parties_raises (case_blocks serials : list str)
      (party_content : str) (e : exn) :
  _distribute_parties case_blocks serials party_content = Raise e ->
  e = IndexError.
Proof.
  unfold _distribute_parties.
  destruct (_ <? 2); [discriminate|].
  destruct (_split_frag0 _) as [frag0_resp case0_pet].
  destruct (map_result _ _) as [blocks|e'] eqn:E; cbn [bind]; [discriminate|].
  intros [= <-]. apply map_result_raises_one in E as (i & _ & Hi).
  exact (party_block_raises _ _ _ _ Hi).
Qed.

Lemma dump_zone_raises (last_inline : option N) (lines : list str) (e : exn) :
  dump_zone last_inline lines = Raise e -> e = IndexError.
Proof.
  unfold dump_zone.
  pose proof (collect_standalones_serial lines) as Hs.
  destruct (collect_standalones lines) as [standalones j]. cbn [fst] in Hs.
  destruct (List.length standalones <? 2); [discriminate|].
  destruct (_split_case_type_blocks _) as [|b bs]; [discriminate|].
  destruct (infer_serials_returns last_inline standalones
                                  (List.length (b :: bs)) Hs) as [serials ->].
  cbn [bind].
  match goal with
  | |- (let (_, _) := ?split in _) = _ -> _ =>
      destruct split as [case_blocks' party_content]
  end.
  destruct (nonempty party_content).
  - destruct (_distribute_parties case_blocks' serials party_content)
      as [[inline_resp party_blocks]|e'] eqn:E; cbn [bind].
    + discriminate.
    + intros [= <-]. exact (distribute_parties_raises _ _ _ _ E).
  - discriminate.
Qed.

Lemma reassemble_loop_raises (lines : list str) :
  forall skip last_inline e,
    reassemble_loop skip last_inline lines = Raise e -> e = IndexError.
Proof.
  induction lines as [|line rest IH]; intros skip last_inline e; [discriminate|].
  cbn [reassemble_loop]. destruct skip as [|k]; [|apply IH].
  assert (Hcopy : forall li,
             (out <- reassemble_loop 0 li rest;; Ok (line :: out)) = Raise e ->
             e = IndexError).
  { intros li. destruct (reassemble_loop 0 li rest) as [out|e'] eqn:E;
      cbn [bind]; [discriminate|].
    intros [= <-]. exact (IH _ _ _ E). }
  destruct (_is_genuine_inline_serial (strip line)); [apply Hcopy|].
  destruct (is_standalone (strip line) && nonempty (strip line));
    [|apply Hcopy].
  destruct (dump_zone last_inline (line :: rest))
    as [[[[emitted li] consumed]|]|e'] eqn:Ez; cbn [bind].
  - destruct (reassemble_loop (consumed - 1) li rest) as [out|e''] eqn:E;
      cbn [bind]; [discriminate|].
    intros [= <-]. exact (IH _ _ _ E).
  - apply Hcopy.
  - intros [= <-]. exact (dump_zone_raises _ _ _ Ez).
Qed.

Lemma canonical_digit_keys (d : dict) :
  keys_ok d -> Forall digit_key (keys d).
Proof.
  intros [_ H]. rewrite Forall_forall in *. intros k Hk.
  destruct (H k Hk) as (n & _ & Hd & Hne & _). now split.
Qed.

(** The Azure pipeline raises exactly when a candidate block has a
    sub-serial too long for [int]; blob redistribution always returns on
    what the stitching loop built. *)
Lemma segment_cases_azure_cases (text : str) :
  segment_cases_azure text
  = if existsb long_sub (azure_blocks text) then Raise IntError
    else Ok (redistribute_loop 0
               (sorted_by_float (keys (azure_stitched (azure_blocks text))))
               (azure_stitched (azure_blocks text))).
Proof.
  unfold segment_cases_azure. rewrite azure_stitch_cases.
  destruct (existsb long_sub (azure_blocks text)); [reflexivity|].
  cbn [bind]. apply redistribute_blobs_digits, canonical_digit_keys,
    azure_stitch_keys_canonical.
Qed.



(** ** Where the Tesseract and the Azure loop agree *)

Lemma head_ok_app (v s : str) : head_ok v -> head_ok (v ++ s).
Proof. intros (c & r & -> & H). exists c, (r ++ s). now split. Qed.

Lemma head_ok_not_marker (v : str) :
  head_ok v -> startswith v (lit "--- Connected") = false.
Proof.
  intros (c & r & -> & H). unfold startswith.
  change (lit "--- Connected") with ("-"%char :: lit "-- Connected").
  cbn [strip_prefix].
  replace (ch_eqb "-" c) with false; [reflexivity|].
  symmetry. destruct (ch_eqb "-" c) eqn:E; [|reflexivity].
  apply ch_eqb_eq in E. subst c. destruct H as [H|H]; discriminate H.
Qed.

Lemma mem_set_same (d : dict) (k v : str) : mem (set d k v) k = true.
Proof. unfold mem. now rewrite get_set_same. Qed.

Lemma mem_set_other (d : dict) (k k' v : str) :
  mem d k' = true -> mem (set d k v) k' = true.
Proof.
  unfold mem. intros H.
  destruct (str_eqb k' k) eqn:E.
  - apply str_eqb_eq in E. subst k'. now rewrite get_set_same.
  - apply str_eqb_neq in E. rewrite get_set_other by congruence. exact H.
Qed.

Lemma heads_set (d : dict) (k v : str) :
  (forall k' v', get d k' = Some v' -> head_ok v') -> head_ok v ->
  forall k' v', get (set d k v) k' = Some v' -> head_ok v'.
Proof.
  intros Hd Hv k' v' H.
  destruct (str_eqb k' k) eqn:E.
  - apply str_eqb_eq in E. subst k'. rewrite get_set_same in H.
    now injection H as <-.
  - apply str_eqb_neq in E. rewrite get_set_other in H by congruence.
    exact (Hd k' v' H).
Qed.

Lemma loops_agree (blocks : list str) :
  forall seen cases last_key,
    (forall k, In k seen -> mem cases k = true) ->
    (forall k v, get cases k = Some v -> head_ok v) ->
    parents_first seen blocks = true ->
    fold_left tesseract_turn blocks (cases, last_key)
    = fold_left azure_step (map classified blocks) (cases, last_key).
Proof.
  induction blocks as [|b blocks IH]; intros seen cases last_key Hseen Hhead Hpf;
    [reflexivity|].
  cbn [map fold_left]. cbn [parents_first] in Hpf.
  unfold tesseract_turn, tesseract_update. unfold azure_step at 2. unfold classified at 2.
  destruct (serial_of b) as [[main sub]|] eqn:Ep.
  - assert (Hb : head_ok b).
    { destruct (parsed_block_head b _ Ep) as (c & r & -> & Hc). now exists c, r. }
    destruct sub as [sub|].
    + apply andb_true_iff in Hpf as [Hin Hpf].
      apply existsb_exists in Hin as (k & Hk & Heq).
      apply str_eqb_eq in Heq. subst k.
      pose proof (Hseen _ Hk) as Hmem. rewrite Hmem.
      unfold append_value, get_default. unfold mem in Hmem.
      destruct (get cases (str_of_N main)) as [v|] eqn:Eg; [|discriminate].
      apply (IH seen); [| |exact Hpf].
      * intros k Hin. now apply mem_set_other, Hseen.
      * apply heads_set; [exact Hhead|]. apply head_ok_app. exact (Hhead _ _ Eg).
    + unfold mem at 2. unfold append_value, get_default, mem.
      destruct (get cases (str_of_N main)) as [v|] eqn:Eg.
      * rewrite (head_ok_not_marker v (Hhead _ _ Eg)).
        apply (IH (str_of_N main :: seen)); [| |exact Hpf].
        -- intros k [<-|Hin]; [apply mem_set_same|].
           now apply mem_set_other, Hseen.
        -- apply heads_set; [exact Hhead|]. apply head_ok_app.
           exact (Hhead _ _ Eg).
      * cbn [app].
        apply (IH (str_of_N main :: seen)); [| |exact Hpf].
        -- intros k [<-|Hin]; [apply mem_set_same|].
           now apply mem_set_other, Hseen.
        -- apply heads_set; [exact Hhead | exact Hb].
  - destruct last_key as [k|]; [|now apply (IH seen)].
    destruct (nonempty k); [|now apply (IH seen)].
    apply (IH seen); [| |exact Hpf].
    + intros k' Hin. unfold mem.
      destruct (str_eqb k' k) eqn:E.
      * apply str_eqb_eq in E. subst k'.
        pose proof (Hseen _ Hin) as Hm. unfold mem in Hm.
        destruct (get cases k) as [v|] eqn:Eg; [|discriminate].
        now rewrite (get_append_value_same _ _ _ _ Eg).
      * apply str_eqb_neq in E.
        rewrite get_append_value_other by congruence. now apply Hseen.
    + intros k' v' Hg.
      destruct (str_eqb k' k) eqn:E.
      * apply str_eqb_eq in E. subst k'.
        destruct (get cases k) as [v|] eqn:Eg.
        -- rewrite (get_append_value_same _ _ _ _ Eg) in Hg.
           injection Hg as <-. apply head_ok_app. exact (Hhead _ _ Eg).
        -- unfold append_value in Hg. rewrite Eg in Hg. congruence.
      * apply str_eqb_neq in E.
        rewrite get_append_value_other in Hg by congruence.
        exact (Hhead _ _ Hg).
Qed.

(** X14: fed the same blocks, the merging loop of the Tesseract pipeline
    and the stitching loop of the Azure pipeline give the same result, the
    same mapping or the same exception, provided every connected sub-case
    block comes after the parent block of its main serial.  The two loops
    differ only on a sub-case that arrives before its parent. *)
Theorem tesseract_azure_loops_agree (blocks : list str) :
  parents_first [] blocks = true ->
  tesseract_merge blocks = azure_stitch blocks.
Proof.
  intros H. rewrite tesseract_merge_cases, azure_stitch_cases.
  destruct (existsb long_sub blocks); [reflexivity|].
  unfold tesseract_merged, azure_stitched. do 2 f_equal.
  apply (loops_agree blocks []); [intros k [] | discriminate | exact H].
Qed.

Lemma tesseract_azure_loops_agree_witness :
  tesseract_merge [lit "4 C.A. No. 5/2020"; lit "4.1 SLP(C) No. 6/2020"]
  = azure_stitch [lit "4 C.A. No. 5/2020"; lit "4.1 SLP(C) No. 6/2020"].
Proof.
  apply (tesseract_azure_loops_agree
           [lit "4 C.A. No. 5/2020"; lit "4.1 SLP(C) No. 6/2020"]).
  reflexivity.
Defined.

(** ** The case endpoint *)



Lemma segment_serial_keys (text engine : str) (cases : dict) :
  engine <> lit "paddle" ->
  segment_cases text engine = Ok cases -> Forall serial_key (keys cases).
Proof.
  intros Hne. unfold segment_cases.
  destruct (str_eqb engine (lit "tesseract"));
    [apply tesseract_serial_keys|].
  destruct (str_eqb engine (lit "azure")); [apply azure_serial_keys|].
  destruct (str_eqb engine (lit "paddle")) eqn:E; [|discriminate].
  apply str_eqb_eq in E. contradiction.
Qed.

Lemma digit_not_int_space (c : ascii) :
  is_digit c = true -> is_int_space c = false.
Proof. destruct c as [[] [] [] [] [] [] [] []]; vm_compute; congruence. Qed.

Lemma digit_not_sign (c : ascii) :
  is_digit c = true -> ch_eqb c "-"%char = false /\ ch_eqb c "+"%char = false.
Proof. destruct c as [[] [] [] [] [] [] [] []]; vm_compute; intuition congruence. Qed.

Lemma int_body_digits (k : str) (after_digit : bool) :
  forallb is_digit k = true -> k <> [] -> int_body k after_digit = true.
Proof.
  revert after_digit. induction k as [|c k IH]; intros b Hd Hne; [contradiction|].
  simpl in Hd. apply andb_true_iff in Hd as [Hc Hk].
  cbn [int_body]. rewrite Hc.
  destruct k as [|c' k]; [reflexivity|]. apply IH; [exact Hk | discriminate].
Qed.

Lemma filter_digits (k : str) : forallb is_digit k = true -> filter is_digit k = k.
Proof.
  induction k as [|c k IH]; [reflexivity|]. simpl. intros H.
  apply andb_true_iff in H as [Hc Hk]. now rewrite Hc, IH.
Qed.

(** On a run of digits [int] fails exactly when the run is longer than 4300. *)
Lemma int_of_digit_key (k : str) :
  digit_key k ->
  int_of_str k = if int_max_str_digits <? List.length k then None
                 else Some (Z.of_N (int_of_digits k)).
Proof.
  intros [Hne Hd]. unfold int_of_str.
  assert (Hsp : forall x, forallb is_digit x = true ->
                          snd (span is_int_space x) = x).
  { intros x Hx. destruct x as [|c x]; [reflexivity|].
    simpl in Hx. apply andb_true_iff in Hx as [Hc _].
    simpl. now rewrite (digit_not_int_space c Hc). }
  rewrite (Hsp k Hd), (Hsp (rev k)) by (now rewrite forallb_rev).
  rewrite rev_involutive.
  destruct k as [|c k]; [contradiction|].
  pose proof Hd as Hd'. simpl in Hd'. apply andb_true_iff in Hd' as [Hc _].
  destruct (digit_not_sign c Hc) as [-> ->].
  rewrite (int_body_digits (c :: k) false Hd Hne).
  now rewrite (filter_digits (c :: k) Hd).
Qed.

Lemma sorted_by_int_short_keys (ks : list str) :
  Forall (fun k => digit_key k /\ List.length k <= int_max_str_digits) ks ->
  forall acc, exists l, sorted_by_int_go ks acc = Ok l.
Proof.
  induction 1 as [|k ks [Hk Hl] _ IH]; intros acc; [now eexists|].
  cbn [sorted_by_int_go]. rewrite (int_of_digit_key k Hk).
  apply Nat.ltb_ge in Hl. rewrite Hl. apply IH.
Qed.


Lemma str_of_Z_of_N (n : N) : str_of_Z (Z.of_N n) = str_of_N n.
Proof. destruct n; reflexivity. Qed.

Lemma str_int_below_1000 (n : N) :
  (n < 1000)%N -> str_int (Z.of_N n) = Ok (str_of_N n).
Proof.
  intros H. unfold str_int. rewrite Zabs2N.id.
  pose proof (str_of_N_length_below_1000 n H) as Hl.
  assert (Hs : (int_max_str_digits <? List.length (str_of_N n)) = false)
    by (apply Nat.ltb_ge; unfold int_max_str_digits; lia).
  now rewrite Hs, str_of_Z_of_N.
Qed.

Lemma str_int_Ok (z : Z) (key : str) : str_int z = Ok key -> key = str_of_Z z.
Proof.
  unfold str_int. destruct (_ <? _); [discriminate|]. now intros [= <-].
Qed.

(** X15: with the Tesseract or the Azure engine, every case of the mapping
    stored for the current document can be fetched from the case endpoint:
    its key is the decimal form of a number, and asking for that number
    returns the text stored under the key. *)
Theorem get_case_finds_every_case (s : server) (h : str) (entry : cache_entry)
        (text engine : str) (k v : str) :
  current_file_hash s = Some h -> lookup (cache s) h = Some entry ->
  engine <> lit "paddle" ->
  segment_cases text engine = Ok (entry_cases entry) ->
  get (entry_cases entry) k = Some v ->
  exists n : N,
    k = str_of_N n
    /\ get_case s (Z.of_N n) = Respond {| sno := Z.of_N n; content := v |}.
Proof.
  intros Hh Hc Hne Hseg Hk.
  pose proof (segment_serial_keys _ _ _ Hne Hseg) as Hkeys.
  rewrite Forall_forall in Hkeys.
  destruct (Hkeys k (get_In _ _ _ Hk)) as (n & Hn & ->).
  exists n. split; [reflexivity|].
  unfold get_case. rewrite Hh, Hc. cbv zeta.
  now rewrite (str_int_below_1000 n Hn), Hk.
Qed.

Lemma get_case_finds_every_case_witness :
  exists n : N,
    lit "12" = str_of_N n
    /\ get_case {| cache := [(lit "h:azure",
                             {| entry_cases := [(lit "12", lit "12 C.A. No. 5/2020")];
                                entry_engine := lit "azure";
                                entry_pages := 1;
                                entry_raw_text := lit "12 C.A. No. 5/2020" |})];
                   current_file_hash := Some (lit "h:azure") |}
                (Z.of_N n)
       = Respond {| sno := Z.of_N n; content := lit "12 C.A. No. 5/2020" |}.
Proof.
  apply (get_case_finds_every_case
           _ (lit "h:azure")
           {| entry_cases := [(lit "12", lit "12 C.A. No. 5/2020")];
              entry_engine := lit "azure";
              entry_pages := 1;
              entry_raw_text := lit "12 C.A. No. 5/2020" |}
           (lit "12 C.A. No. 5/2020") (lit "azure")).
  - reflexivity.
  - reflexivity.
  - discriminate.
  - vm_compute. reflexivity.
  - reflexivity.
Defined.



(** ** The factory and the dispatcher *)

Lemma tesseract_no_value_error (text : str) (msg : str) :
  segment_cases_tesseract text <> Raise (ValueError msg).
Proof.
  unfold segment_cases_tesseract.
  destruct (tesseract_blocks text) as [blocks|e] eqn:Eb; cbn [bind].
  - rewrite tesseract_merge_cases. destruct (existsb _ _); discriminate.
  - unfold tesseract_blocks, _reassemble_column_dumps in Eb.
    destruct (reassemble_loop 0 None _) as [out|e'] eqn:E; cbn [bind] in Eb;
      [discriminate|].
    injection Eb as <-. apply reassemble_loop_raises in E. subst e'.
    discriminate.
Qed.

(** X17: the extractor factory and the dispatcher know the same engine
    names.  For azure, paddle and tesseract the factory calls the class
    registered under the name and the dispatcher does not raise its
    unsupported-engine error; for every other name both raise [ValueError],
    the factory with a message that quotes the name and lists azure, paddle,
    tesseract. *)
Theorem factory_and_dispatcher_agree {E : Type}
        (new : extractor_class -> result E) (text engine : str) :
  (exists cls,
      In (engine, cls) engines
      /\ get_extractor new engine = new cls
      /\ segment_cases text engine
         <> Raise (ValueError (lit "Unsupported OCR engine: " ++ engine)))
  \/ (get_extractor new engine
      = Raise (ValueError (lit "Unknown engine: '" ++ engine
                           ++ lit "'. Supported engines: azure, paddle, tesseract"))
      /\ segment_cases text engine
         = Raise (ValueError (lit "Unsupported OCR engine: " ++ engine))).
Proof.
  unfold get_extractor, segment_cases, engines. cbn [lookup].
  destruct (str_eqb engine (lit "azure")) eqn:Ea.
  { apply str_eqb_eq in Ea. subst engine. left.
    exists AzureDocumentIntelligenceExtractor.
    split; [now left|]. split; [reflexivity|].
    cbn [str_eqb]. rewrite segment_cases_azure_cases.
    destruct (existsb _ _); discriminate. }
  destruct (str_eqb engine (lit "paddle")) eqn:Ep.
  { apply str_eqb_eq in Ep. subst engine. left.
    exists PaddleOCRExtractor.
    split; [right; now left|]. split; [reflexivity|].
    cbn [str_eqb]. rewrite segment_cases_paddle_returns. discriminate. }
  destruct (str_eqb engine (lit "tesseract")) eqn:Et.
  { apply str_eqb_eq in Et. subst engine. left.
    exists TesseractExtractor.
    split; [right; right; now left|]. split; [reflexivity|].
    apply tesseract_no_value_error. }
  right. split; reflexivity.
Qed.

(** ** No block with a serial is lost *)

Lemma infix_suffix (a b : str) : infix b (a ++ b).
Proof. exists a, []. now rewrite app_nil_r. Qed.

Lemma tesseract_keeps_block (blocks : list str) (b : str) (m : N)
      (sub : option N) :
  In b blocks -> serial_of b = Some (m, sub) ->
  exists v, get (tesseract_merged blocks) (str_of_N m) = Some v /\ infix b v.
Proof.
  intros Hin Hp. apply in_split in Hin as (pre & post & ->).
  unfold tesseract_merged. rewrite fold_left_app. cbn [fold_left].
  destruct (fold_left tesseract_turn pre ([], None)) as [c0 l0].
  destruct sub as [s|].
  - eapply (infix_grows _ _ _ _ _
              (fold_grows tesseract_turn post _ tesseract_step_grows)).
    + unfold tesseract_turn, tesseract_update. rewrite Hp. cbn [fst]. apply get_set_same.
    + replace (get_default c0 (str_of_N m)
               ++ nl :: nl :: connected_marker m s ++ nl :: b)
        with ((get_default c0 (str_of_N m)
               ++ nl :: nl :: connected_marker m s ++ [nl]) ++ b)
        by (rewrite <- !app_assoc; cbn [app]; now rewrite <- app_assoc).
      apply infix_suffix.
  - eapply (infix_grows _ _ _ _ _
              (fold_grows tesseract_turn post _ tesseract_step_grows)).
    + unfold tesseract_turn, tesseract_update. rewrite Hp. cbn [fst]. apply get_set_same.
    + rewrite app_assoc. apply infix_suffix.
Qed.

Lemma azure_keeps_block (blocks : list str) (b : str) (m : N)
      (sub : option N) :
  In b blocks -> serial_of b = Some (m, sub) ->
  exists v, get (azure_stitched blocks) (str_of_N m) = Some v /\ infix b v.
Proof.
  intros Hin Hp. apply in_split in Hin as (pre & post & ->).
  unfold azure_stitched. rewrite map_app, fold_left_app. cbn [map fold_left].
  destruct (fold_left azure_step (map classified pre) ([], None)) as [c0 l0].
  unfold azure_step at 2, classified at 2. rewrite Hp. unfold mem.
  assert (Hpost := fun st => fold_grows azure_step (map classified post) st
                                        azure_step_grows).
  destruct sub as [s|]; destruct (get c0 (str_of_N m)) as [v0|] eqn:Eg.
  - eapply (infix_grows _ _ _ _ _ (Hpost _)).
    + cbn [fst]. apply (get_append_value_same _ _ _ _ Eg).
    + replace (v0 ++ nl :: nl :: connected_marker m s ++ nl :: b)
        with ((v0 ++ nl :: nl :: connected_marker m s ++ [nl]) ++ b)
        by (rewrite <- !app_assoc; cbn [app]; now rewrite <- app_assoc).
      apply infix_suffix.
  - eapply (infix_grows _ _ _ _ _ (Hpost _)).
    + cbn [fst]. apply get_set_same.
    + replace (connected_marker m s ++ nl :: b)
        with ((connected_marker m s ++ [nl]) ++ b)
        by (now rewrite <- app_assoc).
      apply infix_suffix.
  - destruct (startswith (get_default c0 (str_of_N m)) (lit "--- Connected")).
    + eapply (infix_grows _ _ _ _ _ (Hpost _)).
      * cbn [fst]. apply get_set_same.
      * exists [], (nl :: nl :: get_default c0 (str_of_N m)). reflexivity.
    + eapply (infix_grows _ _ _ _ _ (Hpost _)).
      * cbn [fst]. apply (get_append_value_same _ _ _ _ Eg).
      * replace (v0 ++ nl :: nl :: b) with ((v0 ++ [nl; nl]) ++ b)
          by (now rewrite <- app_assoc).
        apply infix_suffix.
  - eapply (infix_grows _ _ _ _ _ (Hpost _)).
    + cbn [fst]. apply get_set_same.
    + exists [], []. now rewrite app_nil_r.
Qed.

(** X18: no block with a serial is lost.  Every candidate block that
    parses to a serial with main number m is found, whole, in the text the
    Tesseract pipeline returns under key str(m), and in the text the Azure
    pipeline has under that key before blob redistribution; whatever is
    stored later under the key only adds text before or after it.  The
    pipelines return these mappings when every candidate block parses, that
    is, when no sub-serial is too long for [int]. *)
Theorem serial_blocks_are_kept (text b : str) (m : N) (sub : option N) :
  _tesseract_parse_serial b = Ok (Some (m, sub)) ->
  (forall blocks,
      tesseract_blocks text = Ok blocks ->
      (forall b', In b' blocks -> exists p, _tesseract_parse_serial b' = Ok p) ->
      In b blocks ->
      exists cases v,
        segment_cases_tesseract text = Ok cases
        /\ get cases (str_of_N m) = Some v /\ infix b v)
  /\ ((forall b', In b' (azure_blocks text) ->
                  exists p, _tesseract_parse_serial b' = Ok p) ->
      In b (azure_blocks text) ->
      exists cases v,
        azure_stitch (azure_blocks text) = Ok cases
        /\ get cases (str_of_N m) = Some v /\ infix b v).
Proof.
  intros Hp. apply parse_serial_Ok in Hp. split.
  - intros blocks Hb Hall Hin. unfold segment_cases_tesseract. rewrite Hb.
    cbn [bind].
    destruct (tesseract_keeps_block blocks b m sub Hin Hp) as (v & Hv & Hi).
    exists (tesseract_merged blocks), v. split; [|now split].
    now rewrite tesseract_merge_cases, (all_parse_not_long blocks Hall).
  - intros Hall Hin.
    destruct (azure_keeps_block _ b m sub Hin Hp) as (v & Hv & Hi).
    exists (azure_stitched (azure_blocks text)), v. split; [|now split].
    now rewrite azure_stitch_cases, (all_parse_not_long _ Hall).
Qed.

Lemma serial_blocks_are_kept_witness :
  exists cases v,
    azure_stitch (azure_blocks (lit "4.1 SLP(C) No. 6/2020" ++ nl
                                    :: lit "4 C.A. No. 5/2020"))
    = Ok cases
    /\ get cases (str_of_N 4) = Some v
    /\ infix (lit "4 C.A. No. 5/2020") v.
Proof.
  apply (proj2 (serial_blocks_are_kept
                  (lit "4.1 SLP(C) No. 6/2020" ++ nl :: lit "4 C.A. No. 5/2020")
                  (lit "4 C.A. No. 5/2020") 4 None eq_refl)).
  - intros b' [<-|[<-|[]]]; eexists; reflexivity.
  - vm_compute. right. now left.
Defined.

(** ** Blob redistribution conserves the Versus occurrences *)

Lemma count_versus_nil : count_versus [] = 0.
Proof. reflexivity. Qed.

Lemma list_sum_cons (x : nat) (l : list nat) : list_sum (x :: l) = x + list_sum l.
Proof. reflexivity. Qed.

Lemma list_sum_counts_app (a b : list str) :
  list_sum (map count_versus (a ++ b))
  = list_sum (map count_versus a) + list_sum (map count_versus b).
Proof. now rewrite map_app, list_sum_app. Qed.

Lemma offset_of_line_nil (k : nat) : offset_of_line [] k = 0.
Proof. unfold offset_of_line. now rewrite firstn_nil. Qed.

Lemma offset_of_line_cons (l : str) (ls : list str) (k : nat) :
  offset_of_line (l :: ls) (S k) = List.length l + 1 + offset_of_line ls k.
Proof. reflexivity. Qed.

(** A cut at the start of a line does not cut through a Versus. *)
Lemma offset_of_line_cut (lines : list str) :
  forall k,
    count_versus (firstn (offset_of_line lines k) (join [nl] lines))
    + count_versus (skipn (offset_of_line lines k) (join [nl] lines))
    = count_versus (join [nl] lines).
Proof.
  induction lines as [|l ls IH]; intros k.
  - rewrite offset_of_line_nil. reflexivity.
  - destruct k as [|k]; [reflexivity|].
    rewrite offset_of_line_cons. destruct ls as [|l' ls].
    + rewrite offset_of_line_nil. cbn [join].
      rewrite firstn_all2, skipn_all2 by lia. rewrite count_versus_nil. lia.
    + change (join [nl] (l :: l' :: ls)) with (l ++ nl :: join [nl] (l' :: ls)).
      set (rest := join [nl] (l' :: ls)) in *.
      set (bs := offset_of_line (l' :: ls) k) in *.
      specialize (IH k). fold bs in IH.
      replace (List.length l + 1 + bs) with (List.length (l ++ [nl]) + bs)
        by (rewrite length_app; simpl; lia).
      replace (l ++ nl :: rest) with ((l ++ [nl]) ++ rest)
        by (now rewrite <- app_assoc).
      rewrite firstn_app_2, skipn_app.
      rewrite skipn_all2 by lia.
      replace (List.length (l ++ [nl]) + bs - List.length (l ++ [nl])) with bs
        by lia.
      cbn [app]. rewrite <- !app_assoc. cbn [app].
      rewrite !(count_versus_sep l _ nl nl_not_word). lia.
Qed.

Lemma blob_start_is_offset (text : str) :
  (exists k, _azure_find_blob_start text = offset_of_line (split_nl text) k)
  \/ _azure_find_blob_start text = List.length text.
Proof.
  unfold _azure_find_blob_start.
  destruct (positions_of VERSUS 0 _) as [|first_versus vs]; [now right|].
  left. cbv zeta.
  match goal with
  | |- exists k, Nat.max (offset_of_line _ ?a) ?b = _ =>
      destruct (Nat.max_spec (offset_of_line (split_nl text) a) b)
        as [[_ ->]|[_ ->]]
  end.
  - destruct (_ <? _); [now eexists | now exists 0].
  - now eexists.
Qed.

Lemma blob_start_cut (section : str) :
  count_versus (firstn (_azure_find_blob_start section) section)
  + count_versus (skipn (_azure_find_blob_start section) section)
  = count_versus section.
Proof.
  destruct (blob_start_is_offset section) as [[k ->]| ->].
  - pose proof (offset_of_line_cut (split_nl section) k) as H.
    now rewrite join_split_nl in H.
  - rewrite firstn_all, skipn_all. rewrite count_versus_nil. lia.
Qed.

(** The blocks between consecutive starts tile the lines from the first
    start on. *)
Lemma blob_blocks_tile (lines : list str) (starts : list nat) :
  forall s,
    increasing_to (List.length lines) s starts ->
    list_sum (map count_versus (blob_blocks_between lines (s :: starts)))
    = list_sum (map count_versus (skipn s lines)).
Proof.
  induction starts as [|s' starts IH]; intros s H.
  - cbn [blob_blocks_between map]. rewrite list_sum_cons.
    change (list_sum []) with 0.
    rewrite count_versus_strip, count_versus_join.
    unfold sublist. rewrite firstn_all2 by (rewrite length_skipn; lia). lia.
  - cbn [increasing_to] in H. destruct H as (H1 & H2 & H3).
    change (blob_blocks_between lines (s :: s' :: starts))
      with (strip (join [nl] (sublist lines s s'))
            :: blob_blocks_between lines (s' :: starts)).
    cbn [map]. rewrite list_sum_cons, (IH s' H3).
    rewrite count_versus_strip, count_versus_join.
    rewrite <- list_sum_counts_app. f_equal. f_equal.
    unfold sublist.
    replace (skipn s' lines) with (skipn (s' - s) (skipn s lines))
      by (rewrite skipn_skipn; f_equal; lia).
    apply firstn_skipn.
Qed.

Lemma pet_starts_increasing (lines : list str) (vs : list nat) :
  forall v,
    versus_at lines v (v :: vs) ->
    increasing_to (List.length lines) v
                  (pet_starts_from lines (map _azure_tag_line lines) v vs).
Proof.
  induction vs as [|v' vs IH]; intros v Hv; [exact I|].
  pose proof Hv as Hv0. cbn [versus_at] in Hv.
  destruct Hv as (_ & Hlt & Htag & Hv' & Hlt' & Htag' & Hrest).
  cbn [pet_starts_from increasing_to].
  set (ps := pet_start lines (map _azure_tag_line lines) v v').
  assert (Hps : v < ps <= v').
  { apply pet_start_bound; [lia|]. rewrite length_map. lia. }
  split; [lia|]. split; [lia|].
  assert (Hnext : increasing_to (List.length lines) v'
                    (pet_starts_from lines (map _azure_tag_line lines) v' vs)).
  { apply IH. cbn [versus_at]. repeat split; try assumption. lia. }
  destruct (pet_starts_from lines (map _azure_tag_line lines) v' vs)
    as [|p ps']; [exact I|].
  cbn [increasing_to] in *. destruct Hnext as (Ha & Hb & Hc).
  repeat split; try assumption. lia.
Qed.

Lemma list_sum_filter_nonempty (l : list str) :
  list_sum (map count_versus (filter nonempty l))
  = list_sum (map count_versus l).
Proof.
  induction l as [|x l IH]; [reflexivity|]. cbn [filter map].
  rewrite list_sum_cons.
  destruct x as [|c x]; cbn [nonempty map].
  - rewrite IH. now rewrite count_versus_nil.
  - now rewrite list_sum_cons, IH.
Qed.

(** The blocks of a blob hold all its Versus occurrences, each once. *)
Lemma split_blob_counts (blob : str) :
  list_sum (map count_versus (_azure_split_blob blob)) = count_versus blob.
Proof.
  unfold _azure_split_blob.
  pose proof (positions_of_versus_at (split_nl blob) []) as Hv.
  cbn [app List.length] in Hv.
  destruct (positions_of VERSUS 0 _) as [|v0 vs].
  - destruct (nonempty (strip blob)) eqn:E.
    + cbn [map]. rewrite list_sum_cons, count_versus_strip.
      change (list_sum []) with 0. lia.
    + rewrite <- (count_versus_strip blob).
      destruct (strip blob); [reflexivity | discriminate].
  - rewrite list_sum_filter_nonempty, blob_blocks_tile.
    + cbn [skipn]. rewrite <- count_versus_join. now rewrite join_split_nl.
    + assert (H : increasing_to (List.length (split_nl blob)) v0
                    (pet_starts_from (split_nl blob)
                       (map _azure_tag_line (split_nl blob)) v0 vs)).
      { apply pet_starts_increasing. cbn [versus_at] in Hv |- *.
        destruct Hv as (_ & H2 & H3 & H4). repeat split; try assumption. lia. }
      destruct (pet_starts_from _ _ v0 vs) as [|p ps]; [exact I|].
      cbn [increasing_to] in *. destruct H as (Ha & Hb & Hc).
      repeat split; try assumption. lia.
Qed.

Lemma total_versus_set (d : dict) (k v : str) :
  total_versus (set d k v) + count_versus (get_default d k)
  = total_versus d + count_versus v.
Proof.
  unfold total_versus, get_default.
  induction d as [|[k' v'] d IH]; cbn [set get map snd].
  - rewrite list_sum_cons. change (list_sum []) with 0.
    rewrite count_versus_nil. lia.
  - destruct (str_eqb k k'); cbn [map snd]; rewrite !list_sum_cons; lia.
Qed.

Lemma give_to_stubs_total (stubs : list str) :
  forall blocks result,
    total_versus (give_to_stubs result stubs blocks)
    = total_versus result
      + list_sum (map count_versus (firstn (List.length stubs) blocks)).
Proof.
  induction stubs as [|s stubs IH]; intros blocks result.
  - cbn [give_to_stubs List.length firstn map]. change (list_sum []) with 0. lia.
  - destruct blocks as [|b blocks].
    { cbn [give_to_stubs List.length firstn map]. change (list_sum []) with 0.
      lia. }
    cbn [give_to_stubs List.length firstn map]. rewrite IH, list_sum_cons.
    pose proof (total_versus_set result s
                  (insert_block (get_default result s) b)) as H.
    rewrite count_versus_insert_block in H. lia.
Qed.

Lemma give_to_stubs_other (stubs : list str) (owner : str) :
  ~ In owner stubs ->
  forall blocks result,
    get_default (give_to_stubs result stubs blocks) owner
    = get_default result owner.
Proof.
  induction stubs as [|s stubs IH]; intros Hn blocks result; [reflexivity|].
  destruct blocks as [|b blocks]; [reflexivity|].
  cbn [give_to_stubs]. rewrite IH by (intros H; apply Hn; now right).
  apply get_default_set_other. intros ->. apply Hn. now left.
Qed.

Lemma list_sum_replace (l : list str) (idx : nat) (x : str) :
  idx < List.length l ->
  list_sum (map count_versus (replace_nth l idx x)) + count_versus (nth idx l [])
  = list_sum (map count_versus l) + count_versus x.
Proof.
  revert idx. induction l as [|y l IH]; intros idx Hlt; [simpl in Hlt; lia|].
  destruct idx as [|idx]; cbn [replace_nth map nth]; rewrite !list_sum_cons.
  - lia.
  - specialize (IH idx). simpl in Hlt. lia.
Qed.

Lemma owner_section_count (header : str) (extra : list str) :
  count_versus
    match extra with
    | _ :: _ => strip (header ++ nl :: join [nl] extra)
    | [] => strip header
    end
  = count_versus header + list_sum (map count_versus extra).
Proof.
  destruct extra as [|e extra].
  - rewrite count_versus_strip. cbn [map]. change (list_sum []) with 0. lia.
  - rewrite count_versus_strip, (count_versus_sep _ _ nl nl_not_word).
    now rewrite count_versus_join.
Qed.

(** One run of stubs and its blob owner keep the total. *)
Lemma redistribute_run_total (result result' : dict) (stubs : list str)
      (owner : str) :
  ~ In owner stubs ->
  redistribute_run result stubs owner = Some result' ->
  total_versus result' = total_versus result.
Proof.
  intros Hn. unfold redistribute_run.
  set (owner_text := get_default result owner).
  set (sections := split_before (nl :: lit "--- Connected ") owner_text).
  destruct (blob_section_index sections) as [idx|] eqn:Ei; [|discriminate].
  set (section := nth idx sections []).
  set (bs := _azure_find_blob_start section).
  destruct (_azure_split_blob (skipn bs section)) as [|b blocks] eqn:Eb;
    [discriminate|].
  intros [= <-].
  set (all := b :: blocks) in *.
  set (n := List.length stubs).
  set (new_section := match skipn n all with
                      | _ :: _ => _
                      | [] => _
                      end).
  pose proof (total_versus_set (give_to_stubs result stubs all) owner
                (join [nl] (filter (fun s => nonempty (strip s))
                                   (replace_nth sections idx new_section))))
    as Hset.
  rewrite (give_to_stubs_other stubs owner Hn), give_to_stubs_total in Hset.
  fold owner_text n in Hset.
  rewrite count_versus_join, list_sum_filter_nonblank in Hset.
  apply (last_index_Some _ _ _ []) in Ei as [Hidx _].
  pose proof (list_sum_replace sections idx new_section Hidx) as Hrep.
  fold section in Hrep.
  assert (Hnew : count_versus new_section
                 = count_versus (firstn bs section)
                   + list_sum (map count_versus (skipn n all))).
  { unfold new_section. rewrite owner_section_count.
    now rewrite count_versus_rstrip. }
  pose proof (blob_start_cut section) as Hcut. fold bs in Hcut.
  pose proof (split_blob_counts (skipn bs section)) as Hblob.
  rewrite Eb in Hblob. fold all in Hblob.
  rewrite <- (firstn_skipn n all) in Hblob at 1.
  rewrite list_sum_counts_app in Hblob.
  assert (Howner : count_versus owner_text
                   = list_sum (map count_versus sections)).
  { destruct (split_before_shape (lit "--- Connected ") owner_text)
      as (Hc & _ & Ht).
    fold sections in Hc, Ht. rewrite <- Hc at 1.
    now apply count_versus_concat. }
  lia.
Qed.

Lemma take_stubs_are_stubs (result : dict) (ks : list str) (k : str) :
  In k (take_stubs result ks) -> is_stub result k = true.
Proof.
  induction ks as [|x ks IH]; [contradiction|]. cbn [take_stubs].
  destruct (is_stub result x) eqn:E; [|contradiction].
  intros [<-|H]; [exact E | now apply IH].
Qed.

Lemma take_stubs_stop (result : dict) (ks : list str) (owner : str)
      (rest : list str) :
  skipn (List.length (take_stubs result ks)) ks = owner :: rest ->
  is_stub result owner = false.
Proof.
  induction ks as [|x ks IH]; [discriminate|]. cbn [take_stubs].
  destruct (is_stub result x) eqn:E.
  - cbn [List.length skipn]. exact IH.
  - cbn [List.length skipn]. now intros [= <- _].
Qed.

Lemma redistribute_loop_total (ks : list str) :
  forall skip result,
    total_versus (redistribute_loop skip ks result) = total_versus result.
Proof.
  induction ks as [|key rest IH]; intros skip result; [reflexivity|].
  cbn [redistribute_loop]. destruct skip as [|k]; [|apply IH].
  destruct (negb (is_stub result key)); [apply IH|].
  destruct (skipn _ (key :: rest)) as [|owner tail] eqn:Es; [reflexivity|].
  destruct (redistribute_run result _ owner) as [result'|] eqn:Er; [|apply IH].
  rewrite IH. refine (redistribute_run_total _ _ _ _ _ Er).
  intros Hin. apply take_stubs_are_stubs in Hin.
  apply take_stubs_stop in Es. congruence.
Qed.

(** X19: blob redistribution neither creates nor destroys a Versus: the
    number of Versus occurrences, counted over all the cases of the mapping,
    is the same before and after.  What a stub gains, its blob owner
    loses. *)
Theorem redistribute_blobs_conserves_versus (cases : dict) :
  (Forall digit_key (keys cases) ->
   exists result, _azure_redistribute_blobs cases = Ok result)
  /\ forall result,
       _azure_redistribute_blobs cases = Ok result ->
       total_versus result = total_versus cases.
Proof.
  split.
  - intros H. eexists. now apply redistribute_blobs_digits.
  - intros result Hr. apply redistribute_blobs_Ok in Hr. subst result.
    apply redistribute_loop_total.
Qed.

Lemma redistribute_blobs_conserves_versus_witness :
  exists result,
    _azure_redistribute_blobs
      [(lit "1", lit "1 C.A. No. 1/2020");
       (lit "2", lit "2 C.A. No. 2/2020" ++ nl :: lit "PET A" ++ nl
                   :: lit "Versus" ++ nl :: lit "RESP A" ++ nl :: lit "PET B"
                   ++ nl :: lit "Versus" ++ nl :: lit "RESP B")]
    = Ok result
    /\ total_versus result = 2.
Proof.
  destruct (redistribute_blobs_conserves_versus
              [(lit "1", lit "1 C.A. No. 1/2020");
               (lit "2", lit "2 C.A. No. 2/2020" ++ nl :: lit "PET A" ++ nl
                           :: lit "Versus" ++ nl :: lit "RESP A" ++ nl
                           :: lit "PET B" ++ nl :: lit "Versus" ++ nl
                           :: lit "RESP B")])
    as [Hret Hsame].
  destruct Hret as [result Hr]; [repeat constructor; discriminate|].
  exists result. split; [exact Hr|].
  rewrite (Hsame result Hr). reflexivity.
Defined.

(** ** The page batches of the Azure extractor *)

Lemma batch_prefix (n c : nat) :
  2 * c <= n + 1 ->
  List.concat
    (map requested_pages
         (map (fun start => (start, Nat.min (start + BATCH_SIZE - 1) n))
              (map (fun i => 1 + BATCH_SIZE * i) (seq 0 c))))
  = seq 1 (Nat.min (2 * c) n).
Proof.
  induction c as [|c IH]; intros H; [reflexivity|].
  rewrite seq_S, !map_app, concat_app, IH by lia.
  cbn [map List.concat Nat.add]. rewrite app_nil_r.
  unfold requested_pages, BATCH_SIZE. cbn [fst snd].
  replace (Nat.min (2 * c) n) with (2 * c) by lia.
  replace (Nat.min (2 * S c) n) with (2 * c + (Nat.min (2 * S c) n - 2 * c))
    by lia.
  rewrite seq_app. f_equal. f_equal; lia.
Qed.

(** X20: the Azure extractor asks for every page from 1 to the last page
    exactly once and in order, in batches of one or two pages; the last page
    is the page count of the document, or [max_pages] when that is positive
    and smaller. *)
Theorem azure_batches_cover (max_pages : Z) (total_pages : nat) :
  let last := last_page max_pages total_pages in
  List.concat (map requested_pages (batches last)) = seq 1 last
  /\ Forall (fun b => 1 <= List.length (requested_pages b) <= BATCH_SIZE)
            (batches last)
  /\ last <= total_pages.
Proof.
  intros last. split; [|split].
  - unfold batches, range_step.
    replace (last + 1 - 1 + BATCH_SIZE - 1) with (last + 1)
      by (unfold BATCH_SIZE; lia).
    rewrite batch_prefix.
    + f_equal. unfold BATCH_SIZE.
      pose proof (Nat.div_mod_eq (last + 1) 2) as Hd.
      pose proof (Nat.mod_upper_bound (last + 1) 2). lia.
    + unfold BATCH_SIZE. pose proof (Nat.div_mod_eq (last + 1) 2). lia.
  - unfold batches, range_step. rewrite Forall_map, Forall_map.
    apply Forall_forall. intros i Hi. apply in_seq in Hi.
    unfold requested_pages, BATCH_SIZE in *. cbn [fst snd]. rewrite length_seq.
    replace (last + 1 - 1 + 2 - 1) with (last + 1) in Hi by lia.
    pose proof (Nat.div_mod_eq (last + 1) 2) as Hd.
    pose proof (Nat.mod_upper_bound (last + 1) 2). lia.
  - unfold last, last_page. destruct (0 <? max_pages)%Z; lia.
Qed.

(** ** The page markers: written by the extractor, removed by the segmenter *)

Lemma re_split_go_not_nil (m : str -> option nat) (s : str) :
  forall skip, re_split_go m skip s <> [].
Proof.
  induction s as [|c s IH]; intros skip; [discriminate|].
  cbn [re_split_go]. destruct skip as [|k]; [|apply IH].
  destruct (m (c :: s)) as [[|k]|]; try discriminate;
    specialize (IH 0); destruct (re_split_go m 0 s); (congruence || discriminate).
Qed.

Lemma re_split_go_skip (m : str -> option nat) (s : str) :
  forall k, k <= List.length s ->
            re_split_go m k s = re_split_go m 0 (skipn k s).
Proof.
  induction s as [|c s IH]; intros k Hk.
  - simpl in Hk. now replace k with 0 by lia.
  - destruct k as [|k]; [reflexivity|].
    cbn [re_split_go skipn]. apply IH. simpl in Hk. lia.
Qed.

Lemma re_split_go_match (m : str -> option nat) (s : str) (l : nat) :
  m s = Some l -> 1 <= l <= List.length s ->
  re_split_go m 0 s = [] :: re_split_go m 0 (skipn l s).
Proof.
  intros Hm Hl. destruct s as [|c s]; [simpl in Hl; lia|].
  cbn [re_split_go]. rewrite Hm. destruct l as [|k]; [lia|].
  cbn [skipn]. f_equal. apply re_split_go_skip. simpl in Hl. lia.
Qed.

(** A stretch of text in which the pattern matches nowhere stays in one
    piece with what follows it up to the next match. *)
Lemma re_split_go_no_match (m : str -> option nat) (z : str) (w : str) :
  (forall u1 u2, w = u1 ++ u2 -> u2 <> [] -> m (u2 ++ z) = None) ->
  re_split_go m 0 (w ++ z) = app_first w (re_split_go m 0 z).
Proof.
  induction w as [|c w IH]; intros H.
  - cbn [app]. unfold app_first.
    pose proof (re_split_go_not_nil m z 0).
    now destruct (re_split_go m 0 z).
  - assert (Hm : m (c :: w ++ z) = None)
      by (apply (H [] (c :: w) eq_refl); discriminate).
    cbn [app re_split_go]. rewrite Hm.
    rewrite IH.
    + unfold app_first.
      pose proof (re_split_go_not_nil m z 0).
      now destruct (re_split_go m 0 z).
    + intros u1 u2 Hw Hne. apply (H (c :: u1) u2); [now rewrite Hw | exact Hne].
Qed.

Lemma is_nl_eq (c : ascii) : is_nl c = true <-> c = nl.
Proof. unfold is_nl. apply ch_eqb_eq. Qed.

Lemma digit_not_is_nl (c : ascii) : is_digit c = true -> is_nl c = false.
Proof.
  intros H. apply digit_not_nl in H. unfold not_nl in H. unfold is_nl.
  now destruct (ch_eqb c nl).
Qed.

Lemma skipn_length_app {A : Type} (a b : list A) :
  skipn (List.length a) (a ++ b) = b.
Proof. induction a as [|x a IH]; [reflexivity | exact IH]. Qed.

(** The pattern matches a marker with the newlines around it. *)
Lemma page_marker_at (nls : str) (n : N) (y : str) :
  forallb is_nl nls = true ->
  let s := nls ++ lit "=== PAGE " ++ str_of_N n ++ lit " ===" ++ y in
  exists l,
    page_marker s = Some l /\ 1 <= l <= List.length s
    /\ skipn l s = lstrip_nl y.
Proof.
  intros Hnls s.
  exists (List.length nls + 9 + List.length (str_of_N n) + 4
          + List.length (fst (span is_nl y))).
  split; [|split].
  - unfold page_marker, s.
    rewrite (span_exact is_nl nls
               (lit "=== PAGE " ++ str_of_N n ++ lit " ===" ++ y) Hnls eq_refl).
    rewrite strip_prefix_self.
    rewrite (span_exact is_digit (str_of_N n) (lit " ===" ++ y)
                        (str_of_N_digits n) eq_refl).
    pose proof (str_of_N_nonempty n) as Hne.
    destruct (str_of_N n) as [|d ds] eqn:Ed; [contradiction|].
    rewrite strip_prefix_self.
    now destruct (span is_nl y).
  - unfold s. rewrite !length_app.
    pose proof (span_length is_nl y).
    change (List.length (lit "=== PAGE ")) with 9.
    change (List.length (lit " ===")) with 4. lia.
  - unfold s, lstrip_nl.
    transitivity
      (skipn (List.length (nls ++ lit "=== PAGE " ++ str_of_N n ++ lit " ==="
                               ++ fst (span is_nl y)))
             ((nls ++ lit "=== PAGE " ++ str_of_N n ++ lit " ==="
                   ++ fst (span is_nl y)) ++ snd (span is_nl y))).
    + f_equal.
      * rewrite !length_app.
        change (List.length (lit "=== PAGE ")) with 9.
        change (List.length (lit " ===")) with 4. lia.
      * rewrite <- !app_assoc. now rewrite span_app.
    + apply skipn_length_app.
Qed.

Lemma startswith_before_nl (p v z : str) :
  forallb not_nl p = true ->
  z = [] \/ (exists z', z = nl :: z') ->
  startswith (v ++ z) p = true -> startswith v p = true.
Proof.
  intros Hp Hz. unfold startswith. revert v.
  induction p as [|x p IH]; intros v; [reflexivity|].
  simpl in Hp. apply andb_true_iff in Hp as [Hx Hp].
  destruct v as [|c v].
  - cbn [app]. destruct Hz as [->|[z' ->]]; [discriminate|].
    cbn [strip_prefix]. now rewrite (not_nl_eqb x Hx).
  - cbn [app strip_prefix]. destruct (ch_eqb x c); [now apply IH | discriminate].
Qed.

Lemma find_none_suffix (p a v : str) :
  find p (a ++ v) = None -> startswith v p = false.
Proof.
  induction a as [|c a IH].
  - cbn [app]. destruct v as [|x v]; cbn [find];
      destruct (startswith _ p); congruence.
  - cbn [app find]. destruct (startswith (c :: a ++ v) p); [discriminate|].
    destruct (find p (a ++ v)); [discriminate|]. intros _. now apply IH.
Qed.

(** Inside a text free of markers the pattern matches nowhere, whatever
    follows the text after a newline. *)
Lemma page_marker_clean (t a u b z : str) :
  contains (lit "=== PAGE ") t = false -> t = a ++ u ++ b ->
  z = [] \/ (exists z', z = nl :: z') ->
  (exists x r, lstrip_nl u = x :: r) ->
  page_marker (u ++ b ++ z) = None.
Proof.
  intros Hc Ht Hz (x & r & Hu). unfold page_marker.
  pose proof (span_app is_nl u) as Hs.
  pose proof (span_fst_all is_nl u) as Hn.
  pose proof (span_snd_stops is_nl u) as Hst.
  unfold lstrip_nl in Hu. rewrite Hu in Hs, Hst.
  rewrite <- Hs, <- app_assoc.
  rewrite (span_exact is_nl (fst (span is_nl u)) ((x :: r) ++ b ++ z) Hn Hst).
  destruct (strip_prefix (lit "=== PAGE ") ((x :: r) ++ b ++ z)) as [r2|] eqn:E;
    [|reflexivity].
  exfalso.
  assert (Hsw : startswith (((x :: r) ++ b) ++ z) (lit "=== PAGE ") = true)
    by (unfold startswith; now rewrite <- app_assoc, E).
  apply (startswith_before_nl (lit "=== PAGE ") _ _ eq_refl Hz) in Hsw.
  unfold contains in Hc.
  destruct (find (lit "=== PAGE ") t) eqn:Ef; [discriminate|].
  rewrite Ht, <- Hs, <- app_assoc, app_assoc in Ef.
  apply find_none_suffix in Ef. congruence.
Qed.

Lemma page_marker_newlines (u : str) :
  forallb is_nl u = true -> page_marker u = None.
Proof.
  intros H. unfold page_marker. now rewrite (span_all is_nl u H).
Qed.

Lemma lstrip_nl_app_newlines (ns s : str) :
  forallb is_nl ns = true -> lstrip_nl (ns ++ s) = lstrip_nl s.
Proof.
  induction ns as [|c ns IH]; [reflexivity|].
  simpl. intros H. apply andb_true_iff in H as [Hc Hns].
  unfold lstrip_nl in *. cbn [span]. rewrite Hc.
  specialize (IH Hns). destruct (span is_nl (ns ++ s)). exact IH.
Qed.

Lemma lstrip_nl_stop (s : str) : stops is_nl s -> lstrip_nl s = s.
Proof. intros H. unfold lstrip_nl. now rewrite span_stops_id. Qed.

(** A text is the newlines at its start, what [strip_nl] keeps, and the
    newlines at its end. *)
Lemma strip_nl_parts (t : str) :
  exists trail,
    forallb is_nl trail = true
    /\ lstrip_nl t = strip_nl t ++ trail
    /\ (strip_nl t = []
        \/ exists core x, strip_nl t = core ++ [x] /\ is_nl x = false).
Proof.
  unfold strip_nl, rstrip_nl.
  set (t1 := lstrip_nl t).
  exists (rev (fst (span is_nl (rev t1)))).
  split; [|split].
  - rewrite forallb_rev. apply span_fst_all.
  - unfold lstrip_nl at 1. rewrite <- rev_app_distr, span_app.
    now rewrite rev_involutive.
  - pose proof (span_snd_stops is_nl (rev t1)) as Hst.
    unfold lstrip_nl at 1 2.
    destruct (snd (span is_nl (rev t1))) as [|x r]; [now left|].
    right. exists (rev r), x. split; [reflexivity | exact Hst].
Qed.

Lemma nonempty_suffix_last (core u1 u2 : str) (x : ascii) :
  core ++ [x] = u1 ++ u2 -> u2 <> [] -> exists u2', u2 = u2' ++ [x].
Proof.
  intros H Hne. destruct (exists_last Hne) as (u2' & y & ->).
  rewrite app_assoc in H. apply app_inj_tail in H as [_ <-]. now exists u2'.
Qed.

Lemma lstrip_nl_keeps_last (u : str) (x : ascii) :
  is_nl x = false -> exists y r, lstrip_nl (u ++ [x]) = y :: r.
Proof.
  intros Hx. induction u as [|c u IH].
  - exists x, []. unfold lstrip_nl. simpl. now rewrite Hx.
  - destruct (is_nl c) eqn:Ec.
    + destruct IH as (y & r & IH). exists y, r.
      rewrite <- IH. apply (lstrip_nl_app_newlines [c]). simpl. now rewrite Ec.
    + exists c, (u ++ [x]). apply lstrip_nl_stop. exact Ec.
Qed.

Lemma after_header_pieces (pages : list (N * str)) :
  Forall (fun p => contains (lit "=== PAGE ") (snd p) = false) pages ->
  pages <> [] ->
  re_split_go page_marker 0 (lstrip_nl (after_header pages))
  = page_pieces pages.
Proof.
  induction pages as [|p rest IH]; intros Hc Hne; [contradiction|].
  inversion Hc as [|? ? Hp Hrest]; subst.
  destruct rest as [|q rest].
  - (* the last page *)
    cbn [after_header page_pieces].
    change (nl :: nl :: snd p) with ([nl; nl] ++ snd p).
    rewrite (lstrip_nl_app_newlines [nl; nl] (snd p) eq_refl).
    rewrite <- (app_nil_r (lstrip_nl (snd p))) at 1.
    rewrite re_split_go_no_match; [cbn; now rewrite app_nil_r|].
    intros u1 u2 Hu Hne2.
    destruct (lstrip_nl u2) as [|x r] eqn:El.
    + rewrite app_nil_r. apply page_marker_newlines.
      pose proof (span_app is_nl u2) as Hs. unfold lstrip_nl in El.
      rewrite El, app_nil_r in Hs. rewrite <- Hs. apply span_fst_all.
    + pose proof (span_app is_nl (snd p)) as Hs.
      fold (lstrip_nl (snd p)) in Hs. rewrite Hu in Hs.
      change (u2 ++ []) with (u2 ++ [] ++ []).
      apply (page_marker_clean (snd p) (fst (span is_nl (snd p)) ++ u1) u2 [] []
                               Hp).
      * rewrite app_nil_r, <- app_assoc. now symmetry.
      * now left.
      * now exists x, r.
  - (* a page followed by another *)
    change (after_header (p :: q :: rest))
      with (nl :: nl :: snd p ++ nl :: nl :: nl
            :: lit "=== PAGE " ++ str_of_N (fst q) ++ lit " ==="
            ++ after_header (q :: rest)).
    change (page_pieces (p :: q :: rest))
      with (strip_nl (snd p) :: page_pieces (q :: rest)).
    set (k := lit "=== PAGE " ++ str_of_N (fst q) ++ lit " ==="
              ++ after_header (q :: rest)).
    destruct (strip_nl_parts (snd p)) as (trail & Htrail & Hparts & Hcore).
    pose proof (span_app is_nl (snd p)) as Hlead.
    pose proof (span_fst_all is_nl (snd p)) as Hleadn.
    fold (lstrip_nl (snd p)) in Hlead.
    set (lead := fst (span is_nl (snd p))) in *.
    assert (Hstr : lstrip_nl (nl :: nl :: snd p ++ nl :: nl :: nl :: k)
                   = lstrip_nl (strip_nl (snd p)
                                ++ (trail ++ [nl; nl; nl]) ++ k)).
    { rewrite <- Hlead at 1. rewrite Hparts.
      replace (nl :: nl :: (lead ++ strip_nl (snd p) ++ trail)
                  ++ nl :: nl :: nl :: k)
        with ((nl :: nl :: lead)
              ++ strip_nl (snd p) ++ (trail ++ [nl; nl; nl]) ++ k)
        by (cbn [app]; rewrite <- !app_assoc; reflexivity).
      apply lstrip_nl_app_newlines. simpl. exact Hleadn. }
    rewrite Hstr. clear Hstr.
    assert (Hk : forall nls, forallb is_nl nls = true ->
                 re_split_go page_marker 0 (nls ++ k)
                 = [] :: page_pieces (q :: rest)).
    { intros nls Hn.
      destruct (page_marker_at nls (fst q) (after_header (q :: rest)) Hn)
        as (l & Hm & Hl & Hskip).
      fold k in Hm, Hl, Hskip.
      rewrite (re_split_go_match _ _ l Hm Hl), Hskip.
      f_equal. apply IH; [exact Hrest | discriminate]. }
    destruct Hcore as [Hempty|(core & x & Hcx & Hx)].
    + rewrite Hempty. cbn [app].
      assert (Hall : forallb is_nl (trail ++ [nl; nl; nl]) = true)
        by (rewrite forallb_app, Htrail; reflexivity).
      rewrite lstrip_nl_app_newlines by exact Hall.
      rewrite lstrip_nl_stop by reflexivity.
      apply (Hk [] eq_refl).
    + rewrite lstrip_nl_stop.
      2:{ rewrite Hcx. destruct core as [|c core].
          - exact Hx.
          - pose proof (span_snd_stops is_nl (snd p)) as Hst.
            fold (lstrip_nl (snd p)) in Hst.
            rewrite Hparts, Hcx in Hst. exact Hst. }
      rewrite re_split_go_no_match.
      * rewrite Hk by (rewrite forallb_app, Htrail; reflexivity).
        cbn [app_first]. now rewrite app_nil_r.
      * intros u1 u2 Hu Hne2.
        pose proof Hu as Hu0. rewrite Hcx in Hu0.
        destruct (nonempty_suffix_last _ _ _ _ Hu0 Hne2) as [u2' Hu2].
        replace (u2 ++ (trail ++ [nl; nl; nl]) ++ k)
          with (u2 ++ trail ++ nl :: nl :: nl :: k)
          by (rewrite <- !app_assoc; reflexivity).
        apply (page_marker_clean (snd p) (lead ++ u1) u2 trail
                                 (nl :: nl :: nl :: k) Hp).
        -- rewrite <- Hlead, Hparts, Hu. now rewrite <- !app_assoc.
        -- right. now eexists.
        -- rewrite Hu2. now apply lstrip_nl_keeps_last.
Qed.

Lemma join_cons2 (sep a : str) (b : str) (rest : list str) :
  join sep (a :: b :: rest) = a ++ sep ++ join sep (b :: rest).
Proof. reflexivity. Qed.

Lemma parts_text (p : N * str) (rest : list (N * str)) :
  join [nl] (parts (p :: rest))
  = [nl; nl] ++ lit "=== PAGE " ++ str_of_N (fst p) ++ lit " ==="
    ++ after_header (p :: rest).
Proof.
  revert p. induction rest as [|q rest IH]; intros p.
  - unfold parts, page_header. cbn [map List.concat app join after_header].
    rewrite <- !app_assoc. reflexivity.
  - change (parts (p :: q :: rest))
      with (page_header (fst p) :: snd p :: parts (q :: rest)).
    assert (Hq : exists a b, parts (q :: rest) = a :: b)
      by (now eexists _, _).
    destruct Hq as (a & b & Hq).
    rewrite join_cons2. rewrite Hq, join_cons2, <- Hq, IH.
    change (after_header (p :: q :: rest))
      with (nl :: nl :: snd p ++ nl :: nl :: nl
            :: lit "=== PAGE " ++ str_of_N (fst q) ++ lit " ==="
            ++ after_header (q :: rest)).
    unfold page_header. cbn [app]. rewrite <- !app_assoc. reflexivity.
Qed.

Lemma In_insert_page (x p : N * str) (l : list (N * str)) :
  In x (insert_page p l) -> x = p \/ In x l.
Proof.
  induction l as [|q l IH]; cbn [insert_page].
  - intros [<-|[]]. now left.
  - destruct (_ <=? _)%N.
    + intros [<-|H]; [right; now left|].
      destruct (IH H) as [->|H']; [now left | right; now right].
    + intros [<-|H]; [now left | now right].
Qed.

Lemma In_sort_pages (x : N * str) (l : list (N * str)) :
  In x (sort_pages l) -> In x l.
Proof.
  unfold sort_pages.
  assert (H : forall acc, In x (fold_left (fun a p => insert_page p a) l acc) ->
                          In x l \/ In x acc).
  { induction l as [|p l IH]; intros acc Hin; [now right|].
    cbn [fold_left] in Hin. destruct (IH _ Hin) as [H|H].
    - left. now right.
    - destruct (In_insert_page _ _ _ H) as [->|H']; [left; now left | now right]. }
  intros Hin. destruct (H [] Hin) as [H'|[]]. exact H'.
Qed.

(** X21: what the Azure extractor writes around the pages, the Azure
    segmenter takes out again.  When no page text contains a page marker of
    its own, removing the markers from the extractor's result leaves a
    newline and then the page texts in page order, joined by single
    newlines, each without the newlines at its start and end (the last page
    keeps those at its end). *)
Theorem page_markers_round_trip (page_texts : list (N * str)) :
  Forall (fun p => contains (lit "=== PAGE ") (snd p) = false) page_texts ->
  strip_page_markers (extract_result page_texts)
  = match sort_pages page_texts with
    | [] => []
    | _ :: _ => nl :: join [nl] (page_pieces (sort_pages page_texts))
    end.
Proof.
  intros Hc.
  assert (Hs : Forall (fun p => contains (lit "=== PAGE ") (snd p) = false)
                      (sort_pages page_texts)).
  { rewrite Forall_forall in *. intros p Hp. apply Hc. now apply In_sort_pages. }
  unfold strip_page_markers, extract_result, re_split.
  destruct (sort_pages page_texts) as [|p rest]; [reflexivity|].
  rewrite parts_text.
  destruct (page_marker_at [nl; nl] (fst p) (after_header (p :: rest)) eq_refl)
    as (l & Hm & Hl & Hskip).
  rewrite (re_split_go_match _ _ l Hm Hl), Hskip.
  rewrite after_header_pieces by (exact Hs || discriminate).
  destruct rest; reflexivity.
Qed.

Lemma page_markers_round_trip_witness :
  strip_page_markers
    (extract_result [(2%N, nl :: lit "3 C.A. No. 7/2020");
                     (1%N, lit "1 C.A. No. 5/2020" ++ [nl])])
  = match sort_pages [(2%N, nl :: lit "3 C.A. No. 7/2020");
                      (1%N, lit "1 C.A. No. 5/2020" ++ [nl])] with
    | [] => []
    | _ :: _ =>
        nl :: join [nl]
                   (page_pieces
                      (sort_pages [(2%N, nl :: lit "3 C.A. No. 7/2020");
                                   (1%N, lit "1 C.A. No. 5/2020" ++ [nl])]))
    end.
Proof.
  apply (page_markers_round_trip
           [(2%N, nl :: lit "3 C.A. No. 7/2020");
            (1%N, lit "1 C.A. No. 5/2020" ++ [nl])]).
  repeat constructor.
Defined.

(** ** Where the parties of a block start *)

Lemma offset_of_line_step (lines : list str) :
  forall k,
    k < List.length lines ->
    offset_of_line lines (S k)
    = offset_of_line lines k + List.length (nth k lines []) + 1.
Proof.
  induction lines as [|l ls IH]; intros k Hk; [simpl in Hk; lia|].
  rewrite offset_of_line_cons. destruct k as [|k].
  - cbn [nth]. unfold offset_of_line. cbn. lia.
  - rewrite offset_of_line_cons, IH by (simpl in Hk; lia). cbn [nth]. lia.
Qed.

Lemma join_length_cons (l : str) (ls : list str) :
  ls <> [] ->
  List.length (join [nl] (l :: ls)) = List.length l + 1 + List.length (join [nl] ls).
Proof.
  destruct ls as [|l' ls]; [contradiction|]. intros _.
  rewrite join_cons2, !length_app. simpl. lia.
Qed.

Lemma offset_line_within (lines : list str) :
  forall k,
    k < List.length lines ->
    offset_of_line lines k + List.length (nth k lines [])
    <= List.length (join [nl] lines).
Proof.
  induction lines as [|l ls IH]; intros k Hk; [simpl in Hk; lia|].
  destruct k as [|k].
  - cbn [nth]. unfold offset_of_line. cbn [firstn fold_right].
    destruct ls; [simpl; lia|]. rewrite join_cons2, length_app. lia.
  - rewrite offset_of_line_cons. cbn [nth].
    assert (Hls : ls <> []) by (destruct ls; [simpl in Hk; lia | discriminate]).
    rewrite (join_length_cons l ls Hls).
    specialize (IH k). simpl in Hk. lia.
Qed.

Lemma party_start_loop_line (rest : list str) :
  forall pre seen p,
    party_start_loop rest (offset_of_line (pre ++ rest) (List.length pre)) seen
    = Some p ->
    exists k,
      List.length pre <= k < List.length (pre ++ rest)
      /\ p = offset_of_line (pre ++ rest) k
      /\ nonempty (strip (nth k (pre ++ rest) [])) = true
      /\ opens_case (strip (nth k (pre ++ rest) [])) = false
      /\ (seen = false ->
          exists j, List.length pre <= j < k
                    /\ opens_case (strip (nth j (pre ++ rest) [])) = true).
Proof.
  induction rest as [|line rest IH]; intros pre seen p; [discriminate|].
  cbn [party_start_loop].
  assert (Hnth : nth (List.length pre) (pre ++ line :: rest) [] = line)
    by apply nth_middle.
  assert (Hlen : List.length pre < List.length (pre ++ line :: rest))
    by (rewrite length_app; simpl; lia).
  assert (Hpos : offset_of_line (pre ++ line :: rest) (List.length pre)
                 + List.length line + 1
                 = offset_of_line ((pre ++ [line]) ++ rest)
                                  (List.length (pre ++ [line]))).
  { rewrite <- app_assoc. cbn [app]. rewrite length_app. cbn [List.length].
    replace (List.length pre + 1) with (S (List.length pre)) by lia.
    rewrite offset_of_line_step by exact Hlen. now rewrite Hnth. }
  assert (Hrec : forall seen',
             party_start_loop rest
               (offset_of_line (pre ++ line :: rest) (List.length pre)
                + List.length line + 1) seen' = Some p ->
             exists k,
               S (List.length pre) <= k < List.length (pre ++ line :: rest)
               /\ p = offset_of_line (pre ++ line :: rest) k
               /\ nonempty (strip (nth k (pre ++ line :: rest) [])) = true
               /\ opens_case (strip (nth k (pre ++ line :: rest) [])) = false
               /\ (seen' = false ->
                   exists j, S (List.length pre) <= j < k
                             /\ opens_case
                                  (strip (nth j (pre ++ line :: rest) [])) = true)).
  { intros seen' H. rewrite Hpos in H. apply IH in H.
    rewrite <- app_assoc in H. cbn [app] in H.
    rewrite length_app in H. cbn [List.length] in H.
    replace (List.length pre + 1) with (S (List.length pre)) in H by lia.
    exact H. }
  destruct (negb (nonempty (strip line))) eqn:Eb.
  { intros H. destruct (Hrec seen H) as (k & Hk & Hp & Hn & Ho & Hs).
    exists k. repeat split; try assumption; try lia.
    intros Hf. destruct (Hs Hf) as (j & Hj & Hjo). exists j. split; [lia|exact Hjo]. }
  destruct (is_some (case_type_opener (strip line))) eqn:Eo.
  { intros H. destruct (Hrec true H) as (k & Hk & Hp & Hn & Ho & _).
    exists k. repeat split; try assumption; try lia.
    intros _. exists (List.length pre). split; [lia|]. now rewrite Hnth. }
  destruct (seen && (_BENCH_CODE_RE (strip line) || docket_re (strip line)))
    eqn:Es.
  { intros H. destruct (Hrec seen H) as (k & Hk & Hp & Hn & Ho & Hs).
    exists k. repeat split; try assumption; try lia.
    intros Hf. rewrite Hf in Es. discriminate Es. }
  destruct seen.
  - intros [= <-]. exists (List.length pre). rewrite Hnth.
    apply negb_false_iff in Eb.
    split; [lia|]. split; [reflexivity|]. split; [exact Eb|].
    split; [exact Eo|]. discriminate.
  - intros H. destruct (Hrec false H) as (k & Hk & Hp & Hn & Ho & Hs).
    exists k. repeat split; try assumption; try lia.
    intros Hf. destruct (Hs Hf) as (j & Hj & Hjo). exists j. split; [lia|exact Hjo].
Qed.

(** X22: [_find_party_start_in_block] returns either the length of the
    block, when it finds no party line, or an offset inside the block that
    is the start of a line which is not blank, is not a case-type line, and
    comes after a case-type line. *)
Theorem find_party_start_line (block : str) :
  let psi := _find_party_start_in_block block in
  let lines := split_nl block in
  psi = List.length block
  \/ (psi < List.length block
      /\ exists j k,
           j < k < List.length lines
           /\ psi = offset_of_line lines k
           /\ opens_case (strip (nth j lines [])) = true
           /\ nonempty (strip (nth k lines [])) = true
           /\ opens_case (strip (nth k lines [])) = false).
Proof.
  cbv zeta. unfold _find_party_start_in_block.
  destruct (party_start_loop (split_nl block) 0 false) as [p|] eqn:E;
    [|now left].
  right.
  apply (party_start_loop_line (split_nl block) [] false p) in E.
  cbn [app List.length] in E.
  destruct E as (k & Hk & Hp & Hn & Ho & Hs).
  destruct (Hs eq_refl) as (j & Hj & Hjo).
  split.
  - pose proof (offset_line_within (split_nl block) k (proj2 Hk)) as Hw.
    rewrite join_split_nl in Hw.
    assert (1 <= List.length (nth k (split_nl block) [])).
    { destruct (nth k (split_nl block) []) as [|c l]; [discriminate Hn|].
      simpl. lia. }
    lia.
  - exists j, k. repeat split; try assumption; lia.
Qed.

(** ** Party names *)

Lemma party_char_not_lower (c : ascii) :
  is_party_char c = true -> is_az c = false.
Proof. destruct c as [[] [] [] [] [] [] [] []]; vm_compute; congruence. Qed.

Lemma capital_not_lower (c : ascii) : is_AZ c = true -> is_az c = false.
Proof. destruct c as [[] [] [] [] [] [] [] []]; vm_compute; congruence. Qed.

Lemma party_char_stops_dollar (r : str) :
  stops is_party_char r -> at_dollar r = true -> r = [].
Proof.
  destruct r as [|c r]; [reflexivity|]. cbn [stops at_dollar].
  destruct r; [|discriminate]. intros Hc He.
  apply ch_eqb_eq in He. subst c. discriminate Hc.
Qed.

(** X23: a text [_looks_like_party] accepts has a first line, blanks at its
    ends apart, of at least four characters, which starts with a capital
    A to Z, consists of the characters of the party class only (capitals,
    digits, blanks and . , & / @ - ( ) ' and the double quote), holds no
    lower-case letter, and starts with none of the skip words. *)
Theorem looks_like_party_capitals (text : str) :
  _looks_like_party text = true ->
  let fl := strip (first_line (strip text)) in
  4 <= List.length fl
  /\ (exists c r, fl = c :: r /\ is_AZ c = true
                  /\ forallb is_party_char r = true)
  /\ forallb (fun c => negb (is_az c)) fl = true
  /\ existsb (startswith fl) _PARTY_SKIP = false.
Proof.
  unfold _looks_like_party. cbv zeta.
  destruct (strip (first_line (strip text))) as [|c r] eqn:Efl; [discriminate|].
  destruct (negb (is_upper c)); [discriminate|].
  destruct (existsb (startswith (c :: r)) _PARTY_SKIP) eqn:Eskip; [discriminate|].
  destruct (negb (party_name_re (c :: r))) eqn:Ere; [discriminate|].
  intros Hlen. apply Nat.leb_le in Hlen.
  apply negb_false_iff in Ere. unfold party_name_re in Ere.
  apply andb_true_iff in Ere as [Hc Hr].
  pose proof (span_app is_party_char r) as Hs.
  pose proof (span_fst_all is_party_char r) as Ha.
  pose proof (span_snd_stops is_party_char r) as Hst.
  destruct (span is_party_char r) as [a r']; cbn [fst snd] in *.
  apply andb_true_iff in Hr as [_ Hd].
  rewrite (party_char_stops_dollar r' Hst Hd), app_nil_r in Hs. subst a.
  split; [exact Hlen|]. split; [now exists c, r|]. split; [|reflexivity].
  cbn [forallb]. rewrite (capital_not_lower c Hc). cbn [negb andb].
  clear -Ha. induction r as [|x r IH]; [reflexivity|].
  simpl in Ha. apply andb_true_iff in Ha as [Hx Hr].
  cbn [forallb]. now rewrite (party_char_not_lower x Hx), IH.
Qed.

Lemma looks_like_party_capitals_witness :
  4 <= List.length (strip (first_line (strip (lit "SHREETRON LTD."))))
  /\ (exists c r,
         strip (first_line (strip (lit "SHREETRON LTD."))) = c :: r
         /\ is_AZ c = true /\ forallb is_party_char r = true)
  /\ forallb (fun c => negb (is_az c))
             (strip (first_line (strip (lit "SHREETRON LTD.")))) = true
  /\ existsb (startswith (strip (first_line (strip (lit "SHREETRON LTD.")))))
             _PARTY_SKIP = false.
Proof.
  apply (looks_like_party_capitals (lit "SHREETRON LTD.")). reflexivity.
Defined.

(** ** Normalised lines parse *)

(** X24: a line the noise normaliser rewrites is recognised afterwards: the
    normalised line parses, by [_tesseract_parse_serial], to the serial the
    normaliser found, main number and sub-number each read by [int], unless
    the text kept after the serial starts with [No.], [no.] or [NO.].  So a
    serial written with a trailing dot or followed by an equals sign, which
    does not parse as it stands, parses once normalised. *)
Theorem normalized_line_parses (line g1 d g5 : str) (sub : option str) :
  noise_match line = Some (g1, token_text d sub, g5) ->
  token_ok d sub ->
  starts_no g5 = false ->
  _tesseract_parse_serial (_normalize_ocr_noise line)
  = (s <- int_opt sub ;; Ok (Some (int_of_digits d, s))).
Proof.
  intros Hm Hok Hno.
  destruct (noise_match_shape _ _ _ _ Hm) as (d' & sub' & _ & _ & Hg1 & _ & Hst).
  unfold _normalize_ocr_noise. rewrite Hm.
  unfold _tesseract_parse_serial, _TESSERACT_LEADING_RE.
  rewrite lstrip_app_blank by exact Hg1.
  destruct (token_text_cons d sub Hok) as (c & t & Ht & Hc).
  rewrite lstrip_id by (rewrite Ht; simpl; now apply digit_not_space).
  rewrite (serial_token_blank d sub " "%char g5 Hok eq_refl).
  change (" "%char :: g5) with ([" "%char] ++ g5).
  rewrite (span_exact is_space [" "%char] g5 eq_refl Hst).
  cbn [nonempty andb]. rewrite Hno. cbn [negb orb].
  now rewrite (int_main d sub Hok).
Qed.

Lemma normalized_line_parses_witness :
  _tesseract_parse_serial (_normalize_ocr_noise (lit "15. SLP(C) No. 11727/2020"))
  = (s <- int_opt None ;; Ok (Some (int_of_digits (lit "15"), s))).
Proof.
  apply (normalized_line_parses (lit "15. SLP(C) No. 11727/2020") []
                                (lit "15") (lit "SLP(C) No. 11727/2020") None).
  - reflexivity.
  - split; [reflexivity | simpl; lia | intros ds H; discriminate H].
  - reflexivity.
Defined.

(** ** Splitting a fragment at its last party name *)

Lemma non_blank_app (a b : str) :
  non_blank (a ++ b) = non_blank a ++ non_blank b.
Proof. apply filter_app. Qed.

Lemma non_blank_cons (c : ascii) (s : str) :
  non_blank (c :: s) = if is_space c then non_blank s else c :: non_blank s.
Proof. unfold non_blank. cbn [filter]. now destruct (is_space c). Qed.

Lemma non_blank_blank (ws : str) :
  forallb is_space ws = true -> non_blank ws = [].
Proof.
  induction ws as [|c ws IH]; [reflexivity|]. cbn [forallb]. intros H.
  apply andb_true_iff in H as [Hc Hws]. rewrite non_blank_cons, Hc.
  now apply IH.
Qed.

Lemma non_blank_rev (s : str) : non_blank (rev s) = rev (non_blank s).
Proof.
  induction s as [|c s IH]; [reflexivity|].
  cbn [rev]. rewrite non_blank_app, IH, !non_blank_cons.
  destruct (is_space c); [now rewrite app_nil_r | reflexivity].
Qed.

Lemma non_blank_lstrip (s : str) : non_blank (lstrip s) = non_blank s.
Proof.
  pose proof (span_app is_space s) as H.
  pose proof (span_fst_all is_space s) as Ha.
  unfold lstrip. destruct (span is_space s) as [a b]; cbn [fst snd] in *.
  subst s. now rewrite non_blank_app, (non_blank_blank a Ha).
Qed.

Lemma non_blank_rstrip (s : str) : non_blank (rstrip s) = non_blank s.
Proof.
  unfold rstrip.
  now rewrite non_blank_rev, non_blank_lstrip, non_blank_rev, rev_involutive.
Qed.

Lemma non_blank_strip (s : str) : non_blank (strip s) = non_blank s.
Proof. unfold strip. now rewrite non_blank_rstrip, non_blank_lstrip. Qed.

Lemma non_blank_join (sep : str) (ps : list str) :
  forallb is_space sep = true ->
  non_blank (join sep ps) = non_blank (List.concat ps).
Proof.
  intros Hs. induction ps as [|p ps IH]; [reflexivity|].
  destruct ps as [|q ps].
  - simpl. now rewrite app_nil_r.
  - change (join sep (p :: q :: ps)) with (p ++ sep ++ join sep (q :: ps)).
    change (List.concat (p :: q :: ps)) with (p ++ List.concat (q :: ps)).
    now rewrite !non_blank_app, (non_blank_blank sep Hs), IH.
Qed.

Lemma concat_cons_first (c : ascii) (l : list str) :
  List.concat (cons_first c l) = c :: List.concat l.
Proof. destruct l; reflexivity. Qed.

(** A split at blank separators loses blanks only. *)
Lemma non_blank_re_split_go (m : str -> option nat) :
  (forall s n, m s = Some n -> forallb is_space (firstn n s) = true) ->
  forall s skip,
    forallb is_space (firstn skip s) = true ->
    non_blank (List.concat (re_split_go m skip s)) = non_blank s.
Proof.
  intros Hm. induction s as [|c s IH]; intros skip Hk; [reflexivity|].
  cbn [re_split_go]. destruct skip as [|k].
  - destruct (m (c :: s)) as [[|k]|] eqn:E.
    + rewrite concat_cons_first, !non_blank_cons, (IH 0 eq_refl). reflexivity.
    + apply Hm in E. cbn [firstn forallb] in E.
      apply andb_true_iff in E as [Hc Hr].
      cbn [List.concat app]. rewrite non_blank_cons, Hc. now apply IH.
    + rewrite concat_cons_first, !non_blank_cons, (IH 0 eq_refl). reflexivity.
  - cbn [firstn forallb] in Hk. apply andb_true_iff in Hk as [Hc Hr].
    rewrite non_blank_cons, Hc. now apply IH.
Qed.

Lemma blank_line_sep_blank (s : str) (n : nat) :
  blank_line_sep s = Some n -> forallb is_space (firstn n s) = true.
Proof.
  unfold blank_line_sep.
  pose proof (span_app (fun c => ch_eqb c nl) s) as H.
  pose proof (span_fst_all (fun c => ch_eqb c nl) s) as Ha.
  destruct (span (fun c => ch_eqb c nl) s) as [a b]; cbn [fst snd] in *.
  destruct (2 <=? List.length a); [|discriminate]. intros [= <-]. subst s.
  rewrite firstn_app, Nat.sub_diag, firstn_all, firstn_O, app_nil_r.
  rewrite forallb_forall in *. intros c Hc. apply Ha in Hc.
  apply ch_eqb_eq in Hc. now subst c.
Qed.

Lemma non_blank_paragraphs (s : str) :
  non_blank (List.concat (split_paragraphs s)) = non_blank s.
Proof.
  unfold split_paragraphs, re_split.
  apply non_blank_re_split_go; [exact blank_line_sep_blank | reflexivity].
Qed.

Lemma non_blank_cut (n : nat) (ps : list str) :
  non_blank (strip (para_join (firstn n ps)) ++ strip (para_join (skipn n ps)))
  = non_blank (List.concat ps).
Proof.
  unfold para_join.
  rewrite non_blank_app, !non_blank_strip, !non_blank_join by reflexivity.
  now rewrite <- non_blank_app, <- concat_app, firstn_skipn.
Qed.

(** X25: splitting a fragment at its last party name loses no text.  The
    two parts [_split_resp_frag] returns hold, one after the other, the
    characters of the fragment that are not blank, all of them and in their
    order; the same for [_split_frag0].  Only blanks and newlines between
    paragraphs and at the ends can differ. *)
Theorem split_frag_keeps_text (text : str) :
  non_blank (fst (_split_resp_frag text) ++ snd (_split_resp_frag text))
  = non_blank text
  /\ non_blank (fst (_split_frag0 text) ++ snd (_split_frag0 text))
     = non_blank text.
Proof.
  unfold _split_resp_frag, _split_frag0. cbv zeta.
  destruct (last_index _looks_like_party (split_paragraphs (strip text)))
    as [[|l]|]; cbn [fst snd app];
    rewrite ?app_nil_r, ?non_blank_cut, ?non_blank_paragraphs,
            ?non_blank_strip; split; reflexivity.
Qed.

Lemma first_line_cons (c : ascii) (s : str) :
  first_line (c :: s) = if ch_eqb c nl then [] else c :: first_line s.
Proof.
  unfold first_line. cbn [split_nl]. destruct (ch_eqb c nl); [reflexivity|].
  pose proof (split_nl_not_nil s) as Hn.
  destruct (split_nl s); [contradiction | reflexivity].
Qed.

Lemma first_line_app_nl (a w : str) : first_line (a ++ nl :: w) = first_line a.
Proof.
  induction a as [|c a IH]; simpl app.
  - now rewrite first_line_cons, ch_eqb_refl.
  - now rewrite !first_line_cons, IH.
Qed.

Lemma first_line_blank (ws : str) :
  forallb is_space ws = true -> forallb is_space (first_line ws) = true.
Proof.
  induction ws as [|c ws IH]; [reflexivity|]. cbn [forallb]. intros H.
  apply andb_true_iff in H as [Hc Hws]. rewrite first_line_cons.
  destruct (ch_eqb c nl); [reflexivity|]. cbn [forallb]. rewrite Hc.
  now apply IH.
Qed.

Lemma first_line_app_blank (r ws : str) :
  forallb is_space ws = true ->
  exists ws', forallb is_space ws' = true
              /\ first_line (r ++ ws) = first_line r ++ ws'.
Proof.
  intros H. induction r as [|c r IH]; simpl app.
  - exists (first_line ws). split; [now apply first_line_blank | reflexivity].
  - rewrite !first_line_cons. destruct (ch_eqb c nl).
    + now exists [].
    + destruct IH as (ws' & Hws' & Hf). exists ws'. now rewrite Hf.
Qed.

Lemma rstrip_app_blank (s ws : str) :
  forallb is_space ws = true -> rstrip (s ++ ws) = rstrip s.
Proof.
  intros H. unfold rstrip.
  now rewrite rev_app_distr, lstrip_app_blank by now rewrite forallb_rev.
Qed.

Lemma lstrip_shape (s : str) :
  exists a, forallb is_space a = true /\ s = a ++ lstrip s.
Proof.
  unfold lstrip. exists (fst (span is_space s)).
  split; [apply span_fst_all | symmetry; apply span_app].
Qed.

Lemma lstrip_app_nonblank (x w : str) :
  lstrip x <> [] -> lstrip (x ++ w) = lstrip x ++ w.
Proof.
  intros Hne. destruct (lstrip_shape x) as (a & Ha & Hx).
  pose proof (lstrip_stops x) as Hst. revert Hne Hx Hst.
  destruct (lstrip x) as [|c b]; [contradiction|]. intros _ Hx Hst.
  rewrite Hx, <- app_assoc, (lstrip_app_blank a _ Ha).
  apply lstrip_id. exact Hst.
Qed.

Lemma strip_app_blank (s ws : str) :
  forallb is_space ws = true -> strip (s ++ ws) = strip s.
Proof.
  intros H. unfold strip. destruct (lstrip_shape s) as (a & Ha & Hs).
  destruct (lstrip s) as [|c b] eqn:E.
  - rewrite app_nil_r in Hs. subst a.
    rewrite lstrip_blank by (rewrite forallb_app, Ha, H; reflexivity).
    reflexivity.
  - rewrite lstrip_app_nonblank by (rewrite E; discriminate).
    rewrite E. now apply rstrip_app_blank.
Qed.

Lemma rstrip_shape (u : str) :
  exists ws, forallb is_space ws = true /\ u = rstrip u ++ ws.
Proof.
  unfold rstrip, lstrip. exists (rev (fst (span is_space (rev u)))). split.
  - rewrite forallb_rev. apply span_fst_all.
  - rewrite <- rev_app_distr, span_app. now rewrite rev_involutive.
Qed.

Lemma strip_stops (t : str) : stops is_space (strip t).
Proof.
  unfold strip. pose proof (lstrip_stops t) as Hst.
  destruct (rstrip_prefix (lstrip t)) as (w & Hw). revert Hw.
  destruct (rstrip (lstrip t)) as [|c r]; [intros; exact I|].
  intros Hw. rewrite Hw in Hst. exact Hst.
Qed.

Lemma party_line_lstrip (t : str) :
  party_line t = strip (first_line (lstrip t)).
Proof.
  unfold party_line. change (strip t) with (rstrip (lstrip t)).
  destruct (rstrip_shape (lstrip t)) as (ws & Hws & Hu).
  destruct (first_line_app_blank (rstrip (lstrip t)) ws Hws)
    as (ws' & Hws' & Hf).
  rewrite <- Hu in Hf. rewrite Hf. symmetry. now apply strip_app_blank.
Qed.

Lemma party_line_strip (t : str) : party_line (strip t) = party_line t.
Proof.
  rewrite (party_line_lstrip (strip t)).
  rewrite (lstrip_id (strip t)) by apply strip_stops. reflexivity.
Qed.

Lemma party_line_app (x w : str) :
  lstrip x <> [] -> (w = [] \/ exists w', w = nl :: w') ->
  party_line (x ++ w) = party_line x.
Proof.
  intros Hne Hw. rewrite !party_line_lstrip, lstrip_app_nonblank by exact Hne.
  destruct Hw as [-> | (w' & ->)]; [now rewrite app_nil_r|].
  now rewrite first_line_app_nl.
Qed.

Lemma looks_like_party_line (a b : str) :
  party_line a = party_line b -> _looks_like_party a = _looks_like_party b.
Proof.
  unfold _looks_like_party, party_line. intros H. cbv zeta. now rewrite H.
Qed.

Lemma looks_like_party_nonblank (x : str) :
  _looks_like_party x = true -> lstrip x <> [].
Proof.
  intros H E. unfold _looks_like_party, strip in H. cbv zeta in H.
  rewrite E in H. discriminate H.
Qed.

Lemma looks_like_party_join (x : str) (rest : list str) :
  _looks_like_party x = true ->
  _looks_like_party (strip (para_join (x :: rest))) = true.
Proof.
  intros H. transitivity (_looks_like_party x); [|exact H].
  apply looks_like_party_line.
  rewrite party_line_strip. unfold para_join. destruct rest as [|q rest].
  - reflexivity.
  - change (join [nl; nl] (x :: q :: rest))
      with (x ++ nl :: nl :: join [nl; nl] (q :: rest)).
    apply party_line_app; [now apply looks_like_party_nonblank|].
    right. now eexists.
Qed.

Lemma last_index_skipn {A : Type} (p : A -> bool) (l : list A) :
  forall i, last_index p l = Some i ->
            exists x rest, skipn i l = x :: rest /\ p x = true.
Proof.
  induction l as [|a l IH]; intros i H; [discriminate|].
  cbn [last_index] in H. destruct (last_index p l) as [j|].
  - injection H as <-. destruct (IH j eq_refl) as (x & rest & Hs & Hp).
    exists x, rest. now split.
  - destruct (p a) eqn:Ep; [|discriminate]. injection H as <-.
    exists a, l. now split.
Qed.

Lemma paragraphs_shape (text : str) :
  split_paragraphs (strip text) = [[]]
  \/ exists c p ps, is_space c = false
                    /\ split_paragraphs (strip text) = (c :: p) :: ps.
Proof.
  pose proof (strip_stops text) as Hst.
  destruct (strip text) as [|c t]; [now left|]. right.
  cbn [stops] in Hst. unfold split_paragraphs, re_split. cbn [re_split_go].
  assert (E : blank_line_sep (c :: t) = None).
  { unfold blank_line_sep. cbn [span].
    destruct (ch_eqb c nl) eqn:En; [|reflexivity].
    apply ch_eqb_eq in En. subst c. discriminate Hst. }
  rewrite E. pose proof (re_split_go_not_nil blank_line_sep t 0) as Hn.
  destruct (re_split_go blank_line_sep 0 t) as [|p ps]; [contradiction|].
  now exists c, p, ps.
Qed.

Lemma cut_head_nonempty (c : ascii) (p : str) (ps : list str) (n : nat) :
  is_space c = false ->
  strip (para_join (firstn (S n) ((c :: p) :: ps))) <> [].
Proof.
  intros Hc E. apply (f_equal non_blank) in E.
  unfold para_join in E.
  rewrite non_blank_strip, non_blank_join in E by reflexivity.
  cbn [firstn List.concat app] in E. rewrite non_blank_cons, Hc in E.
  discriminate E.
Qed.

Lemma cut_at_party (paras : list str) (l : nat) (c : ascii) (p : str)
      (ps : list str) :
  paras = (c :: p) :: ps -> is_space c = false ->
  last_index _looks_like_party paras = Some (S l) ->
  _looks_like_party (strip (para_join (skipn (S l) paras))) = true
  /\ strip (para_join (firstn (S l) paras)) <> [].
Proof.
  intros Hp Hc El.
  destruct (last_index_skipn _ _ _ El) as (x & rest & Hs & Hx).
  split.
  - rewrite Hs. now apply looks_like_party_join.
  - rewrite Hp. now apply cut_head_nonempty.
Qed.

(** X26: the next petitioner is a party.  When [_split_resp_frag] returns a
    non-empty second part, or [_split_frag0] a non-empty first part, the
    fragment was cut before its last paragraph that looks like a party: the
    second part is then a text [_looks_like_party] accepts, and neither
    part is empty. *)
Theorem split_frag_next_party (text resp pet : str) :
  (_split_resp_frag text = (resp, pet) /\ pet <> [])
  \/ (_split_frag0 text = (resp, pet) /\ resp <> []) ->
  _looks_like_party pet = true /\ resp <> [] /\ pet <> [].
Proof.
  assert (Hpet : forall t, _looks_like_party t = true -> t <> []).
  { intros t H ->. discriminate H. }
  unfold _split_resp_frag, _split_frag0. cbv zeta.
  destruct (paragraphs_shape text) as [Hp | (c & p & ps & Hc & Hp)].
  - rewrite Hp.
    change (last_index _looks_like_party [[]]) with (@None nat).
    intros [[[= <- <-] Hne] | [[= <- <-] Hne]]; contradiction.
  - destruct (last_index _looks_like_party (split_paragraphs (strip text)))
      as [[|l]|] eqn:El.
    + intros [[[= <- <-] Hne] | [[= <- <-] Hne]]; contradiction.
    + destruct (cut_at_party _ l c p ps Hp Hc El) as [Hl Hr].
      intros [[[= <- <-] _] | [[= <- <-] _]];
        (split; [exact Hl | split; [exact Hr | now apply Hpet]]).
    + intros [[[= <- <-] Hne] | [[= <- <-] Hne]]; contradiction.
Qed.

Lemma split_frag_next_party_witness :
  _looks_like_party (lit "STATE OF KERALA") = true
  /\ lit "IA No. 5/2020" <> [] /\ lit "STATE OF KERALA" <> [].
Proof.
  apply (split_frag_next_party
           (lit "IA No. 5/2020" ++ nl :: nl :: lit "STATE OF KERALA")
           (lit "IA No. 5/2020") (lit "STATE OF KERALA")).
  left. split; [reflexivity | discriminate].
Defined.

(** ** Texts without serials *)



(** C1, counterexample: three texts none of whose candidate blocks yields a
    leading serial, the one block of each being the text itself.  On the
    first the Tesseract pipeline returns case 15, because it normalises the
    line before it splits; the Azure pipeline returns the empty mapping.  On
    the second the Tesseract pipeline reads the bare numbers 1 and 2 as the
    serials of a column dump and returns two cases.  On the third the
    column dump has more case blocks than parties, and the pipeline raises
    [IndexError]. *)
Lemma tesseract_finds_serials_after_reassembly :
  let dotted := lit "15. SLP(C) No. 11727/2020" in
  let dump :=
    join [nl] (map lit [ "CAUSE LIST"; "1"; "2"; "junk"; "C.A. No. 1/2020";
                         "C.A. No. 2/2020" ]%string) in
  let short_dump :=
    join [nl] (map lit [ "CAUSE LIST"; "10"; "11"; "junk"; "C.A. No. 1/2020";
                         "C.A. No. 2/2020"; "C.A. No. 3/2020"; "PARTY A";
                         "Versus"; "PARTY B" ]%string) in
  (candidate_blocks dotted = [dotted]
   /\ _tesseract_parse_serial dotted = Ok None
   /\ segment_cases_tesseract dotted
      = Ok [(lit "15", lit "15 SLP(C) No. 11727/2020")]
   /\ segment_cases_azure dotted = Ok [])
  /\ (candidate_blocks dump = [dump]
      /\ _tesseract_parse_serial dump = Ok None
      /\ segment_cases_tesseract dump
         = Ok [(lit "1", lit "1 C.A. No. 1/2020");
               (lit "2", lit "2 C.A. No. 2/2020")])
  /\ (candidate_blocks short_dump = [short_dump]
      /\ _tesseract_parse_serial short_dump = Ok None
      /\ segment_cases_tesseract short_dump = Raise IndexError).
Proof. cbv zeta. repeat split; vm_compute; reflexivity. Qed.



(** ** Azure: a blob of three units behind two stubs *)


Lemma struct_party_line (l : str) :
  _azure_tag_for_struct l = PARTY -> _azure_tag_line l = PARTY.
Proof.
  unfold _azure_tag_for_struct, _azure_tag_line.
  destruct (negb (nonempty (strip l))); [discriminate|].
  destruct (versus_re (strip l)); [discriminate|].
  destruct (ia_re (strip l)); [discriminate|].
  destruct (advocate_re (strip l)); [discriminate|]. reflexivity.
Qed.














(** *** Keys in ascending order *)









(** *** The loop before and after a run *)








(** *** Two stubs and an owner of three units *)


(** C5, counterexample: two stubs followed by an owner whose text has
    three Versus occurrences, each inside a line ("PET A Versus RESP A").
    No line of the owner starts with Versus, so the blob is empty and the
    run is passed over: the mapping comes back unchanged, the stubs are
    still stubs and the owner still has its three Versus. *)
Lemma inline_versus_blob_kept :
  let cases :=
    [ (lit "32", lit "32 C.A. No. 1/2020");
      (lit "33", lit "33 C.A. No. 2/2020");
      (lit "34", join [nl] (map lit [ "34 C.A. No. 3/2020";
                                      "PET A Versus RESP A";
                                      "PET B Versus RESP B";
                                      "PET C Versus RESP C" ]%string)) ] in
  is_stub cases (lit "32") = true
  /\ is_stub cases (lit "33") = true
  /\ count_versus (get_default cases (lit "34")) = 3
  /\ split_before (nl :: lit "--- Connected ") (get_default cases (lit "34"))
     = [get_default cases (lit "34")]
  /\ _azure_redistribute_blobs cases = Ok cases.
Proof. cbv zeta. repeat split; vm_compute; reflexivity. Qed.


